(** * Stock-M dataflow: rate limiter, composite fetch and technical indicators

    A shallow embedding of the parts of [src/dataflow/utils.py] and
    [src/dataflow/data_manager.py] that carry the aggregation engine:
    - [RateLimiter] ([utils.py], lines 172-195), as a step system over the
      limiter's shared timestamp list and its concurrent callers;
    - [DataManager.get_stock_comprehensive_data] ([data_manager.py],
      lines 347-419), fan-out with [asyncio.gather(..., return_exceptions=True)];
    - the indicator functions [calculate_ma], [calculate_rsi],
      [calculate_kdj], [calculate_bollinger_bands] and [calculate_macd]
      ([utils.py], lines 204-433) over a heap of DataFrame objects. *)

From Stdlib Require Import ZArith QArith List Bool Lia Lqa Permutation Sorted.
From stdpp Require Import base gmap strings pretty.
Import ListNotations.

(* ================================================================== *)
(** ** RateLimiter *)
(* ================================================================== *)

Module RateLimit.

Open Scope Z_scope.

(** Python's outcome of a call: a value, or an exception. *)
Inductive pyresult (A : Type) :=
| Ok (a : A)
| Raised (exn : string).
Arguments Ok {A} a.
Arguments Raised {A} exn.

(** The limiter object.  Timestamps ([time.time()]) are modelled as
    integer clock ticks. *)
Record limiter := mk_limiter {
  max_requests : Z;
  time_window : Z;
  requests : list Z
}.

(** [RateLimiter.__init__]: stores the two settings and an empty list;
    there is no validation of its arguments. *)
Definition RateLimiter_init (max_requests time_window : Z) : pyresult limiter :=
  Ok (mk_limiter max_requests time_window []).

(** What one pass through the body of [acquire] ends in. *)
Inductive attempt :=
| Grant                (** [self.requests.append(now)] and return *)
| Sleep (d : Z)        (** [await asyncio.sleep(sleep_time)], then retry *)
| IndexFail.           (** [self.requests[0]] on an empty list *)

(** One pass of [acquire] at time [now].  No [await] happens between
    [time.time()] and the append or the sleep, so under asyncio a pass is
    atomic with respect to the other callers.  The pruned list is stored
    before the length test, so it is kept in every outcome. *)
Definition acquire_pass (N W now : Z) (reqs : list Z) : attempt * list Z :=
  let reqs' := List.filter (fun req_time => now - req_time <? W) reqs in
  if N <=? Z.of_nat (length reqs') then
    match reqs' with
    | [] => (IndexFail, reqs')
    | t0 :: _ =>
        let sleep_time := W - (now - t0) in
        if 0 <? sleep_time then (Sleep sleep_time, reqs')
        else (Grant, reqs' ++ [now])
    end
  else (Grant, reqs' ++ [now]).

(** A coroutine blocked in [acquire]. *)
Inductive caller :=
| Ready                (** about to (re)run the body of [acquire] *)
| Sleeping (d : Z)     (** suspended in [asyncio.sleep(d)] *)
| Done                 (** [acquire] returned: the permit was granted *)
| Failed.              (** [acquire] raised *)

(** The whole system: the event-loop clock, the limiter's shared list, the
    log of grant timestamps, and the callers. *)
Record sys := mk_sys {
  clock : Z;
  reqs : list Z;
  grants : list Z;
  callers : list caller
}.

Section Steps.
Variables N W : Z.

(** Moves of an execution with any number of concurrent callers.  Time
    only moves forward.  A sleeping caller may be resumed at any moment
    (this over-approximates the event loop's timer, which may also fire a
    little early by its clock resolution). *)
Inductive step : sys -> sys -> Prop :=
| step_tick s d :
    0 <= d ->
    step s (mk_sys (clock s + d) (reqs s) (grants s) (callers s))
| step_wake s i d :
    nth_error (callers s) i = Some (Sleeping d) ->
    step s (mk_sys (clock s) (reqs s) (grants s) (<[i := Ready]> (callers s)))
| step_pass s i :
    nth_error (callers s) i = Some Ready ->
    step s
      (let '(o, r) := acquire_pass N W (clock s) (reqs s) in
       match o with
       | Grant => mk_sys (clock s) r (grants s ++ [clock s]) (<[i := Done]> (callers s))
       | Sleep d => mk_sys (clock s) r (grants s) (<[i := Sleeping d]> (callers s))
       | IndexFail => mk_sys (clock s) r (grants s) (<[i := Failed]> (callers s))
       end).

Inductive reachable : sys -> Prop :=
| reach_init t0 k : reachable (mk_sys t0 [] [] (repeat Ready k))
| reach_step s s' : reachable s -> step s s' -> reachable s'.

End Steps.

(** Number of grants with timestamp in the half-open window [[a, a+W)]. *)
Definition in_window (W a : Z) (gs : list Z) : nat :=
  length (List.filter (fun g => (a <=? g) && (g <? a + W)) gs).

(** Examples on small inputs: a full list sleeps until the oldest entry
    expires; an empty one grants. *)
Example acquire_pass_full :
  acquire_pass 2 60 10 [0; 5] = (Sleep 50, [0; 5]).
Proof. reflexivity. Qed.

Example acquire_pass_prunes :
  acquire_pass 2 60 61 [0; 5] = (Grant, [5; 61]).
Proof. reflexivity. Qed.

Example acquire_pass_zero :
  acquire_pass 0 60 0 [] = (IndexFail, []).
Proof. reflexivity. Qed.

Lemma filter_prune_mono (W T c : Z) (l : list Z) :
  T <= c ->
  List.filter (fun g => c - g <? W) (List.filter (fun g => T - g <? W) l) =
  List.filter (fun g => c - g <? W) l.
Proof.
  intros HT. induction l as [|g l IH]; simpl; [reflexivity|].
  destruct (T - g <? W) eqn:E1; simpl.
  - destruct (c - g <? W); rewrite IH; reflexivity.
  - destruct (c - g <? W) eqn:E2; [|exact IH].
    apply Z.ltb_lt in E2. apply Z.ltb_ge in E1. lia.
Qed.

Lemma length_filter_impl {A} (p q : A -> bool) (l : list A) :
  (forall x, In x l -> p x = true -> q x = true) ->
  (length (List.filter p l) <= length (List.filter q l))%nat.
Proof.
  induction l as [|x l IH]; intros Himp; simpl; [lia|].
  destruct (p x) eqn:Ep.
  - rewrite (Himp x (or_introl eq_refl) Ep). simpl.
    specialize (IH (fun y Hy => Himp y (or_intror Hy))). lia.
  - destruct (q x); simpl; specialize (IH (fun y Hy => Himp y (or_intror Hy))); lia.
Qed.

Lemma in_window_app (W a c : Z) (gs : list Z) :
  in_window W a (gs ++ [c]) =
  (in_window W a gs + if ((a <=? c) && (c <? a + W))%Z then 1 else 0)%nat.
Proof.
  unfold in_window. rewrite List.filter_app, length_app. simpl.
  destruct ((a <=? c) && (c <? a + W)); reflexivity.
Qed.

Lemma filter_prune_snoc (W c : Z) (gs : list Z) :
  0 < W ->
  List.filter (fun g => c - g <? W) (gs ++ [c]) = List.filter (fun g => c - g <? W) gs ++ [c].
Proof.
  intros HW. rewrite List.filter_app. simpl.
  replace (c - c <? W) with true; [reflexivity|].
  symmetry. apply Z.ltb_lt. lia.
Qed.

(** The invariant of a reachable state, for a positive window: the shared
    list is exactly the grants that were still live at the last pass, and no
    window holds more than [N] grants. *)
Definition limiter_inv (N W : Z) (s : sys) : Prop :=
  (exists T, T <= clock s /\ reqs s = List.filter (fun g => T - g <? W) (grants s)) /\
  (forall a, Z.of_nat (in_window W a (grants s)) <= N).

Lemma limiter_inv_init (N W t0 : Z) (k : nat) :
  0 <= N -> limiter_inv N W (mk_sys t0 [] [] (repeat Ready k)).
Proof.
  intros HN. split.
  - exists t0. simpl. split; [lia|reflexivity].
  - intros a. simpl. unfold in_window. simpl. lia.
Qed.

Lemma limiter_inv_step (N W : Z) (s s' : sys) :
  0 < W -> limiter_inv N W s -> step N W s s' -> limiter_inv N W s'.
Proof.
  intros HW [[T [HT Hreq]] Hwin] Hstep.
  destruct Hstep as [s d Hd | s i d _ | s i _].
  - split; [exists T; simpl; split; [lia|exact Hreq] | exact Hwin].
  - split; [exists T; simpl; split; [lia|exact Hreq] | exact Hwin].
  - set (c := clock s).
    assert (Hpr : List.filter (fun req_time => c - req_time <? W) (reqs s) =
                  List.filter (fun g => c - g <? W) (grants s)).
    { rewrite Hreq. apply filter_prune_mono. unfold c. lia. }
    unfold acquire_pass. rewrite Hpr.
    set (live := List.filter (fun g => c - g <? W) (grants s)) in *.
    (* every grant inside a window that contains [c] is still live *)
    assert (Hlive : forall a, ((a <=? c) && (c <? a + W)) = true ->
              (in_window W a (grants s) <= length live)%nat).
    { intros a Ha. apply andb_true_iff in Ha as [Ha1 Ha2].
      apply Z.leb_le in Ha1. apply Z.ltb_lt in Ha2.
      apply length_filter_impl. intros g _ Hg.
      apply andb_true_iff in Hg as [Hg1 Hg2].
      apply Z.leb_le in Hg1. apply Z.ltb_lt in Hg2. apply Z.ltb_lt. lia. }
    assert (Hgrant : limiter_inv N W
              (mk_sys c (live ++ [c]) (grants s ++ [c]) (<[i:=Done]> (callers s)))
              \/ (N <= Z.of_nat (length live))).
    { destruct (Z_lt_le_dec (Z.of_nat (length live)) N) as [Hlt|Hge]; [left|right; exact Hge].
      split.
      - exists c. simpl. split; [lia|]. unfold live. symmetry. apply filter_prune_snoc. exact HW.
      - intros a. simpl. rewrite in_window_app.
        destruct ((a <=? c) && (c <? a + W)) eqn:Ea.
        + specialize (Hlive a Ea). lia.
        + specialize (Hwin a). lia. }
    destruct (N <=? Z.of_nat (length live)) eqn:Efull.
    + apply Z.leb_le in Efull.
      destruct live as [|t0 rest] eqn:Elive.
      * split; [exists c; simpl; split; [lia|symmetry; exact Elive] | exact Hwin].
      * assert (Ht0 : c - t0 < W).
        { assert (Hin : In t0 live) by (rewrite Elive; left; reflexivity).
          unfold live in Hin. apply List.filter_In in Hin as [_ Hin].
          apply Z.ltb_lt in Hin. exact Hin. }
        replace (0 <? W - (c - t0)) with true by (symmetry; apply Z.ltb_lt; lia).
        split; [exists c; simpl; split; [lia|symmetry; exact Elive] | exact Hwin].
    + apply Z.leb_gt in Efull.
      destruct Hgrant as [Hg|Hg]; [exact Hg|lia].
Qed.

(** ** C1: with a positive window, no window of [W] ticks ever holds more
    than [N] grant timestamps, in any interleaving of any number of
    concurrent callers of [acquire]. *)
Theorem rate_limiter_window_bound (N W : Z) (s : sys) :
  0 <= N ->
  reachable N W s ->
  forall a, Z.of_nat (in_window W a (grants s)) <= N.
Proof.
  intros HN Hreach a.
  destruct (Z_lt_le_dec 0 W) as [HW|HW].
  - assert (Hinv : limiter_inv N W s).
    { induction Hreach as [t0 k | s s' _ IH Hstep].
      - apply limiter_inv_init. exact HN.
      - exact (limiter_inv_step N W s s' HW IH Hstep). }
    apply (proj2 Hinv).
  - (* an empty window holds no grant *)
    unfold in_window. rewrite (List.filter_ext_in _ (fun _ => false)).
    + rewrite List.filter_false. simpl. exact HN.
    + intros g _. apply andb_false_iff.
      destruct (a <=? g) eqn:E; [right|left; reflexivity].
      apply Z.leb_le in E. apply Z.ltb_ge. lia.
Qed.

(** The bound at a concrete execution: [N = 1], [W = 60], two callers;
    the first is granted at tick 0, the second sleeps, wakes at tick 60 and
    is granted then. *)
Lemma rate_limiter_window_bound_witness :
  let s0 := mk_sys 0 [] [] [Ready; Ready] in
  let s1 := mk_sys 0 [0] [0] [Done; Ready] in
  let s2 := mk_sys 0 [0] [0] [Done; Sleeping 60] in
  let s3 := mk_sys 60 [0] [0] [Done; Sleeping 60] in
  let s4 := mk_sys 60 [0] [0] [Done; Ready] in
  let s5 := mk_sys 60 [60] [0; 60] [Done; Done] in
  reachable 1 60 s5 /\ Z.of_nat (in_window 60 30 (grants s5)) <= 1.
Proof.
  intros s0 s1 s2 s3 s4 s5.
  assert (H : reachable 1 60 s5).
  { apply (reach_step 1 60 s4 s5).
    - apply (reach_step 1 60 s3 s4).
      + apply (reach_step 1 60 s2 s3).
        * apply (reach_step 1 60 s1 s2).
          -- apply (reach_step 1 60 s0 s1).
             ++ exact (reach_init 1 60 0 2).
             ++ exact (step_pass 1 60 s0 0 eq_refl).
          -- exact (step_pass 1 60 s1 1 eq_refl).
        * exact (step_tick 1 60 s2 60 ltac:(lia)).
      + exact (step_wake 1 60 s3 1 60 eq_refl).
    - exact (step_pass 1 60 s4 1 eq_refl). }
  split; [exact H|].
  apply (rate_limiter_window_bound 1 60 s5); [lia|exact H].
Defined.

(** ** C4, as stated: construction with [max_requests = 0] (or
    [time_window = 0]) is rejected.  It is not: [__init__] returns a
    limiter. *)
Lemma rate_limiter_zero_not_rejected :
  ~ (exists e, RateLimiter_init 0 60 = Raised e) /\
  ~ (exists e, RateLimiter_init 5 0 = Raised e).
Proof. split; intros [e He]; discriminate He. Qed.

(** ** C4, as the code has it: the constructor accepts every setting,
    zeros included; with [max_requests = 0] a pass over the (necessarily
    empty) list raises on [self.requests[0]], and with [time_window = 0]
    every pass whose recorded timestamps are not in the future grants at
    once. *)
Theorem rate_limiter_zero_accepted (N W now : Z) (rs : list Z) :
  (forall t, In t rs -> t <= now) ->
  RateLimiter_init N W = Ok (mk_limiter N W []) /\
  acquire_pass 0 W now [] = (IndexFail, []) /\
  (0 < N -> acquire_pass N 0 now rs = (Grant, [now])).
Proof.
  intros Hpast. split; [reflexivity|]. split; [reflexivity|].
  intros HN. unfold acquire_pass.
  rewrite (List.filter_ext_in _ (fun _ => false)).
  - rewrite List.filter_false. simpl.
    replace (N <=? Z.of_nat 0) with false by (symmetry; apply Z.leb_gt; simpl; lia).
    reflexivity.
  - intros t Ht. apply Z.ltb_ge. specialize (Hpast t Ht). lia.
Qed.

Lemma rate_limiter_zero_accepted_witness :
  RateLimiter_init 3 0 = Ok (mk_limiter 3 0 []) /\
  acquire_pass 0 0 10 [] = (IndexFail, []) /\
  (0 < 3 -> acquire_pass 3 0 10 [4; 10] = (Grant, [10])).
Proof.
  apply (rate_limiter_zero_accepted 3 0 10 [4; 10]).
  intros t Ht. simpl in Ht. destruct Ht as [<-|[<-|[]]]; lia.
Defined.

End RateLimit.

(* ================================================================== *)
(** ** DataManager.get_stock_comprehensive_data *)
(* ================================================================== *)

Module Composite.

(** Values stored in the result dictionary.  A fetched DataFrame or dict
    is represented by an opaque identifier. *)
Inductive pyval :=
| PyNone
| PyStr (s : string)
| PyData (d : nat).

(** How one awaited sub-request settles. *)
Inductive task_outcome :=
| Returned (d : nat)
| RaisedExc (msg : string).

(** Log records written through [logger]. *)
Inductive log_entry :=
| LogStart (ts_code : string)                  (** "获取股票综合数据: ..." *)
| LogTaskError (task_name msg : string)        (** "获取{task_name}数据失败: ..." *)
| LogDone (ts_code : string)                   (** "成功获取股票综合数据: ..." *)
| LogFailed (msg : string).                    (** "获取股票综合数据失败: ..." *)

Inductive pyresult (A : Type) :=
| Ok (a : A)
| Raised (exn : string).
Arguments Ok {A} a.
Arguments Raised {A} exn.

Record flags := mk_flags {
  include_kline : bool;
  include_financial : bool;
  include_market : bool;
  include_news : bool
}.

(** [task_names] as built by the four [if include_...:] blocks. *)
Definition task_names (f : flags) : list string :=
  (if include_kline f then ["kline"] else []) ++
  (if include_financial f then ["financial"] else []) ++
  (if include_market f then ["money_flow"] else []) ++
  (if include_news f then ["news"] else []).

(** [asyncio.gather] over the tasks with [return_exceptions=True]: every task is run to
    completion and its value or exception is returned, in task order.
    [fetch] gives the outcome of the coroutine submitted under a label. *)
Definition gather (fetch : string -> task_outcome) (names : list string) : list task_outcome :=
  map fetch names.

(** One iteration of the result loop. *)
Definition record_result (acc : gmap string pyval * list log_entry)
    (p : task_outcome * string) : gmap string pyval * list log_entry :=
  let '(result, logs) := acc in
  let '(task_result, task_name) := p in
  match task_result with
  | RaisedExc e => (<[task_name := PyNone]> result, logs ++ [LogTaskError task_name e])
  | Returned d => (<[task_name := PyData d]> result, logs)
  end.

Definition initial_result (ts_code start_date end_date update_time : string) : gmap string pyval :=
  <["update_time" := PyStr update_time]>
  (<["end_date" := PyStr end_date]>
  (<["start_date" := PyStr start_date]>
  {[ "ts_code" := PyStr ts_code ]})).

(** The method body.  [update_time] is [datetime.now().isoformat()].  No
    statement inside the [try] raises once the sub-requests have been
    gathered with [return_exceptions=True], so the [except] branch (log and
    re-raise) is not reached. *)
Definition get_stock_comprehensive_data (fetch : string -> task_outcome)
    (ts_code start_date end_date update_time : string) (f : flags)
    : pyresult (gmap string pyval) * list log_entry :=
  let result := initial_result ts_code start_date end_date update_time in
  let names := task_names f in
  let '(result, logs) :=
    match names with
    | [] => (result, [])
    | _ :: _ =>
        let results := gather fetch names in
        fold_left record_result (combine results names) (result, [])
    end in
  (Ok result, [LogStart ts_code] ++ logs ++ [LogDone ts_code]).

(** What the loop stores for a submitted label. *)
Definition stored (o : task_outcome) : pyval :=
  match o with
  | Returned d => PyData d
  | RaisedExc _ => PyNone
  end.

Definition metadata_keys : list string := ["ts_code"; "start_date"; "end_date"; "update_time"].

Example composite_four_one_fails :
  let fetch l := if String.eqb l "financial" then RaisedExc "upstream" else Returned 7 in
  let '(r, logs) := get_stock_comprehensive_data fetch "000001.SZ" "20240101" "20240131" "t"
                      (mk_flags true true true true) in
  match r with
  | Ok m => m !! "financial" = Some PyNone /\ m !! "news" = Some (PyData 7) /\
            In (LogTaskError "financial" "upstream") logs
  | Raised _ => False
  end.
Proof. simpl. split; [reflexivity|]. split; [reflexivity|]. simpl. tauto. Qed.

Lemma task_names_NoDup (f : flags) : NoDup (task_names f).
Proof.
  destruct f as [[] [] [] []]; unfold task_names; simpl;
    apply (bool_decide_unpack _); vm_compute; reflexivity.
Qed.

Lemma task_names_not_meta (f : flags) (l : string) :
  In l (task_names f) -> ~ In l metadata_keys.
Proof.
  destruct f as [[] [] [] []]; unfold task_names, metadata_keys; simpl;
    intros H1 H2; intuition (subst; discriminate).
Qed.

Lemma loop_lookup (fetch : string -> task_outcome) (names : list string) :
  NoDup names ->
  forall acc l,
    fst (fold_left record_result (combine (gather fetch names) names) acc) !! l =
    if in_dec String.string_dec l names then Some (stored (fetch l)) else fst acc !! l.
Proof.
  induction names as [|n names IH]; intros Hnd acc l.
  - reflexivity.
  - apply NoDup_cons in Hnd as [Hn Hnd'].
    cbn [gather map combine fold_left].
    rewrite (IH Hnd').
    destruct acc as [result logs].
    assert (Hstep : fst (record_result (result, logs) (fetch n, n)) = <[n := stored (fetch n)]> result).
    { unfold record_result. destruct (fetch n); reflexivity. }
    rewrite Hstep.
    destruct (in_dec String.string_dec l names) as [Hin|Hin];
      destruct (in_dec String.string_dec l (n :: names)) as [Hin'|Hin']; simpl in Hin'.
    + reflexivity.
    + exfalso. tauto.
    + destruct Hin' as [<-|Hin']; [|tauto].
      rewrite lookup_insert_eq. reflexivity.
    + rewrite lookup_insert_ne; [reflexivity|]. intros ->. tauto.
Qed.

Lemma loop_logs_mono (fetch : string -> task_outcome) (names : list string) :
  forall acc x, In x (snd acc) ->
    In x (snd (fold_left record_result (combine (gather fetch names) names) acc)).
Proof.
  induction names as [|n names IH]; intros acc x Hx; simpl; [exact Hx|].
  apply IH. destruct acc as [result logs]. unfold record_result.
  destruct (fetch n); simpl in *; [exact Hx|].
  apply in_or_app. left. exact Hx.
Qed.

Lemma loop_logs_error (fetch : string -> task_outcome) (names : list string) :
  forall acc l e, In l names -> fetch l = RaisedExc e ->
    In (LogTaskError l e) (snd (fold_left record_result (combine (gather fetch names) names) acc)).
Proof.
  induction names as [|n names IH]; intros acc l e Hl He; simpl in *; [tauto|].
  destruct Hl as [<-|Hl]; [|apply IH; assumption].
  apply loop_logs_mono. destruct acc as [result logs]. unfold record_result.
  rewrite He. simpl. apply in_or_app. right. left. reflexivity.
Qed.

Lemma initial_result_lookup (ts sd ed ut k : string) :
  is_Some (initial_result ts sd ed ut !! k) <-> In k metadata_keys.
Proof.
  unfold initial_result, metadata_keys.
  rewrite !lookup_insert, lookup_singleton.
  repeat case_decide; subst; simpl; split; intros Hk; try tauto;
    try (eexists; reflexivity);
    try (destruct Hk as [? Hk]; discriminate Hk);
    intuition congruence.
Qed.

(** ** C2: every submitted sub-request has exactly one entry: a failed one
    holds [None] and its error is logged, a successful one holds its
    value; the call itself returns normally.  The dictionary's keys are
    the four metadata keys and the submitted labels. *)
Theorem comprehensive_contains_failures (fetch : string -> task_outcome)
    (ts_code start_date end_date update_time : string) (f : flags) :
  let '(r, logs) := get_stock_comprehensive_data fetch ts_code start_date end_date update_time f in
  exists m, r = Ok m /\
    (forall l, In l (task_names f) -> m !! l = Some (stored (fetch l))) /\
    (forall l e, In l (task_names f) -> fetch l = RaisedExc e -> In (LogTaskError l e) logs) /\
    (forall k, is_Some (m !! k) <-> In k (metadata_keys ++ task_names f)).
Proof.
  unfold get_stock_comprehensive_data.
  set (init := initial_result ts_code start_date end_date update_time).
  assert (Hloop : forall names : list string,
    match names with
    | [] => (init, [])
    | _ :: _ => fold_left record_result (combine (gather fetch names) names) (init, [])
    end = fold_left record_result (combine (gather fetch names) names) (init, [])).
  { intros [|? ?]; reflexivity. }
  rewrite Hloop.
  destruct (fold_left record_result (combine (gather fetch (task_names f)) (task_names f)) (init, []))
    as [m logs] eqn:Efold.
  pose proof (loop_lookup fetch (task_names f) (task_names_NoDup f) (init, [])) as Hlk.
  rewrite Efold in Hlk. simpl in Hlk.
  exists m. split; [reflexivity|]. split; [|split].
  - intros l Hl. rewrite Hlk. destruct (in_dec String.string_dec l (task_names f)); [reflexivity|tauto].
  - intros l e Hl He.
    pose proof (loop_logs_error fetch (task_names f) (init, []) l e Hl He) as Hlog.
    rewrite Efold in Hlog. simpl in Hlog.
    apply in_or_app. right. apply in_or_app. left. exact Hlog.
  - intros k. rewrite Hlk, in_app_iff.
    destruct (in_dec String.string_dec k (task_names f)) as [Hk|Hk].
    + split; [intros _; right; exact Hk | intros _; eexists; reflexivity].
    + unfold init. rewrite initial_result_lookup. tauto.
Qed.

(** All four labels a composite request can submit. *)
Definition all_labels : list string := ["kline"; "financial"; "money_flow"; "news"].

Lemma task_names_sub (f : flags) (l : string) :
  In l (task_names f) -> In l all_labels.
Proof.
  destruct f as [[] [] [] []]; unfold task_names, all_labels; simpl; tauto.
Qed.

(** ** C8: a label whose feature flag is off (so it is not among the
    submitted task names) has no entry at all in the returned dictionary,
    as opposed to an entry holding [None]. *)
Theorem comprehensive_disabled_absent (fetch : string -> task_outcome)
    (ts_code start_date end_date update_time : string) (f : flags) (l : string) :
  In l all_labels ->
  ~ In l (task_names f) ->
  let '(r, _) := get_stock_comprehensive_data fetch ts_code start_date end_date update_time f in
  exists m, r = Ok m /\ m !! l = None.
Proof.
  intros Hl Hoff.
  pose proof (comprehensive_contains_failures fetch ts_code start_date end_date update_time f) as H.
  destruct (get_stock_comprehensive_data fetch ts_code start_date end_date update_time f) as [r logs].
  destruct H as [m [-> [_ [_ Hdom]]]].
  exists m. split; [reflexivity|].
  destruct (m !! l) as [v|] eqn:Em; [|reflexivity].
  exfalso. assert (Hs : is_Some (m !! l)) by (rewrite Em; eexists; reflexivity).
  apply Hdom, in_app_iff in Hs as [Hs|Hs]; [|tauto].
  unfold all_labels, metadata_keys in *. simpl in Hl, Hs.
  intuition (subst; discriminate).
Qed.

Lemma comprehensive_disabled_absent_witness :
  In "news" all_labels /\
  ~ In "news" (task_names (mk_flags true true true false)) /\
  let '(r, _) := get_stock_comprehensive_data (fun _ => Returned 1) "000001.SZ" "20240101" "20240131" "t"
                   (mk_flags true true true false) in
  exists m, r = Ok m /\ m !! "news" = None.
Proof.
  assert (H1 : In "news" all_labels) by (simpl; tauto).
  assert (H2 : ~ In "news" (task_names (mk_flags true true true false)))
    by (simpl; intuition discriminate).
  split; [exact H1|]. split; [exact H2|].
  exact (comprehensive_disabled_absent (fun _ => Returned 1) "000001.SZ" "20240101" "20240131" "t"
           (mk_flags true true true false) "news" H1 H2).
Defined.


End Composite.

(* ================================================================== *)
(** ** Technical indicators over pandas DataFrames *)
(* ================================================================== *)

Module Indicators.

Open Scope Q_scope.

(** *** Float values
    A float64 cell is a rational, an infinity or NaN.  Arithmetic is exact
    on the rationals (no rounding) and follows IEEE 754 for infinities and
    NaN; the sign of zero is not tracked. *)
Inductive num :=
| Fin (q : Q)
| PInf
| NInf
| NaN.

Definition is_nan (x : num) : bool :=
  match x with NaN => true | _ => false end.

Definition num_neg (x : num) : num :=
  match x with
  | Fin q => Fin (- q)
  | PInf => NInf
  | NInf => PInf
  | NaN => NaN
  end.

Definition num_add (x y : num) : num :=
  match x, y with
  | NaN, _ | _, NaN => NaN
  | PInf, NInf | NInf, PInf => NaN
  | PInf, _ | _, PInf => PInf
  | NInf, _ | _, NInf => NInf
  | Fin a, Fin b => Fin (a + b)
  end.

Definition num_sub (x y : num) : num := num_add x (num_neg y).

(** Sign of a non-NaN value: [Lt], [Eq] or [Gt] against zero. *)
Definition num_sign (x : num) : comparison :=
  match x with
  | Fin q => Qcompare q 0
  | PInf => Gt
  | NInf => Lt
  | NaN => Eq
  end.

Definition inf_of_sign (c : comparison) : num :=
  match c with Gt => PInf | Lt => NInf | Eq => NaN end.

Definition sign_mul (c d : comparison) : comparison :=
  match c, d with
  | Eq, _ | _, Eq => Eq
  | Gt, Gt | Lt, Lt => Gt
  | _, _ => Lt
  end.

Definition num_mul (x y : num) : num :=
  match x, y with
  | NaN, _ | _, NaN => NaN
  | Fin a, Fin b => Fin (a * b)
  | _, _ => inf_of_sign (sign_mul (num_sign x) (num_sign y))
  end.

(** IEEE division.  [num] has a single zero, and [x / 0] is [x / +0.0]:
    for a divisor [-0.0] IEEE gives the infinity of the opposite sign.
    Statements about a division by zero below say only what holds for both
    zeros. *)
Definition num_div (x y : num) : num :=
  match x, y with
  | NaN, _ | _, NaN => NaN
  | Fin a, Fin b => if Qeq_bool b 0 then inf_of_sign (Qcompare a 0) else Fin (a / b)
  | Fin _, _ => Fin 0
  | _, Fin b => if Qeq_bool b 0 then x else inf_of_sign (sign_mul (num_sign x) (num_sign y))
  | _, _ => NaN
  end.

(** IEEE [==], [<] and [>]: every comparison with NaN is false. *)
Definition num_eqb (x y : num) : bool :=
  match x, y with
  | Fin a, Fin b => Qeq_bool a b
  | PInf, PInf | NInf, NInf => true
  | _, _ => false
  end.

Definition num_ltb (x y : num) : bool :=
  match x, y with
  | NaN, _ | _, NaN => false
  | Fin a, Fin b => negb (Qle_bool b a)
  | NInf, NInf | PInf, _ => false
  | NInf, _ | _, PInf => true
  | Fin _, NInf => false
  end.

Definition num_of_nat (n : nat) : num := Fin (inject_Z (Z.of_nat n)).

(** *** Cells, frames *)
Inductive cell :=
| CNum (x : num)
| CStr (s : string).

(** The numeric reading of a cell.  Indicator inputs are numeric columns;
    a string there would make pandas raise, which the indicator code never
    guards against, so it is read as NaN here. *)
Definition cell_num (c : cell) : num :=
  match c with CNum x => x | CStr _ => NaN end.

(** A DataFrame after [reset_index(drop=True)]: column labels and the rows
    in positional order, each row holding one cell per column. *)
Record frame := mk_frame {
  columns : list string;
  rows : list (list cell)
}.

(** [df.empty]: no rows or no columns. *)
Definition frame_empty (df : frame) : bool :=
  match rows df, columns df with
  | [], _ | _, [] => true
  | _, _ => false
  end.

(** [c in df.columns] *)
Definition has_col (c : string) (df : frame) : bool :=
  existsb (String.eqb c) (columns df).

Fixpoint index_of (c : string) (cs : list string) : option nat :=
  match cs with
  | [] => None
  | c' :: cs' => if String.eqb c c' then Some 0%nat else option_map S (index_of c cs')
  end.

(** [df[c]] as a list of cells (the columns read by the indicator code
    are always present when it reads them). *)
Definition get_col (c : string) (df : frame) : list cell :=
  match index_of c (columns df) with
  | Some i => map (fun r => nth i r (CNum NaN)) (rows df)
  | None => []
  end.

Definition num_col (c : string) (df : frame) : list num :=
  map cell_num (get_col c df).

(** Python's in-place update [r[i] = x] of a row, for [i] in range. *)
Fixpoint replace_at {A} (i : nat) (x : A) (l : list A) : list A :=
  match l, i with
  | [], _ => []
  | _ :: t, O => x :: t
  | y :: t, S i' => y :: replace_at i' x t
  end.

(** [df[c] = values]: pandas aligns the assigned Series on the row index
    (a row without a value gets NaN), then overwrites the column in place,
    or appends it. *)
Definition set_col (c : string) (vals : list num) (df : frame) : frame :=
  let v k := CNum (nth k vals NaN) in
  let n := length (rows df) in
  match index_of c (columns df) with
  | Some i =>
      mk_frame (columns df) (map (fun k => replace_at i (v k) (nth k (rows df) [])) (seq 0 n))
  | None =>
      mk_frame (columns df ++ [c]) (map (fun k => nth k (rows df) [] ++ [v k]) (seq 0 n))
  end.

(** [df.sort_values(c).reset_index(drop=True)]: pandas computes the
    positions of the sorted order of the key column ([nargsort]: numpy's
    [argsort], whose default kind, quicksort, is not stable, of the non-NaN
    keys, then the positions of the NaN keys) and takes the rows in that
    order.  [argsort] is left as a parameter of the development. *)
Definition take_rows (idx : list nat) (df : frame) : frame :=
  mk_frame (columns df) (map (fun i => nth i (rows df) []) idx).

(** *** Series operations of pandas *)

Definition zip_with {A B C} (f : A -> B -> C) (xs : list A) (ys : list B) : list C :=
  map (fun '(x, y) => f x y) (combine xs ys).

(** The trailing window of [p] rows ending at row [i]; near the start it
    holds the rows available. *)
Definition window {A} (p i : nat) (xs : list A) : list A :=
  skipn (S i - p) (firstn (S i) xs).

(** [s.rolling(window=p, min_periods=1).agg()] *)
Definition rolling {A B} (agg : list A -> B) (p : nat) (xs : list A) : list B :=
  map (fun i => agg (window p i xs)) (seq 0 (length xs)).

Definition observations (ws : list num) : list num :=
  List.filter (fun x => negb (is_nan x)) ws.

Definition num_sum (xs : list num) : num := fold_left num_add xs (Fin 0).

(** [.mean()] of a window with [min_periods=1]: NaN when the window holds no
    observation. *)
Definition mean_agg (ws : list num) : num :=
  match observations ws with
  | [] => NaN
  | obs => num_div (num_sum obs) (num_of_nat (length obs))
  end.

Definition all_same (xs : list num) : bool :=
  match xs with
  | [] => true
  | x :: rest => forallb (num_eqb x) rest
  end.

(** [.var()] with pandas' default [ddof=1] and [min_periods=1]: NaN unless
    the window holds more than [ddof] observations; exactly 0 when they are
    all equal (pandas' guard for a run of equal values). *)
Definition var_agg (ws : list num) : num :=
  let obs := observations ws in
  let nobs := length obs in
  if (1 <=? nobs)%nat && (1 <? nobs)%nat then
    if all_same obs then Fin 0
    else
      let mean := num_div (num_sum obs) (num_of_nat nobs) in
      let ssqdm := num_sum (map (fun x => let d := num_sub x mean in num_mul d d) obs) in
      num_div ssqdm (num_of_nat (nobs - 1))
  else NaN.

Definition num_max (x y : num) : num := if num_ltb x y then y else x.
Definition num_min (x y : num) : num := if num_ltb y x then y else x.

Definition max_agg (ws : list num) : num :=
  match observations ws with [] => NaN | o :: os => fold_left num_max os o end.

Definition min_agg (ws : list num) : num :=
  match observations ws with [] => NaN | o :: os => fold_left num_min os o end.

(** [s.diff()] *)
Definition diff (xs : list num) : list num :=
  match xs with
  | [] => []
  | _ :: rest => NaN :: zip_with num_sub rest xs
  end.

(** [s.where(cond, 0)] *)
Definition where0 (cond : num -> bool) (xs : list num) : list num :=
  map (fun x => if cond x then x else Fin 0) xs.

(** [s.fillna(v)] *)
Definition fillna (v : num) (xs : list num) : list num :=
  map (fun x => if is_nan x then v else x) xs.

(** Forward fill, the default [fill_method='pad'] of [pct_change]. *)
Fixpoint ffill_from (last : num) (xs : list num) : list num :=
  match xs with
  | [] => []
  | x :: rest => let y := if is_nan x then last else x in y :: ffill_from y rest
  end.

(** [s.pct_change()] = [s / s.shift(1) - 1] on the padded series. *)
Definition pct_change (xs : list num) : list num :=
  let ys := ffill_from NaN xs in
  match ys with
  | [] => []
  | _ :: rest => NaN :: zip_with (fun cur prev => num_sub (num_div cur prev) (Fin 1)) rest ys
  end.

(** [s.ewm(alpha=a, adjust=False).mean()] following pandas' [ewm] kernel
    with [ignore_na=False]: [old_wt] decays over missing values and a new
    observation equal to the running value leaves it unchanged. *)
Fixpoint ewm_go (alpha : Q) (weighted : num) (old_wt : Q) (xs : list num) : list num :=
  match xs with
  | [] => []
  | cur :: rest =>
      let '(w, ow) :=
        if negb (is_nan weighted) then
          let ow1 := old_wt * (1 - alpha) in
          if negb (is_nan cur) then
            ((if negb (num_eqb weighted cur)
              then num_div (num_add (num_mul (Fin ow1) weighted) (num_mul (Fin alpha) cur))
                           (Fin (ow1 + alpha))
              else weighted), 1)
          else (weighted, ow1)
        else if negb (is_nan cur) then (cur, old_wt) else (weighted, old_wt) in
      w :: ewm_go alpha w ow rest
  end.

Definition ewm_mean (alpha : Q) (xs : list num) : list num :=
  match xs with
  | [] => []
  | x0 :: rest => x0 :: ewm_go alpha x0 1 rest
  end.

(** [span=s] is [alpha = 2 / (s + 1)]. *)
Definition span_alpha (s : nat) : Q := 2 / inject_Z (Z.of_nat s + 1).

(** *** [TECHNICAL_INDICATORS_CONFIG] ([config.py]) *)
Definition ma_periods : list nat := [5; 10; 20; 60]%nat.
Definition ma_volume_periods : list nat := [5; 10]%nat.
Definition rsi_periods : list nat := [6; 12; 24]%nat.
Definition kdj_period : nat := 9%nat.
Definition kdj_k_period : nat := 3%nat.
Definition kdj_d_period : nat := 3%nat.
Definition boll_period : nat := 20%nat.
Definition boll_std_dev : Q := 2.
Definition macd_fast_period : nat := 12%nat.
Definition macd_slow_period : nat := 26%nat.
Definition macd_signal_period : nat := 9%nat.

(** *** DataFrame objects on a heap
    A Python name bound to a DataFrame is a location; [df[c] = ...]
    mutates the object at that location, while [copy], [sort_values] and
    [reset_index] create new objects. *)
Abbreviation loc := nat (only parsing).
Abbreviation heap := (gmap nat frame) (only parsing).
Definition M (A : Type) := heap -> A * heap.

Definition ret {A} (a : A) : M A := fun h => (a, h).
Definition bind {A B} (m : M A) (k : A -> M B) : M B :=
  fun h => let '(a, h') := m h in k a h'.
Notation "x <-- m ;; k" := (bind m (fun x => k)) (at level 100, m at next level, right associativity).

Definition read (l : loc) : M frame := fun h => (default (mk_frame [] []) (h !! l), h).
Definition write (l : loc) (df : frame) : M unit := fun h => (tt, <[l := df]> h).
Definition alloc (df : frame) : M loc := fun h => let l := fresh (dom h) in (l, <[l := df]> h).

Fixpoint for_each {A} (xs : list A) (body : A -> M unit) : M unit :=
  match xs with
  | [] => ret tt
  | x :: rest => _ <-- body x ;; for_each rest body
  end.

(** [df.copy()] *)
Definition copy (l : loc) : M loc := df <-- read l ;; alloc df.

(** [df[c] = vals] *)
Definition assign (l : loc) (c : string) (vals : list num) : M unit :=
  df <-- read l ;; write l (set_col c vals df).

Definition col_name (prefix : string) (p : nat) : string := String.append prefix (pretty p).

(** Functions not needed by the claims' subject are out of scope; the two
    parameters below stand for library primitives. *)
Section Pandas.

(** IEEE square root, on the non-negative rationals. *)
Variable sqrtQ : Q -> Q.
(** The positions of the sorted order of a key column ([nargsort]). *)
Variable argsort : list cell -> list nat.

(** [np.sqrt] as pandas applies it to a variance ([zsqrt]: negative
    values give 0). *)
Definition zsqrt (x : num) : num :=
  match x with
  | Fin q => if Qle_bool 0 q then Fin (sqrtQ q) else Fin 0
  | PInf => PInf
  | NInf => Fin 0
  | NaN => NaN
  end.

Definition std_agg (ws : list num) : num := zsqrt (var_agg ws).

(** [if 'trade_date' in df.columns:
        df = df.sort_values('trade_date').reset_index(drop=True)] *)
Definition sort_by_trade_date (l : loc) : M loc :=
  df <-- read l ;;
  if has_col "trade_date" df then
    l1 <-- alloc (take_rows (argsort (get_col "trade_date" df)) df) ;;
    df1 <-- read l1 ;;
    alloc df1
  else ret l.

(** [calculate_ma] ([utils.py], lines 204-241) *)
Definition calculate_ma (periods : option (list nat)) (l : loc) : M loc :=
  df <-- read l ;;
  if frame_empty df || negb (has_col "close" df) then ret l else
  l <-- copy l ;;
  let periods := default ma_periods periods in
  l <-- sort_by_trade_date l ;;
  _ <-- for_each periods (fun period =>
          df <-- read l ;;
          assign l (col_name "ma" period) (rolling mean_agg period (num_col "close" df))) ;;
  df <-- read l ;;
  _ <-- (if has_col "vol" df then
           for_each ma_volume_periods (fun period =>
             df <-- read l ;;
             assign l (col_name "vol_ma" period) (rolling mean_agg period (num_col "vol" df)))
         else ret tt) ;;
  df <-- read l ;;
  _ <-- assign l "pct_change" (map (fun x => num_mul x (Fin 100)) (pct_change (num_col "close" df))) ;;
  ret l.

(** [calculate_rsi] ([utils.py], lines 244-286) *)
Definition calculate_rsi (periods : option (list nat)) (l : loc) : M loc :=
  df <-- read l ;;
  if frame_empty df || negb (has_col "close" df) then ret l else
  l <-- copy l ;;
  let periods := default rsi_periods periods in
  l <-- sort_by_trade_date l ;;
  df <-- read l ;;
  let delta := diff (num_col "close" df) in
  _ <-- for_each periods (fun period =>
          let gain := where0 (fun x => num_ltb (Fin 0) x) delta in
          let loss := map num_neg (where0 (fun x => num_ltb x (Fin 0)) delta) in
          let avg_gain := rolling mean_agg period gain in
          let avg_loss := rolling mean_agg period loss in
          let rs := zip_with num_div avg_gain avg_loss in
          let rsi := map (fun r => num_sub (Fin 100) (num_div (Fin 100) (num_add (Fin 1) r))) rs in
          assign l (col_name "rsi" period) rsi) ;;
  ret l.

(** [calculate_kdj] ([utils.py], lines 289-341) *)
Definition calculate_kdj (period k_period d_period : option nat) (l : loc) : M loc :=
  df <-- read l ;;
  if frame_empty df || negb (forallb (fun c => has_col c df) ["high"; "low"; "close"]) then ret l else
  l <-- copy l ;;
  let period := default kdj_period period in
  let k_period := default kdj_k_period k_period in
  let d_period := default kdj_d_period d_period in
  l <-- sort_by_trade_date l ;;
  df <-- read l ;;
  let high_n := rolling max_agg period (num_col "high" df) in
  let low_n := rolling min_agg period (num_col "low" df) in
  let rsv := map (fun x => num_mul x (Fin 100))
               (zip_with num_div (zip_with num_sub (num_col "close" df) low_n)
                                 (zip_with num_sub high_n low_n)) in
  let rsv := fillna (Fin 50) rsv in
  let k := ewm_mean (1 / inject_Z (Z.of_nat k_period)) rsv in
  let d := ewm_mean (1 / inject_Z (Z.of_nat d_period)) k in
  let j := zip_with (fun a b => num_sub (num_mul (Fin 3) a) (num_mul (Fin 2) b)) k d in
  _ <-- assign l "k" k ;;
  _ <-- assign l "d" d ;;
  _ <-- assign l "j" j ;;
  ret l.

(** [calculate_bollinger_bands] ([utils.py], lines 344-382) *)
Definition calculate_bollinger_bands (period : option nat) (std_dev : option Q) (l : loc) : M loc :=
  df <-- read l ;;
  if frame_empty df || negb (has_col "close" df) then ret l else
  l <-- copy l ;;
  let period := default boll_period period in
  let std_dev := default boll_std_dev std_dev in
  l <-- sort_by_trade_date l ;;
  df <-- read l ;;
  _ <-- assign l "boll_mid" (rolling mean_agg period (num_col "close" df)) ;;
  df <-- read l ;;
  let std := rolling std_agg period (num_col "close" df) in
  df <-- read l ;;
  _ <-- assign l "boll_upper"
          (zip_with num_add (num_col "boll_mid" df) (map (fun x => num_mul x (Fin std_dev)) std)) ;;
  df <-- read l ;;
  _ <-- assign l "boll_lower"
          (zip_with num_sub (num_col "boll_mid" df) (map (fun x => num_mul x (Fin std_dev)) std)) ;;
  ret l.

(** [calculate_macd] ([utils.py], lines 385-433) *)
Definition calculate_macd (fast_period slow_period signal_period : option nat) (l : loc) : M loc :=
  df <-- read l ;;
  if frame_empty df || negb (has_col "close" df) then ret l else
  l <-- copy l ;;
  let fast_period := default macd_fast_period fast_period in
  let slow_period := default macd_slow_period slow_period in
  let signal_period := default macd_signal_period signal_period in
  l <-- sort_by_trade_date l ;;
  df <-- read l ;;
  let ema_fast := ewm_mean (span_alpha fast_period) (num_col "close" df) in
  let ema_slow := ewm_mean (span_alpha slow_period) (num_col "close" df) in
  let dif := zip_with num_sub ema_fast ema_slow in
  let dea := ewm_mean (span_alpha signal_period) dif in
  let macd := zip_with (fun a b => num_mul (num_sub a b) (Fin 2)) dif dea in
  _ <-- assign l "macd_dif" dif ;;
  _ <-- assign l "macd_dea" dea ;;
  _ <-- assign l "macd_macd" macd ;;
  ret l.

End Pandas.

(** Running an indicator on a heap that holds one object. *)
Definition run (f : loc -> M loc) (df : frame) : frame :=
  let '(l, h) := f 0%nat {[0%nat := df]} in default (mk_frame [] []) (h !! l).

(** *** The order of [sort_values]
    Strings are ordered lexicographically and numbers numerically; NaN
    keys go last ([na_position='last']).  A mix of strings and numbers
    other than NaN makes [sort_values] raise [TypeError]; [sortable] below
    excludes it, and the order given to such pairs is never relied on. *)
Definition cell_leb (a b : cell) : bool :=
  match a, b with
  | _, CNum NaN => true
  | CNum NaN, _ => false
  | CStr x, CStr y => String.leb x y
  | CNum x, CNum y => negb (num_ltb y x)
  | CNum _, CStr _ => true
  | CStr _, CNum _ => false
  end.

(** The key lists [sort_values] sorts without raising: apart from NaN,
    all keys are strings, or all are numbers. *)
Definition sortable (ks : list cell) : Prop :=
  Forall (fun k => match k with CStr _ | CNum NaN => True | CNum _ => False end) ks \/
  Forall (fun k => match k with CNum _ => True | CStr _ => False end) ks.

Fixpoint insert_by (k : cell) (i : nat) (sorted : list (nat * cell)) : list (nat * cell) :=
  match sorted with
  | [] => [(i, k)]
  | (j, k') :: rest => if cell_leb k k' then (i, k) :: sorted else (j, k') :: insert_by k i rest
  end.

Definition argsort_ins (ks : list cell) : list nat :=
  map fst (fold_right (fun i acc => insert_by (nth i ks (CNum NaN)) i acc) [] (seq 0 (length ks))).

Definition sqrt_zero (q : Q) : Q := 0.

Definition sample : frame :=
  mk_frame ["trade_date"; "close"]
    [[CStr "20240103"; CNum (Fin 12)];
     [CStr "20240101"; CNum (Fin 10)];
     [CStr "20240102"; CNum (Fin 11)]].

(** The five functions, with their optional parameters, and the columns
    each one requires. *)
Inductive indicator :=
| IMa (periods : option (list nat))
| IRsi (periods : option (list nat))
| IKdj (period k_period d_period : option nat)
| IBoll (period : option nat) (std_dev : option Q)
| IMacd (fast_period slow_period signal_period : option nat).

Definition run_indicator (sqrtQ : Q -> Q) (argsort : list cell -> list nat)
    (i : indicator) : loc -> M loc :=
  match i with
  | IMa ps => calculate_ma argsort ps
  | IRsi ps => calculate_rsi argsort ps
  | IKdj p kp dp => calculate_kdj argsort p kp dp
  | IBoll p sd => calculate_bollinger_bands sqrtQ argsort p sd
  | IMacd f s g => calculate_macd argsort f s g
  end.

Definition required_cols (i : indicator) : list string :=
  match i with
  | IKdj _ _ _ => ["high"; "low"; "close"]
  | _ => ["close"]
  end.

(** The early-return test at the top of every indicator function. *)
Definition guarded (i : indicator) (df : frame) : bool :=
  frame_empty df || negb (forallb (fun c => has_col c df) (required_cols i)).

Example calculate_ma_sample :
  get_col "ma2" (run (calculate_ma argsort_ins (Some [2%nat])) sample) =
  [CNum (Fin (10 # 1)); CNum (Fin (21 # 2)); CNum (Fin (23 # 2))].
Proof. vm_compute. reflexivity. Qed.

End Indicators.

(** *** Frame of the indicator functions on the heap *)
Module IndicatorHeap.
Import Indicators.

(** [h] is the heap [h0] with objects added, [h0]'s objects untouched,
    and [l] names an object created since [h0]. *)
Definition ok (h0 : heap) (l : loc) (h : heap) : Prop :=
  (forall y, y ∈ dom h0 -> h !! y = h0 !! y) /\ l ∉ dom h0.

Definition stable {A} (h0 : heap) (l : loc) (m : M A) : Prop :=
  forall h, ok h0 l h -> ok h0 l (snd (m h)).

Definition stable_ret (h0 : heap) (l : loc) (m : M loc) : Prop :=
  forall h, ok h0 l h -> ok h0 (fst (m h)) (snd (m h)).

Lemma ok_dom (h0 h : heap) (l y : loc) : ok h0 l h -> y ∈ dom h0 -> y ∈ dom h.
Proof.
  intros [Hk _] Hy. apply elem_of_dom. rewrite (Hk y Hy). apply elem_of_dom. exact Hy.
Qed.

Lemma stable_bind {A B} h0 l (m : M A) (k : A -> M B) :
  stable h0 l m -> (forall a, stable h0 l (k a)) -> stable h0 l (bind m k).
Proof.
  intros Hm Hk h Hh. unfold bind. specialize (Hm h Hh).
  destruct (m h) as [a h']. exact (Hk a h' Hm).
Qed.

Lemma stable_ret_bind {A} h0 l (m : M A) (k : A -> M loc) :
  stable h0 l m -> (forall a, stable_ret h0 l (k a)) -> stable_ret h0 l (bind m k).
Proof.
  intros Hm Hk h Hh. unfold bind. specialize (Hm h Hh).
  destruct (m h) as [a h']. exact (Hk a h' Hm).
Qed.

Lemma stable_ret_ret h0 l : stable_ret h0 l (ret l).
Proof. intros h Hh. exact Hh. Qed.

Lemma stable_ret' {A} h0 l (a : A) : stable h0 l (ret a).
Proof. intros h Hh. exact Hh. Qed.

Lemma stable_read h0 l l' : stable h0 l (read l').
Proof. intros h Hh. exact Hh. Qed.

Lemma stable_write h0 l df : stable h0 l (write l df).
Proof.
  intros h [Hk Hl]. split; [|exact Hl].
  intros y Hy. simpl. rewrite lookup_insert_ne; [exact (Hk y Hy)|].
  intros ->. exact (Hl Hy).
Qed.

Lemma stable_assign h0 l c v : stable h0 l (assign l c v).
Proof. apply stable_bind; [apply stable_read|intros; apply stable_write]. Qed.

Lemma stable_alloc h0 l df : stable h0 l (alloc df).
Proof.
  intros h Hh. destruct Hh as [Hk Hl]. split; [|exact Hl].
  intros y Hy. simpl. rewrite lookup_insert_ne; [exact (Hk y Hy)|].
  intros Heq. apply (is_fresh (dom h)). rewrite Heq.
  exact (ok_dom h0 h l y (conj Hk Hl) Hy).
Qed.

Lemma stable_for_each {A} h0 l (xs : list A) (body : A -> M unit) :
  (forall x, stable h0 l (body x)) -> stable h0 l (for_each xs body).
Proof.
  intros Hb. induction xs as [|x xs IH]; simpl.
  - apply stable_ret'.
  - apply stable_bind; [apply Hb|intros; exact IH].
Qed.

(** A fresh object, allocated on top of a heap that keeps [h0]. *)
Lemma alloc_ok h0 h l df :
  ok h0 l h -> ok h0 (fst (alloc df h)) (snd (alloc df h)).
Proof.
  intros Hh. pose proof (stable_alloc h0 l df h Hh) as [Hk _].
  split; [exact Hk|]. simpl. intros Hin.
  apply (is_fresh (dom h)). exact (ok_dom h0 h l _ Hh Hin).
Qed.

Lemma sort_ok argsort h0 l : stable_ret h0 l (sort_by_trade_date argsort l).
Proof.
  intros h Hh. unfold sort_by_trade_date, bind, read.
  destruct (has_col "trade_date" _); [|exact Hh].
  match goal with
  | |- context [alloc ?df h] =>
      pose proof (alloc_ok h0 h l df Hh) as H1; destruct (alloc df h) as [l1 h1]
  end.
  simpl in H1 |- *. exact (alloc_ok h0 h1 l1 _ H1).
Qed.

Lemma copy_ok h0 x :
  x ∈ dom h0 -> ok h0 (fst (copy x h0)) (snd (copy x h0)).
Proof.
  intros Hx. unfold copy, bind, read. simpl. split.
  - intros y Hy. rewrite lookup_insert_ne; [reflexivity|].
    intros Heq. apply (is_fresh (dom h0)). rewrite Heq. exact Hy.
  - apply is_fresh.
Qed.

Ltac stable_tac :=
  repeat match goal with
  | |- stable_ret _ _ (ret _) => apply stable_ret_ret
  | |- stable_ret _ _ (bind _ _) => apply stable_ret_bind; [|intros ?]
  | |- stable _ _ (bind _ _) => apply stable_bind; [|intros ?]
  | |- stable _ _ (if ?b then _ else _) => destruct b
  | |- stable _ _ (for_each _ _) => apply stable_for_each; intros ?
  | |- stable _ _ (read _) => apply stable_read
  | |- stable _ _ (ret _) => apply stable_ret'
  | |- stable _ _ (assign _ _ _) => apply stable_assign
  | |- stable _ _ (write _ _) => apply stable_write
  end.

(** Every indicator function starts with the same prologue: test, copy,
    sort.  What follows only mutates the sorted copy. *)
Lemma prologue_ok argsort h0 x (rest : loc -> M loc) :
  x ∈ dom h0 ->
  (forall l, stable_ret h0 l (rest l)) ->
  ok h0 (fst ((l <-- copy x ;; l <-- sort_by_trade_date argsort l ;; rest l) h0))
        (snd ((l <-- copy x ;; l <-- sort_by_trade_date argsort l ;; rest l) h0)).
Proof.
  intros Hx Hrest.
  pose proof (copy_ok h0 x Hx) as Hc.
  unfold bind at 1 2 3 4. destruct (copy x h0) as [l1 h1]. simpl in Hc.
  pose proof (sort_ok argsort h0 l1 h1 Hc) as Hs.
  destruct (sort_by_trade_date argsort l1 h1) as [l2 h2]. simpl in Hs.
  exact (Hrest l2 h2 Hs).
Qed.

Lemma guard_top (g : frame -> bool) (k : M loc) h0 x :
  (df <-- read x ;; if g df then ret x else k) h0 =
  if g (default (mk_frame [] []) (h0 !! x)) then (x, h0) else k h0.
Proof. unfold bind, read. simpl. destruct (g _); reflexivity. Qed.

Lemma finish_ok h0 (m : M loc) :
  ok h0 (fst (m h0)) (snd (m h0)) ->
  let '(l', h') := m h0 in (forall y, y ∈ dom h0 -> h' !! y = h0 !! y) /\ l' ∉ dom h0.
Proof.
  intros [Hk Hl]. destruct (m h0) as [l' h']. simpl in *.
  split; [exact Hk|exact Hl].
Qed.

Ltac indicator_frame_tac Hx :=
  rewrite guard_top; unfold guarded; simpl required_cols;
  cbn [forallb]; try rewrite andb_true_r;
  match goal with
  | |- context [if ?g then (?x, ?h0) else _] =>
      destruct g eqn:G;
      [ split; [intros ? ?; reflexivity|reflexivity]
      | apply finish_ok;
        apply prologue_ok; [exact Hx|]; intros ?; stable_tac ]
  end.

(** ** C10, as the code has it: no indicator function changes any object
    that existed before the call, the input DataFrame included.  When the
    early-return test fires, the input object itself is returned; otherwise
    the result is an object created during the call. *)
Theorem indicator_input_unchanged (sqrtQ : Q -> Q) (argsort : list cell -> list nat)
    (i : indicator) (h0 : heap) (x : loc) :
  x ∈ dom h0 ->
  let '(l', h') := run_indicator sqrtQ argsort i x h0 in
  (forall y, y ∈ dom h0 -> h' !! y = h0 !! y) /\
  (if guarded i (default (mk_frame [] []) (h0 !! x)) then l' = x else l' ∉ dom h0).
Proof.
  intros Hx.
  destruct i; simpl run_indicator;
    [ unfold calculate_ma | unfold calculate_rsi | unfold calculate_kdj
    | unfold calculate_bollinger_bands | unfold calculate_macd ];
    indicator_frame_tac Hx.
Qed.

Lemma indicator_input_unchanged_witness :
  (0%nat ∈ dom ({[0%nat := sample]} : heap)) /\
  let '(l', h') := run_indicator sqrt_zero argsort_ins (IMa None) 0%nat {[0%nat := sample]} in
  (forall y, y ∈ dom ({[0%nat := sample]} : heap) -> h' !! y = ({[0%nat := sample]} : heap) !! y) /\
  (if guarded (IMa None) (default (mk_frame [] []) (({[0%nat := sample]} : heap) !! 0%nat))
   then l' = 0%nat else l' ∉ dom ({[0%nat := sample]} : heap)).
Proof.
  assert (H : 0%nat ∈ dom ({[0%nat := sample]} : heap)).
  { rewrite dom_singleton_L. apply elem_of_singleton. reflexivity. }
  split; [exact H|].
  exact (indicator_input_unchanged sqrt_zero argsort_ins (IMa None) {[0%nat := sample]} 0%nat H).
Defined.

(** ** C10, as stated: every indicator function returns a new object.  On
    an empty DataFrame [calculate_ma] returns the very object it was
    given. *)
Lemma indicator_returns_input_when_empty :
  fst (calculate_ma argsort_ins None 0%nat {[0%nat := mk_frame [] []]}) = 0%nat.
Proof. reflexivity. Qed.

End IndicatorHeap.

(** *** Column algebra of frames
    A frame is well formed when its labels are distinct and every row has
    one cell per label, as in a DataFrame. *)
Module Frames.
Import Indicators.

Definition wf (df : frame) : Prop :=
  List.NoDup (columns df) /\ Forall (fun r => length r = length (columns df)) (rows df).

(** The column a write of [vals] leaves behind, on [n] rows. *)
Definition pad (n : nat) (vals : list num) : list cell :=
  map (fun k => CNum (nth k vals NaN)) (seq 0 n).

(** A sequence of column assignments [df[c] = vals]. *)
Definition exec (ws : list (string * list num)) (df : frame) : frame :=
  fold_left (fun d w => set_col (fst w) (snd w) d) ws df.

Fixpoint last_write (c : string) (ws : list (string * list num)) : option (list num) :=
  match ws with
  | [] => None
  | w :: rest =>
      match last_write c rest with
      | Some v => Some v
      | None => if String.eqb c (fst w) then Some (snd w) else None
      end
  end.

Lemma map_seq_nth {A B} (f : A -> B) (l : list A) (d : A) :
  map (fun k => f (nth k l d)) (seq 0 (length l)) = map f l.
Proof.
  induction l as [|a l IH]; [reflexivity|].
  simpl. f_equal. rewrite <- seq_shift, map_map. exact IH.
Qed.

Lemma nth_map_in {A B} (f : A -> B) l k d d' :
  (k < length l)%nat -> nth k (map f l) d = f (nth k l d').
Proof.
  intros Hk. rewrite (nth_indep _ d (f d')) by (rewrite length_map; exact Hk). apply map_nth.
Qed.

Lemma length_replace_at {A} i (x : A) l : length (replace_at i x l) = length l.
Proof.
  revert i; induction l as [|a l IH]; intros [|i]; simpl; auto.
Qed.

Lemma nth_replace_at_eq {A} i (x d : A) l : (i < length l)%nat -> nth i (replace_at i x l) d = x.
Proof.
  revert i; induction l as [|a l IH]; intros [|i] Hi; simpl in *; try lia; try reflexivity.
  apply IH. lia.
Qed.

Lemma nth_replace_at_ne {A} i j (x d : A) l : i <> j -> nth j (replace_at i x l) d = nth j l d.
Proof.
  revert i j; induction l as [|a l IH]; intros [|i] [|j] Hij; simpl; try reflexivity; try congruence.
  apply IH. congruence.
Qed.

Lemma index_of_None c cs : index_of c cs = None <-> ~ In c cs.
Proof.
  induction cs as [|c' cs IH]; simpl; [tauto|].
  destruct (String.eqb_spec c c') as [->|Hne].
  - split; [discriminate|]. intros H. exfalso. apply H. left. reflexivity.
  - destruct (index_of c cs); simpl.
    + split; [discriminate|]. intros H. exfalso. apply H. right.
      destruct (In_dec String.string_dec c cs) as [Hin|Hin]; [exact Hin|].
      apply IH in Hin. discriminate.
    + split; [|reflexivity]. intros _ [H|H]; [congruence|].
      apply (proj1 IH eq_refl). exact H.
Qed.

Lemma index_of_Some c cs i : index_of c cs = Some i -> (i < length cs)%nat /\ nth i cs ""%string = c.
Proof.
  revert i; induction cs as [|c' cs IH]; intros i; simpl; [discriminate|].
  destruct (String.eqb_spec c c') as [->|Hne].
  - intros H. injection H as <-. split; [lia|reflexivity].
  - destruct (index_of c cs) as [j|]; simpl; [|discriminate].
    intros H. injection H as <-. destruct (IH j eq_refl). split; [lia|assumption].
Qed.

Lemma index_of_nth cs i : List.NoDup cs -> (i < length cs)%nat -> index_of (nth i cs ""%string) cs = Some i.
Proof.
  revert i; induction cs as [|c cs IH]; intros i Hnd Hi; simpl in *; [lia|].
  inversion Hnd as [|? ? Hnin Hnd']; subst.
  destruct i as [|i].
  - rewrite String.eqb_refl. reflexivity.
  - destruct (String.eqb_spec (nth i cs ""%string) c) as [Heq|Hne].
    + exfalso. apply Hnin. rewrite <- Heq. apply nth_In. lia.
    + rewrite (IH i Hnd' ltac:(lia)). reflexivity.
Qed.

Lemma index_of_app c cs ds i : index_of c cs = Some i -> index_of c (cs ++ ds) = Some i.
Proof.
  revert i; induction cs as [|c' cs IH]; intros i; simpl; [discriminate|].
  destruct (String.eqb c c'); [tauto|].
  destruct (index_of c cs) as [j|]; simpl; [|discriminate].
  intros H. rewrite (IH j eq_refl). exact H.
Qed.

Lemma index_of_app_new c cs : index_of c cs = None -> index_of c (cs ++ [c]) = Some (length cs).
Proof.
  induction cs as [|c' cs IH]; simpl.
  - rewrite String.eqb_refl. reflexivity.
  - destruct (String.eqb c c'); [discriminate|].
    destruct (index_of c cs); simpl; [discriminate|].
    intros _. rewrite IH; reflexivity.
Qed.

Lemma has_col_In c df : has_col c df = true <-> In c (columns df).
Proof.
  unfold has_col. rewrite existsb_exists. split.
  - intros [x [Hx Heq]]. apply String.eqb_eq in Heq. subst. exact Hx.
  - intros H. exists c. split; [exact H|apply String.eqb_refl].
Qed.

Lemma has_col_index c df : has_col c df = false <-> index_of c (columns df) = None.
Proof.
  rewrite index_of_None, <- has_col_In. destruct (has_col c df); split; congruence.
Qed.

Lemma length_get_col c df : has_col c df = true -> length (get_col c df) = length (rows df).
Proof.
  intros H. unfold get_col. destruct (index_of c (columns df)) eqn:E.
  - apply length_map.
  - apply has_col_index in E. congruence.
Qed.

Lemma length_num_col c df : has_col c df = true -> length (num_col c df) = length (rows df).
Proof. intros H. unfold num_col. rewrite length_map. apply length_get_col, H. Qed.

Lemma rows_set_col c v df : length (rows (set_col c v df)) = length (rows df).
Proof.
  unfold set_col. destruct (index_of c (columns df)); simpl; rewrite length_map, length_seq; reflexivity.
Qed.

Lemma columns_set_col c v df :
  columns (set_col c v df) = if has_col c df then columns df else columns df ++ [c].
Proof.
  unfold set_col. destruct (has_col c df) eqn:E.
  - destruct (index_of c (columns df)) eqn:E'; [reflexivity|].
    apply has_col_index in E'. congruence.
  - apply has_col_index in E. rewrite E. reflexivity.
Qed.

Lemma has_col_set_col c' c v df : has_col c' (set_col c v df) = String.eqb c' c || has_col c' df.
Proof.
  unfold has_col at 1. rewrite columns_set_col.
  destruct (has_col c df) eqn:E.
  - destruct (String.eqb_spec c' c) as [->|]; [exact E|reflexivity].
  - rewrite existsb_app. simpl. rewrite orb_false_r. fold (has_col c' df).
    apply orb_comm.
Qed.

Lemma wf_row df k : wf df -> length (nth k (rows df) []) = length (columns df) \/ (length (rows df) <= k)%nat.
Proof.
  intros [_ Hf]. destruct (Nat.lt_ge_cases k (length (rows df))) as [Hk|Hk]; [left|right; exact Hk].
  rewrite List.Forall_forall in Hf. apply Hf, nth_In, Hk.
Qed.

Lemma wf_set_col c v df : wf df -> wf (set_col c v df).
Proof.
  intros Hw. pose proof Hw as [Hnd Hf]. unfold set_col.
  destruct (index_of c (columns df)) eqn:E; split; simpl.
  - exact Hnd.
  - apply List.Forall_forall. intros r Hr. apply in_map_iff in Hr as [k [<- Hk]].
    apply in_seq in Hk. rewrite length_replace_at.
    destruct (wf_row df k Hw); [assumption|lia].
  - apply (Permutation_NoDup (Permutation_cons_append (columns df) c)).
    constructor; [apply index_of_None, E|exact Hnd].
  - apply List.Forall_forall. intros r Hr. apply in_map_iff in Hr as [k [<- Hk]].
    apply in_seq in Hk. rewrite !length_app. simpl.
    destruct (wf_row df k Hw); [lia|lia].
Qed.

Lemma get_col_set_col_same c v df :
  wf df -> get_col c (set_col c v df) = pad (length (rows df)) v.
Proof.
  intros Hw. unfold get_col, pad. rewrite columns_set_col.
  destruct (has_col c df) eqn:Hc.
  - unfold set_col. destruct (index_of c (columns df)) as [i|] eqn:E;
      [|apply has_col_index in E; congruence].
    simpl. rewrite map_map. apply map_ext_in. intros k Hk. apply in_seq in Hk.
    apply index_of_Some in E as [Hi _].
    apply nth_replace_at_eq. destruct (wf_row df k Hw); lia.
  - pose proof Hc as E. apply has_col_index in E.
    rewrite (index_of_app_new _ _ E).
    unfold set_col. rewrite E. simpl. rewrite map_map. apply map_ext_in.
    intros k Hk. apply in_seq in Hk.
    destruct (wf_row df k Hw) as [Hl|]; [|lia].
    rewrite app_nth2 by lia. rewrite Hl, Nat.sub_diag. reflexivity.
Qed.

Lemma get_col_set_col_other c' c v df :
  wf df -> c' <> c -> get_col c' (set_col c v df) = get_col c' df.
Proof.
  intros Hw Hne. unfold get_col. rewrite columns_set_col.
  destruct (index_of c' (columns df)) as [j|] eqn:Ej.
  - assert (Hj := Ej). apply index_of_Some in Hj as [Hj Hnj].
    destruct (has_col c df) eqn:Hc.
    + rewrite Ej. unfold set_col.
      destruct (index_of c (columns df)) as [i|] eqn:E; [|apply has_col_index in E; congruence].
      simpl. rewrite map_map.
      rewrite <- (map_seq_nth (fun r => nth j r (CNum NaN)) (rows df) []).
      apply map_ext. intros k. apply nth_replace_at_ne.
      intros <-. apply index_of_Some in E as [_ Hni]. congruence.
    + rewrite (index_of_app _ _ _ _ Ej). unfold set_col.
      apply has_col_index in Hc. rewrite Hc. simpl. rewrite map_map.
      rewrite <- (map_seq_nth (fun r => nth j r (CNum NaN)) (rows df) []).
      apply map_ext_in. intros k Hk. apply in_seq in Hk.
      destruct (wf_row df k Hw) as [Hl|]; [|lia].
      apply app_nth1. lia.
  - destruct (has_col c df).
    + rewrite Ej. reflexivity.
    + destruct (index_of c' (columns df ++ [c])) as [j|] eqn:E'; [|reflexivity].
      exfalso. apply index_of_Some in E' as [Hj Hn].
      apply index_of_None in Ej. rewrite length_app in Hj. simpl in Hj.
      destruct (Nat.lt_ge_cases j (length (columns df))) as [Hl|Hl].
      * rewrite app_nth1 in Hn by exact Hl. apply Ej. rewrite <- Hn. apply nth_In, Hl.
      * rewrite app_nth2 in Hn by exact Hl. replace (j - length (columns df))%nat with 0%nat in Hn by lia.
        simpl in Hn. congruence.
Qed.

Lemma num_col_set_col_other c' c v df :
  wf df -> c' <> c -> num_col c' (set_col c v df) = num_col c' df.
Proof. intros Hw Hne. unfold num_col. rewrite get_col_set_col_other; auto. Qed.

Lemma map_cell_num_pad v : map cell_num (pad (length v) v) = v.
Proof.
  unfold pad. rewrite map_map. simpl.
  rewrite (map_seq_nth (fun x => x) v NaN). apply map_id.
Qed.

Lemma num_col_set_col_same c v df :
  wf df -> length v = length (rows df) -> num_col c (set_col c v df) = v.
Proof.
  intros Hw Hl. unfold num_col. rewrite get_col_set_col_same by exact Hw.
  rewrite <- Hl. apply map_cell_num_pad.
Qed.

(** Two well-formed frames with the same labels, the same number of rows
    and the same column under every label are the same frame. *)
Lemma frame_ext u v :
  wf u -> wf v -> columns u = columns v -> length (rows u) = length (rows v) ->
  (forall c, In c (columns u) -> get_col c u = get_col c v) -> u = v.
Proof.
  intros Hu Hv Hc Hn Hg. destruct u as [cu ru], v as [cv rv]. simpl in *. subst cv.
  f_equal. apply (nth_ext _ _ [] []); [exact Hn|]. intros k Hk.
  pose proof (wf_row (mk_frame cu ru) k Hu) as Hru. pose proof (wf_row (mk_frame cu rv) k Hv) as Hrv.
  simpl in Hru, Hrv. destruct Hru as [Hru|]; [|lia]. destruct Hrv as [Hrv|]; [|lia].
  apply (nth_ext _ _ (CNum NaN) (CNum NaN)); [congruence|]. intros i Hi.
  assert (Hin : In (nth i cu ""%string) cu) by (apply nth_In; lia).
  specialize (Hg _ Hin). unfold get_col in Hg. simpl in Hg.
  rewrite (index_of_nth cu i (proj1 Hu) ltac:(lia)) in Hg.
  apply (f_equal (fun l => nth k l (CNum NaN))) in Hg.
  rewrite (nth_map_in _ ru k _ [] Hk) in Hg.
  rewrite (nth_map_in _ rv k _ [] ltac:(lia)) in Hg. exact Hg.
Qed.

Lemma exec_cons w ws df : exec (w :: ws) df = exec ws (set_col (fst w) (snd w) df).
Proof. reflexivity. Qed.

Lemma exec_app ws1 ws2 df : exec (ws1 ++ ws2) df = exec ws2 (exec ws1 df).
Proof. unfold exec. apply fold_left_app. Qed.

Lemma wf_exec ws df : wf df -> wf (exec ws df).
Proof.
  revert df; induction ws as [|w ws IH]; intros df Hw; [exact Hw|].
  rewrite exec_cons. apply IH, wf_set_col, Hw.
Qed.

Lemma rows_exec ws df : length (rows (exec ws df)) = length (rows df).
Proof.
  revert df; induction ws as [|w ws IH]; intros df; [reflexivity|].
  rewrite exec_cons, IH. apply rows_set_col.
Qed.

Lemma get_col_exec ws df c :
  wf df ->
  get_col c (exec ws df) =
  match last_write c ws with Some v => pad (length (rows df)) v | None => get_col c df end.
Proof.
  revert df; induction ws as [|w ws IH]; intros df Hw; [reflexivity|].
  rewrite exec_cons, (IH _ (wf_set_col _ _ _ Hw)), rows_set_col. simpl.
  destruct (last_write c ws); [reflexivity|].
  destruct (String.eqb_spec c (fst w)) as [->|Hne].
  - apply get_col_set_col_same, Hw.
  - apply get_col_set_col_other; assumption.
Qed.

Lemma has_col_exec ws df c :
  has_col c (exec ws df) = has_col c df || existsb (fun w => String.eqb c (fst w)) ws.
Proof.
  revert df; induction ws as [|w ws IH]; intros df.
  - simpl. rewrite orb_false_r. reflexivity.
  - rewrite exec_cons, IH, has_col_set_col. simpl existsb.
    destruct (String.eqb c (fst w)), (has_col c df); reflexivity.
Qed.

Lemma columns_exec_kept ws df :
  (forall w, In w ws -> has_col (fst w) df = true) -> columns (exec ws df) = columns df.
Proof.
  revert df; induction ws as [|w ws IH]; intros df Hh; [reflexivity|].
  rewrite exec_cons, IH.
  - rewrite columns_set_col, (Hh w (or_introl eq_refl)). reflexivity.
  - intros w' Hw'. rewrite has_col_set_col, (Hh w' (or_intror Hw')). apply orb_true_r.
Qed.

(** Replaying the same assignments on their own result changes nothing. *)
Lemma exec_idem ws df : wf df -> exec ws (exec ws df) = exec ws df.
Proof.
  intros Hw. pose proof (wf_exec ws df Hw) as Hw1.
  apply frame_ext.
  - apply wf_exec, Hw1.
  - exact Hw1.
  - apply columns_exec_kept. intros w Hin. rewrite has_col_exec.
    apply orb_true_iff. right. apply existsb_exists. exists w. split; [exact Hin|apply String.eqb_refl].
  - apply rows_exec.
  - intros c _. rewrite (get_col_exec ws (exec ws df) c Hw1), rows_exec, (get_col_exec ws df c Hw).
    destruct (last_write c ws); reflexivity.
Qed.

Lemma last_write_none c ws : (forall w, In w ws -> fst w <> c) -> last_write c ws = None.
Proof.
  induction ws as [|w ws IH]; intros H; [reflexivity|]. simpl.
  rewrite IH by (intros w' Hw'; apply H; right; exact Hw').
  destruct (String.eqb_spec c (fst w)) as [Heq|]; [|reflexivity].
  exfalso. apply (H w (or_introl eq_refl)). symmetry. exact Heq.
Qed.

Lemma get_col_exec_other ws df c :
  wf df -> (forall w, In w ws -> fst w <> c) -> get_col c (exec ws df) = get_col c df.
Proof. intros Hw H. rewrite get_col_exec, last_write_none; auto. Qed.

Lemma has_col_exec_other ws df c :
  (forall w, In w ws -> fst w <> c) -> has_col c (exec ws df) = has_col c df.
Proof.
  intros H. rewrite has_col_exec.
  replace (existsb _ ws) with false; [apply orb_false_r|].
  symmetry. apply Bool.not_true_iff_false. intros Hex. apply existsb_exists in Hex as [w [Hin He]].
  apply String.eqb_eq in He. exact (H w Hin (eq_sym He)).
Qed.

(** *** Reordering rows *)
Lemma rows_take_rows idx df : length (rows (take_rows idx df)) = length idx.
Proof. apply length_map. Qed.

Lemma get_col_take_rows c idx df :
  has_col c df = true ->
  get_col c (take_rows idx df) = map (fun j => nth j (get_col c df) (CNum NaN)) idx.
Proof.
  intros Hc. unfold get_col, take_rows. simpl.
  destruct (index_of c (columns df)) as [i|] eqn:E; [|apply has_col_index in E; congruence].
  rewrite map_map. apply map_ext. intros j.
  destruct (Nat.lt_ge_cases j (length (rows df))) as [Hj|Hj].
  - rewrite (nth_map_in _ _ _ _ [] Hj). reflexivity.
  - rewrite (nth_overflow (map _ _)) by (rewrite length_map; exact Hj).
    rewrite (nth_overflow (rows df)) by exact Hj. destruct i; reflexivity.
Qed.

Lemma wf_take_rows idx df :
  wf df -> (forall j, In j idx -> (j < length (rows df))%nat) -> wf (take_rows idx df).
Proof.
  intros Hw Hidx. split; [exact (proj1 Hw)|]. simpl.
  apply List.Forall_forall. intros r Hr. apply in_map_iff in Hr as [j [<- Hj]].
  destruct (wf_row df j Hw) as [Hl|Hl]; [exact Hl|]. specialize (Hidx j Hj). lia.
Qed.

Lemma take_rows_seq df : take_rows (seq 0 (length (rows df))) df = df.
Proof.
  destruct df as [cs rs]. unfold take_rows. simpl. f_equal.
  rewrite (map_seq_nth (fun r => r) rs []). apply map_id.
Qed.

(** [df.sort_values('trade_date').reset_index(drop=True)] when the column
    exists, as the prologue of every indicator function does it. *)
Definition sort_frame (argsort : list cell -> list nat) (df : frame) : frame :=
  if has_col "trade_date" df then take_rows (argsort (get_col "trade_date" df)) df else df.

(** What the sort of [sort_values] guarantees: a permutation of the
    positions that lists the keys in ascending order, NaN last, when the
    keys can be sorted (no stability). *)
Definition argsort_spec (argsort : list cell -> list nat) : Prop :=
  forall ks, Permutation (argsort ks) (seq 0 (length ks)) /\
             (sortable ks ->
              Sorted (fun a b => cell_leb a b = true) (map (fun j => nth j ks (CNum NaN)) (argsort ks))).

Lemma perm_seq_bound (idx : list nat) n j : Permutation idx (seq 0 n) -> In j idx -> (j < n)%nat.
Proof.
  intros P Hj. apply (Permutation_in _ P), in_seq in Hj. lia.
Qed.

Lemma sort_frame_shape argsort df :
  argsort_spec argsort -> wf df ->
  wf (sort_frame argsort df) /\ length (rows (sort_frame argsort df)) = length (rows df) /\
  columns (sort_frame argsort df) = columns df.
Proof.
  intros Hs Hw. unfold sort_frame.
  destruct (has_col "trade_date" df) eqn:Htd; [|auto].
  destruct (Hs (get_col "trade_date" df)) as [P _].
  rewrite (length_get_col _ _ Htd) in P.
  split; [|split; [|reflexivity]].
  - apply wf_take_rows; [exact Hw|]. intros j Hj. exact (perm_seq_bound _ _ _ P Hj).
  - rewrite rows_take_rows, (Permutation_length P). apply length_seq.
Qed.

(** *** The insertion-sort [argsort] of the examples meets that contract *)
Lemma num_ltb_asym x y : num_ltb x y = true -> num_ltb y x = false.
Proof.
  destruct x as [a| | |], y as [b| | |]; simpl; try discriminate; try reflexivity.
  intros H. apply negb_true_iff in H. apply negb_false_iff.
  apply Qle_bool_iff. apply Qlt_le_weak, Qnot_le_lt. intros Hle.
  apply Qle_bool_iff in Hle. congruence.
Qed.

Lemma cell_leb_total a b : cell_leb a b = false -> cell_leb b a = true.
Proof.
  destruct a as [[x| | |]|x], b as [[y| | |]|y]; cbn [cell_leb]; try discriminate; try reflexivity;
    try (intros H; apply negb_false_iff in H; apply negb_true_iff; apply num_ltb_asym, H).
  intros H. destruct (String.leb_total x y); congruence.
Qed.

Lemma insert_by_perm k i l : Permutation (insert_by k i l) ((i, k) :: l).
Proof.
  induction l as [|[j k'] rest IH]; simpl; [reflexivity|].
  destruct (cell_leb k k'); [reflexivity|].
  eapply perm_trans; [apply perm_skip, IH|apply perm_swap].
Qed.

Lemma insert_by_sorted k i l :
  Sorted (fun a b => cell_leb a b = true) (map snd l) ->
  Sorted (fun a b => cell_leb a b = true) (map snd (insert_by k i l)).
Proof.
  induction l as [|[j k'] rest IH]; intros S; simpl; [repeat constructor|].
  destruct (cell_leb k k') eqn:E.
  - simpl. constructor; [exact S|constructor; exact E].
  - simpl in S |- *. inversion S as [|? ? S' H']; subst. constructor; [apply IH, S'|].
    destruct rest as [|[j2 k2] rest']; simpl.
    + constructor. apply cell_leb_total, E.
    + destruct (cell_leb k k2); simpl; constructor; [apply cell_leb_total, E|].
      inversion H'. assumption.
Qed.

Lemma argsort_ins_spec : argsort_spec argsort_ins.
Proof.
  intros ks. unfold argsort_ins.
  set (g := fun i => (i, nth i ks (CNum NaN))).
  assert (P : forall l, Permutation (fold_right (fun i acc => insert_by (nth i ks (CNum NaN)) i acc) [] l) (map g l)).
  { induction l as [|i l IH]; simpl; [reflexivity|].
    eapply perm_trans; [apply insert_by_perm|apply perm_skip, IH]. }
  assert (S : forall l, Sorted (fun a b => cell_leb a b = true)
                 (map snd (fold_right (fun i acc => insert_by (nth i ks (CNum NaN)) i acc) [] l))).
  { induction l as [|i l IH]; simpl; [constructor|]. apply insert_by_sorted, IH. }
  set (acc := fold_right _ [] (seq 0 (length ks))).
  split.
  - apply (Permutation_trans (l' := map fst (map g (seq 0 (length ks))))).
    + apply Permutation_map, P.
    + rewrite map_map. unfold g. simpl. rewrite map_id. reflexivity.
  - intros _. replace (map (fun j => nth j ks (CNum NaN)) (map fst acc)) with (map snd acc); [apply S|].
    rewrite map_map. apply map_ext_in. intros [i k] Hin.
    apply (Permutation_in _ (P _)) in Hin. apply in_map_iff in Hin as [j [Hj _]].
    unfold g in Hj. injection Hj as <- <-. reflexivity.
Qed.

(** NaN keys go last: [['20240102', nan, '20240101']] sorts to
    [['20240101', '20240102', nan]]. *)
Lemma argsort_ins_nan_last :
  let ks := [CStr "20240102"; CNum NaN; CStr "20240101"] in
  map (fun j => nth j ks (CNum NaN)) (argsort_ins ks) = [CStr "20240101"; CStr "20240102"; CNum NaN].
Proof. vm_compute. reflexivity. Qed.

(** *** Order on the string keys *)
Lemma str_compare_le_trans a b c :
  (a ?= b)%string <> Gt -> (b ?= c)%string <> Gt -> (a ?= c)%string <> Gt.
Proof.
  revert b c; induction a as [|x a IH]; intros [|y b] [|z c]; simpl; try discriminate; try congruence.
  unfold Ascii.compare.
  destruct (N.compare_spec (Ascii.N_of_ascii x) (Ascii.N_of_ascii y));
  destruct (N.compare_spec (Ascii.N_of_ascii y) (Ascii.N_of_ascii z));
  destruct (N.compare_spec (Ascii.N_of_ascii x) (Ascii.N_of_ascii z));
  try lia; try congruence; try discriminate.
  apply IH.
Qed.

Lemma str_leb_trans a b c : String.leb a b = true -> String.leb b c = true -> String.leb a c = true.
Proof.
  pose proof (str_compare_le_trans a b c) as H. unfold String.leb.
  destruct (a ?= b)%string, (b ?= c)%string, (a ?= c)%string; try discriminate; try reflexivity;
  intros; exfalso; apply H; try discriminate; reflexivity.
Qed.

Lemma sorted_perm_eq {A} (R : A -> A -> Prop)
    (Htr : forall x y z, R x y -> R y z -> R x z) (Han : forall x y, R x y -> R y x -> x = y)
    (l1 l2 : list A) :
  Sorted R l1 -> Sorted R l2 -> Permutation l1 l2 -> l1 = l2.
Proof.
  intros S1 S2 P. apply (Sorted_StronglySorted Htr) in S1, S2.
  revert l2 S2 P; induction S1 as [|a l1 S1 IH F1]; intros l2 S2 P.
  - symmetry. apply Permutation_nil, P.
  - destruct l2 as [|b l2]; [apply Permutation_sym, Permutation_nil in P; discriminate|].
    inversion S2 as [|? ? S2' F2]; subst.
    assert (a = b) as <-.
    { assert (Ha : In a (b :: l2)) by (apply (Permutation_in _ P); left; reflexivity).
      assert (Hb : In b (a :: l1)) by (apply (Permutation_in _ (Permutation_sym P)); left; reflexivity).
      destruct Ha as [<-|Ha]; [reflexivity|]. destruct Hb as [->|Hb]; [reflexivity|].
      rewrite List.Forall_forall in F1, F2. apply Han; [apply F1, Hb|apply F2, Ha]. }
    f_equal. apply IH; [exact S2'|]. exact (Permutation_cons_inv P).
Qed.

Lemma map_inj_on {A B} (f : A -> B) (P : A -> Prop) l1 l2 :
  (forall x y, P x -> P y -> f x = f y -> x = y) ->
  Forall P l1 -> Forall P l2 -> map f l1 = map f l2 -> l1 = l2.
Proof.
  intros Hi; revert l2; induction l1 as [|a l1 IH]; intros [|b l2] H1 H2 He; simpl in He; try discriminate.
  - reflexivity.
  - inversion H1; inversion H2; injection He as Hab Hl. subst. f_equal; [apply Hi; assumption|].
    apply IH; assumption.
Qed.

Lemma sortable_CStr (l : list string) : sortable (map CStr l).
Proof. left. apply List.Forall_forall. intros x Hx. apply in_map_iff in Hx as [? [<- _]]. exact I. Qed.

Lemma Sorted_map_CStr (l : list string) :
  Sorted (fun a b => cell_leb a b = true) (map CStr l) -> Sorted (fun x y => String.leb x y = true) l.
Proof.
  induction l as [|a l IH]; intros S; [constructor|].
  inversion S as [|? ? S' H']; subst. constructor; [apply IH, S'|].
  destruct l as [|b l]; constructor. inversion H'. assumption.
Qed.

(** The keys of a series: a [trade_date] column of distinct strings
    (one row per timestamp), or no [trade_date] column at all. *)
Definition distinct_keys (df : frame) : Prop :=
  has_col "trade_date" df = true -> exists ks, get_col "trade_date" df = map CStr ks /\ List.NoDup ks.

(** A frame in which sorting by [trade_date] keeps every row in place. *)
Definition settled (argsort : list cell -> list nat) (x : frame) : Prop :=
  has_col "trade_date" x = true -> argsort (get_col "trade_date" x) = seq 0 (length (rows x)).

Lemma sort_settled argsort x : settled argsort x -> sort_frame argsort x = x.
Proof.
  intros Hs. unfold sort_frame. destruct (has_col "trade_date" x) eqn:E; [|reflexivity].
  rewrite (Hs E). apply take_rows_seq.
Qed.

Lemma settled_exec argsort x ws :
  wf x -> settled argsort x -> (forall w, In w ws -> fst w <> "trade_date"%string) ->
  settled argsort (exec ws x).
Proof.
  intros Hw Hs Hn Hh. rewrite has_col_exec_other in Hh by exact Hn.
  rewrite get_col_exec_other, rows_exec by assumption. exact (Hs Hh).
Qed.

(** Sorting a series whose timestamps are distinct leaves a frame that a
    second sort keeps in place. *)
Lemma sort_frame_settled argsort df :
  argsort_spec argsort -> wf df -> distinct_keys df -> settled argsort (sort_frame argsort df).
Proof.
  intros Hspec Hw Hdk. unfold settled, sort_frame.
  destruct (has_col "trade_date" df) eqn:Htd; [|rewrite Htd; discriminate].
  intros _. destruct (Hdk Htd) as [ks [Hk Hnd]].
  pose proof (length_get_col _ _ Htd) as Hlen. rewrite Hk, length_map in Hlen.
  destruct (Hspec (get_col "trade_date" df)) as [Pp _].
  assert (Hn : length (get_col "trade_date" df) = length ks) by (rewrite Hk; apply length_map).
  rewrite Hn in Pp.
  set (p := argsort (get_col "trade_date" df)) in *.
  set (ks' := map (fun j => nth j ks ""%string) p).
  assert (Hkeys : get_col "trade_date" (take_rows p df) = map CStr ks').
  { rewrite get_col_take_rows by exact Htd. rewrite Hk. unfold ks'. rewrite map_map.
    apply map_ext_in. intros j Hj. apply nth_map_in. exact (perm_seq_bound _ _ _ Pp Hj). }
  assert (Hperm : Permutation ks' ks).
  { unfold ks'. apply (Permutation_trans (l' := map (fun j => nth j ks ""%string) (seq 0 (length ks)))).
    - apply Permutation_map, Pp.
    - rewrite (map_seq_nth (fun x => x) ks ""%string), map_id. reflexivity. }
  assert (Hnd' : List.NoDup ks') by exact (Permutation_NoDup (Permutation_sym Hperm) Hnd).
  assert (Hlen' : length ks' = length (rows (take_rows p df))).
  { rewrite rows_take_rows. unfold ks'. apply length_map. }
  rewrite Hkeys, <- Hlen'.
  destruct (Hspec (map CStr ks')) as [Ps Ss]. rewrite length_map in Ps.
  specialize (Ss (sortable_CStr ks')).
  set (q := argsort (map CStr ks')) in *.
  assert (Hq : map (fun j => nth j (map CStr ks') (CNum NaN)) q = map CStr (map (fun j => nth j ks' ""%string) q)).
  { rewrite map_map. apply map_ext_in. intros j Hj. apply nth_map_in. exact (perm_seq_bound _ _ _ Ps Hj). }
  rewrite Hq in Ss. apply Sorted_map_CStr in Ss.
  assert (Sk : Sorted (fun x y => String.leb x y = true) ks').
  { destruct (Hspec (get_col "trade_date" df)) as [_ S0]. assert (Hs0 : sortable (get_col "trade_date" df)) by (rewrite Hk; apply sortable_CStr).
    specialize (S0 Hs0). fold p in S0.
    rewrite <- (get_col_take_rows _ p df Htd), Hkeys in S0.
    apply Sorted_map_CStr in S0. exact S0. }
  assert (Heq : map (fun j => nth j ks' ""%string) q = map (fun j => nth j ks' ""%string) (seq 0 (length ks'))).
  { rewrite (map_seq_nth (fun x => x) ks' ""%string), map_id.
    apply (sorted_perm_eq _ (str_leb_trans) String.leb_antisym); [exact Ss|exact Sk|].
    apply (Permutation_trans (l' := map (fun j => nth j ks' ""%string) (seq 0 (length ks')))).
    - apply Permutation_map, Ps.
    - rewrite (map_seq_nth (fun x => x) ks' ""%string), map_id. reflexivity. }
  apply (map_inj_on _ (fun j => (j < length ks')%nat)) in Heq.
  - exact Heq.
  - intros x y Hx Hy Hxy. exact (proj1 (NoDup_nth ks' ""%string) Hnd' x y Hx Hy Hxy).
  - apply List.Forall_forall. intros j Hj. exact (perm_seq_bound _ _ _ Ps Hj).
  - apply List.Forall_forall. intros j Hj. apply in_seq in Hj. lia.
Qed.

End Frames.

(** *** The indicator functions as column assignments
    Past the early-return test, each function sorts a copy and then assigns
    its derived columns, each computed from the base columns of the sorted
    copy. *)
Module IndicatorAlgebra.
Import Indicators Frames.

(** The derived columns of one call, in the order the code assigns them,
    with the values the code computes on the sorted frame [d]. *)
Definition writes (sqrtQ : Q -> Q) (i : indicator) (d : frame) : list (string * list num) :=
  match i with
  | IMa ps =>
      let periods := default ma_periods ps in
      map (fun p => (col_name "ma" p, rolling mean_agg p (num_col "close" d))) periods ++
      (if has_col "vol" d
       then map (fun p => (col_name "vol_ma" p, rolling mean_agg p (num_col "vol" d))) ma_volume_periods
       else []) ++
      [("pct_change"%string, map (fun x => num_mul x (Fin 100)) (pct_change (num_col "close" d)))]
  | IRsi ps =>
      let periods := default rsi_periods ps in
      let delta := diff (num_col "close" d) in
      map (fun period =>
             let gain := where0 (fun x => num_ltb (Fin 0) x) delta in
             let loss := map num_neg (where0 (fun x => num_ltb x (Fin 0)) delta) in
             let avg_gain := rolling mean_agg period gain in
             let avg_loss := rolling mean_agg period loss in
             let rs := zip_with num_div avg_gain avg_loss in
             (col_name "rsi" period,
              map (fun r => num_sub (Fin 100) (num_div (Fin 100) (num_add (Fin 1) r))) rs))
          periods
  | IKdj p kp dp =>
      let period := default kdj_period p in
      let k_period := default kdj_k_period kp in
      let d_period := default kdj_d_period dp in
      let high_n := rolling max_agg period (num_col "high" d) in
      let low_n := rolling min_agg period (num_col "low" d) in
      let rsv := map (fun x => num_mul x (Fin 100))
                   (zip_with num_div (zip_with num_sub (num_col "close" d) low_n)
                                     (zip_with num_sub high_n low_n)) in
      let rsv := fillna (Fin 50) rsv in
      let k := ewm_mean (1 / inject_Z (Z.of_nat k_period)) rsv in
      let dd := ewm_mean (1 / inject_Z (Z.of_nat d_period)) k in
      let j := zip_with (fun a b => num_sub (num_mul (Fin 3) a) (num_mul (Fin 2) b)) k dd in
      [("k"%string, k); ("d"%string, dd); ("j"%string, j)]
  | IBoll p sd =>
      let period := default boll_period p in
      let std_dev := default boll_std_dev sd in
      let mid := rolling mean_agg period (num_col "close" d) in
      let std := rolling (std_agg sqrtQ) period (num_col "close" d) in
      [("boll_mid"%string, mid);
       ("boll_upper"%string, zip_with num_add mid (map (fun x => num_mul x (Fin std_dev)) std));
       ("boll_lower"%string, zip_with num_sub mid (map (fun x => num_mul x (Fin std_dev)) std))]
  | IMacd f s g =>
      let fast_period := default macd_fast_period f in
      let slow_period := default macd_slow_period s in
      let signal_period := default macd_signal_period g in
      let ema_fast := ewm_mean (span_alpha fast_period) (num_col "close" d) in
      let ema_slow := ewm_mean (span_alpha slow_period) (num_col "close" d) in
      let dif := zip_with num_sub ema_fast ema_slow in
      let dea := ewm_mean (span_alpha signal_period) dif in
      let macd := zip_with (fun a b => num_mul (num_sub a b) (Fin 2)) dif dea in
      [("macd_dif"%string, dif); ("macd_dea"%string, dea); ("macd_macd"%string, macd)]
  end.

(** The columns the indicator code reads, none of which it assigns. *)
Definition base_cols : list string := ["trade_date"; "close"; "high"; "low"; "vol"].

(** *** Running the monadic code on a heap whose object [l] is [d] *)
Lemma read_eq l h d : h !! l = Some d -> read l h = (d, h).
Proof. intros H. unfold read. rewrite H. reflexivity. Qed.

Lemma bind_read_ins {B} l (k : frame -> M B) h d :
  bind (read l) k (<[l := d]> h) = k d (<[l := d]> h).
Proof. unfold bind. rewrite (read_eq l _ d (lookup_insert_eq h l d)). reflexivity. Qed.

Lemma assign_ins l c v h d :
  assign l c v (<[l := d]> h) = (tt, <[l := set_col c v d]> h).
Proof.
  unfold assign. rewrite bind_read_ins. unfold write. rewrite insert_insert_eq. reflexivity.
Qed.

Lemma bind_assign_ins {B} l c v (k : unit -> M B) h d :
  bind (assign l c v) k (<[l := d]> h) = k tt (<[l := set_col c v d]> h).
Proof. unfold bind at 1. rewrite assign_ins. reflexivity. Qed.

Lemma bind_ret {A B} (a : A) (k : A -> M B) h : bind (ret a) k h = k a h.
Proof. reflexivity. Qed.

Lemma for_each_ins {A} l h (xs : list A) body (G : A -> frame -> frame) d :
  (forall x d', body x (<[l := d']> h) = (tt, <[l := G x d']> h)) ->
  for_each xs body (<[l := d]> h) = (tt, <[l := fold_left (fun d x => G x d) xs d]> h).
Proof.
  intros Hb. revert d; induction xs as [|x xs IH]; intros d; [reflexivity|].
  simpl. unfold bind at 1. rewrite Hb. apply IH.
Qed.

Lemma bind_for_each_ins {A B} l h (xs : list A) body (G : A -> frame -> frame) (k : unit -> M B) d :
  (forall x d', body x (<[l := d']> h) = (tt, <[l := G x d']> h)) ->
  bind (for_each xs body) k (<[l := d]> h) = k tt (<[l := fold_left (fun d x => G x d) xs d]> h).
Proof. intros Hb. unfold bind at 1. rewrite (for_each_ins l h xs body G d Hb). reflexivity. Qed.

Lemma copy_eq x h d : h !! x = Some d -> copy x h = (fresh (dom h), <[fresh (dom h) := d]> h).
Proof. intros H. unfold copy, bind. rewrite (read_eq x h d H). reflexivity. Qed.

Lemma columns_sort_frame argsort df : columns (sort_frame argsort df) = columns df.
Proof. unfold sort_frame. destruct (has_col "trade_date" df); reflexivity. Qed.

Lemma has_col_sort_frame argsort c df : has_col c (sort_frame argsort df) = has_col c df.
Proof. unfold has_col. rewrite columns_sort_frame. reflexivity. Qed.

Lemma sort_eq argsort l h d :
  h !! l = Some d ->
  exists l' h', sort_by_trade_date argsort l h = (l', h') /\ h' !! l' = Some (sort_frame argsort d).
Proof.
  intros H. unfold sort_by_trade_date, sort_frame. unfold bind at 1. rewrite (read_eq l h d H).
  destruct (has_col "trade_date" d).
  - unfold bind, alloc, read. simpl. rewrite !lookup_insert_eq. simpl.
    eexists; eexists; split; [reflexivity|]. apply lookup_insert_eq.
  - exists l, h. split; [reflexivity|exact H].
Qed.

(** Every indicator function: a test on the input, then a sorted copy on
    which the rest of the code works. *)
Lemma run_shape argsort (g : frame -> bool) (body : loc -> M loc) (F : frame -> frame)
    (f : loc -> M loc) df :
  (forall x, f x = (d0 <-- read x ;; if g d0 then ret x else
                     (l <-- copy x ;; l <-- sort_by_trade_date argsort l ;; body l))) ->
  (g df = false -> forall l h, body l (<[l := sort_frame argsort df]> h) =
                                 (l, <[l := F (sort_frame argsort df)]> h)) ->
  run f df = if g df then df else F (sort_frame argsort df).
Proof.
  intros Hf Hb. unfold run. rewrite Hf.
  unfold bind at 1. rewrite (read_eq 0%nat _ df (lookup_singleton_eq 0%nat df)).
  destruct (g df) eqn:G.
  - simpl. rewrite lookup_singleton_eq. reflexivity.
  - unfold bind at 1. rewrite (copy_eq 0%nat _ df (lookup_singleton_eq 0%nat df)).
    unfold bind at 1.
    match goal with
    | |- context [sort_by_trade_date argsort ?l ?h] =>
        destruct (sort_eq argsort l h df (lookup_insert_eq _ _ _)) as [l' [h' [E L]]]
    end.
    rewrite E. rewrite <- (insert_id h' l' _ L). rewrite (Hb eq_refl). simpl.
    rewrite lookup_insert_eq. reflexivity.
Qed.

Lemma fold_set_exec {A} (name : A -> string) (E : A -> list num -> list num) c0 xs d :
  wf d -> (forall x, In x xs -> name x <> c0) ->
  fold_left (fun d x => set_col (name x) (E x (num_col c0 d)) d) xs d =
  exec (map (fun x => (name x, E x (num_col c0 d))) xs) d.
Proof.
  revert d; induction xs as [|x xs IH]; intros d Hw Hn; [reflexivity|].
  simpl. rewrite IH.
  - rewrite num_col_set_col_other; [reflexivity|exact Hw|].
    intros Heq. apply (Hn x (or_introl eq_refl)). symmetry. exact Heq.
  - apply wf_set_col, Hw.
  - intros y Hy. apply Hn. right. exact Hy.
Qed.

Ltac neq_tac := unfold col_name; simpl; discriminate.

Lemma not_guarded_close i df :
  guarded i df = false -> has_col "close" df = true /\ rows df <> [].
Proof.
  unfold guarded, frame_empty. intros H.
  destruct (rows df) as [|r rs]; [discriminate|].
  destruct (columns df) as [|c cs] eqn:Ec; [discriminate|].
  apply orb_false_iff in H as [_ H]. apply negb_false_iff in H.
  split; [|discriminate].
  destruct i; simpl in H; repeat rewrite andb_true_iff in H; tauto.
Qed.

Lemma calculate_ma_exec sqrtQ argsort ps df :
  wf (sort_frame argsort df) ->
  run (calculate_ma argsort ps) df =
  if guarded (IMa ps) df then df
  else exec (writes sqrtQ (IMa ps) (sort_frame argsort df)) (sort_frame argsort df).
Proof.
  intros Hw. set (s := sort_frame argsort df) in *.
  transitivity (if frame_empty df || negb (has_col "close" df) then df
                else exec (writes sqrtQ (IMa ps) s) s).
  2: { unfold guarded. simpl. rewrite andb_true_r. reflexivity. }
  apply (run_shape argsort (fun d0 => frame_empty d0 || negb (has_col "close" d0)) _
           (fun d => exec (writes sqrtQ (IMa ps) d) d) _ df (fun x => eq_refl)).
  intros Hg l h. fold s. cbv beta.
  erewrite bind_for_each_ins by (intros x d'; rewrite bind_read_ins; apply assign_ins).
  rewrite bind_read_ins. cbv beta.
  assert (E1 : fold_left (fun d p => set_col (col_name "ma" p) (rolling mean_agg p (num_col "close" d)) d)
                 (default ma_periods ps) s =
               exec (map (fun p => (col_name "ma" p, rolling mean_agg p (num_col "close" s)))
                      (default ma_periods ps)) s).
  { apply (fold_set_exec (col_name "ma") (fun p xs => rolling mean_agg p xs)); [exact Hw|].
    intros; neq_tac. }
  rewrite E1.
  set (W1 := map (fun p => (col_name "ma" p, rolling mean_agg p (num_col "close" s))) (default ma_periods ps)).
  assert (N1 : forall c, In c base_cols -> forall w, In w W1 -> fst w <> c).
  { intros c Hc w Hw'. unfold W1 in Hw'. apply in_map_iff in Hw' as [p [<- _]].
    simpl in Hc |- *. intuition (subst; neq_tac). }
  assert (Hv : has_col "vol" (exec W1 s) = has_col "vol" s)
    by (apply has_col_exec_other, N1; simpl; tauto).
  assert (Hc : num_col "close" (exec W1 s) = num_col "close" s)
    by (unfold num_col; rewrite get_col_exec_other; [reflexivity|exact Hw|apply N1; simpl; tauto]).
  pose proof (wf_exec W1 s Hw) as Hw1.
  unfold writes. fold W1. rewrite !exec_app. rewrite Hv.
  destruct (has_col "vol" s) eqn:Evol.
  - erewrite bind_for_each_ins by (intros x d'; rewrite bind_read_ins; apply assign_ins).
    rewrite bind_read_ins, bind_assign_ins. cbv beta.
    assert (E2 : fold_left (fun d p => set_col (col_name "vol_ma" p) (rolling mean_agg p (num_col "vol" d)) d)
                   ma_volume_periods (exec W1 s) =
                 exec (map (fun p => (col_name "vol_ma" p, rolling mean_agg p (num_col "vol" (exec W1 s))))
                        ma_volume_periods) (exec W1 s)).
    { apply (fold_set_exec (col_name "vol_ma") (fun p xs => rolling mean_agg p xs)); [exact Hw1|].
      intros; neq_tac. }
    rewrite E2.
    assert (Hvol : num_col "vol" (exec W1 s) = num_col "vol" s)
      by (unfold num_col; rewrite get_col_exec_other; [reflexivity|exact Hw|apply N1; simpl; tauto]).
    rewrite Hvol.
    set (W2 := map (fun p => (col_name "vol_ma" p, rolling mean_agg p (num_col "vol" s))) ma_volume_periods).
    assert (Hc2 : num_col "close" (exec W2 (exec W1 s)) = num_col "close" s).
    { assert (N2 : forall w, In w W2 -> fst w <> "close"%string).
      { intros w Hw'. unfold W2 in Hw'. apply in_map_iff in Hw' as [p [<- _]]. neq_tac. }
      unfold num_col. rewrite (get_col_exec_other W2 _ _ Hw1 N2).
      rewrite (get_col_exec_other W1 _ _ Hw); [reflexivity|]. apply N1; simpl; tauto. }
    rewrite Hc2. reflexivity.
  - rewrite bind_ret, bind_read_ins, bind_assign_ins. rewrite Hc. reflexivity.
Qed.

Lemma fold_set_exec_const {A} (name : A -> string) (V : A -> list num) xs d :
  fold_left (fun d x => set_col (name x) (V x) d) xs d = exec (map (fun x => (name x, V x)) xs) d.
Proof. revert d; induction xs as [|x xs IH]; intros d; [reflexivity|]. apply IH. Qed.

Lemma length_rolling {A B} (agg : list A -> B) p xs : length (rolling agg p xs) = length xs.
Proof. unfold rolling. rewrite length_map. apply length_seq. Qed.

Lemma guard_close df : frame_empty df || negb (has_col "close" df) = false -> has_col "close" df = true.
Proof. intros H. apply orb_false_iff in H as [_ H]. apply negb_false_iff, H. Qed.

Lemma calculate_rsi_exec sqrtQ argsort ps df :
  run (calculate_rsi argsort ps) df =
  if guarded (IRsi ps) df then df
  else exec (writes sqrtQ (IRsi ps) (sort_frame argsort df)) (sort_frame argsort df).
Proof.
  set (s := sort_frame argsort df).
  transitivity (if frame_empty df || negb (has_col "close" df) then df
                else exec (writes sqrtQ (IRsi ps) s) s).
  2: { unfold guarded. simpl. rewrite andb_true_r. reflexivity. }
  apply (run_shape argsort (fun d0 => frame_empty d0 || negb (has_col "close" d0)) _
           (fun d => exec (writes sqrtQ (IRsi ps) d) d) _ df (fun x => eq_refl)).
  intros Hg l h. fold s. cbv beta.
  rewrite bind_read_ins. cbv beta zeta.
  erewrite bind_for_each_ins by (intros x d'; apply assign_ins).
  unfold ret. cbv beta. rewrite fold_set_exec_const. reflexivity.
Qed.

Lemma calculate_kdj_exec sqrtQ argsort p kp dp df :
  run (calculate_kdj argsort p kp dp) df =
  if guarded (IKdj p kp dp) df then df
  else exec (writes sqrtQ (IKdj p kp dp) (sort_frame argsort df)) (sort_frame argsort df).
Proof.
  set (s := sort_frame argsort df).
  apply (run_shape argsort _ _ (fun d => exec (writes sqrtQ (IKdj p kp dp) d) d) _ df (fun x => eq_refl)).
  intros Hg l h. fold s. cbv beta.
  rewrite bind_read_ins. cbv beta zeta. rewrite !bind_assign_ins. reflexivity.
Qed.

Lemma calculate_macd_exec sqrtQ argsort f sl g df :
  run (calculate_macd argsort f sl g) df =
  if guarded (IMacd f sl g) df then df
  else exec (writes sqrtQ (IMacd f sl g) (sort_frame argsort df)) (sort_frame argsort df).
Proof.
  set (s := sort_frame argsort df).
  transitivity (if frame_empty df || negb (has_col "close" df) then df
                else exec (writes sqrtQ (IMacd f sl g) s) s).
  2: { unfold guarded. simpl. rewrite andb_true_r. reflexivity. }
  apply (run_shape argsort (fun d0 => frame_empty d0 || negb (has_col "close" d0)) _
           (fun d => exec (writes sqrtQ (IMacd f sl g) d) d) _ df (fun x => eq_refl)).
  intros Hg l h. fold s. cbv beta.
  rewrite bind_read_ins. cbv beta zeta. rewrite !bind_assign_ins. reflexivity.
Qed.

Lemma calculate_bollinger_bands_exec sqrtQ argsort p sd df :
  wf (sort_frame argsort df) ->
  run (calculate_bollinger_bands sqrtQ argsort p sd) df =
  if guarded (IBoll p sd) df then df
  else exec (writes sqrtQ (IBoll p sd) (sort_frame argsort df)) (sort_frame argsort df).
Proof.
  intros Hw. set (s := sort_frame argsort df) in *.
  transitivity (if frame_empty df || negb (has_col "close" df) then df
                else exec (writes sqrtQ (IBoll p sd) s) s).
  2: { unfold guarded. simpl. rewrite andb_true_r. reflexivity. }
  apply (run_shape argsort (fun d0 => frame_empty d0 || negb (has_col "close" d0)) _
           (fun d => exec (writes sqrtQ (IBoll p sd) d) d) _ df (fun x => eq_refl)).
  intros Hg l h. fold s. cbv beta.
  assert (Hc : has_col "close" s = true) by (unfold s; rewrite has_col_sort_frame; apply guard_close, Hg).
  rewrite bind_read_ins. cbv beta. rewrite bind_assign_ins, bind_read_ins. cbv beta zeta.
  rewrite bind_read_ins, bind_assign_ins, bind_read_ins, bind_assign_ins.
  set (mid := rolling mean_agg (default boll_period p) (num_col "close" s)).
  assert (Hw1 : wf (set_col "boll_mid" mid s)) by (apply wf_set_col, Hw).
  rewrite (num_col_set_col_other "close" "boll_mid" mid s Hw) by discriminate.
  rewrite (num_col_set_col_other "boll_mid" "boll_upper" _ _ Hw1) by discriminate.
  rewrite (num_col_set_col_same "boll_mid" mid s Hw).
  - reflexivity.
  - unfold mid. rewrite length_rolling. apply length_num_col, Hc.
Qed.

(** Every indicator function: the input itself when the early-return test
    fires, otherwise the sorted copy with its derived columns assigned. *)
Lemma run_indicator_exec sqrtQ argsort i df :
  wf (sort_frame argsort df) ->
  run (run_indicator sqrtQ argsort i) df =
  if guarded i df then df
  else exec (writes sqrtQ i (sort_frame argsort df)) (sort_frame argsort df).
Proof.
  intros Hw. destruct i; simpl run_indicator.
  - apply calculate_ma_exec, Hw.
  - apply calculate_rsi_exec.
  - apply calculate_kdj_exec.
  - apply calculate_bollinger_bands_exec, Hw.
  - apply calculate_macd_exec.
Qed.

Lemma writes_names sqrtQ i d : forall w, In w (writes sqrtQ i d) -> ~ In (fst w) base_cols.
Proof.
  unfold writes; destruct i; cbv zeta; intros w Hw;
  repeat match goal with
  | H : In _ (_ ++ _) |- _ => apply in_app_iff in H as [H|H]
  | H : In _ (map _ _) |- _ => apply in_map_iff in H as [? [<- _]]
  | H : In _ (if ?b then _ else _) |- _ => destruct b
  | H : In _ [] |- _ => destruct H
  | H : In _ (_ :: _) |- _ => destruct H as [<-|H]
  end;
  unfold col_name; simpl; intuition discriminate.
Qed.

Lemma writes_base sqrtQ i d d' :
  (forall c, In c base_cols -> get_col c d = get_col c d') -> has_col "vol" d = has_col "vol" d' ->
  writes sqrtQ i d = writes sqrtQ i d'.
Proof.
  intros H Hv. unfold writes, num_col.
  rewrite (H "close"%string), (H "high"%string), (H "low"%string), (H "vol"%string), Hv by (simpl; tauto).
  reflexivity.
Qed.

Lemma guarded_alt i x :
  guarded i x = match rows x with [] => true | _ => false end ||
                negb (forallb (fun c => has_col c x) (required_cols i)).
Proof.
  unfold guarded, frame_empty. destruct (rows x); [reflexivity|].
  destruct (columns x) eqn:E; [|reflexivity].
  unfold has_col. rewrite E. destruct i; reflexivity.
Qed.

Lemma guarded_same i x y :
  length (rows x) = length (rows y) -> (forall c, In c base_cols -> has_col c x = has_col c y) ->
  guarded i x = guarded i y.
Proof.
  intros Hl Hc. rewrite !guarded_alt.
  replace (match rows x with [] => true | _ => false end)
    with (match rows y with [] => true | _ => false end)
    by (destruct (rows x), (rows y); simpl in Hl; congruence).
  f_equal. f_equal.
  destruct i; simpl; rewrite ?(Hc "close"%string), ?(Hc "high"%string), ?(Hc "low"%string) by (simpl; tauto);
    reflexivity.
Qed.

End IndicatorAlgebra.

(** *** Chains of indicator calls *)
Module Pipeline.
Import Indicators Frames IndicatorAlgebra.

(** A pipeline passes the frame each call returns on to the next call. *)
Definition run_pipeline (sqrtQ : Q -> Q) (argsort : list cell -> list nat)
    (fs : list indicator) (df : frame) : frame :=
  fold_left (fun d i => run (run_indicator sqrtQ argsort i) d) fs df.

Definition avoids (ws : list (string * list num)) : Prop :=
  forall w, In w ws -> ~ In (fst w) base_cols.

Section Orbit.

Variable sqrtQ : Q -> Q.
Variable argsort : list cell -> list nat.
Variable df : frame.
Hypothesis Hspec : argsort_spec argsort.
Hypothesis Hwf : wf df.
Hypothesis Hkeys : distinct_keys df.

Let s := sort_frame argsort df.

(** The frames a pipeline goes through: the input itself, or its sorted
    copy with derived columns assigned. *)
Definition orbit (o : option (list (string * list num))) : frame :=
  match o with None => df | Some ws => exec ws s end.

Definition ws_of (o : option (list (string * list num))) : list (string * list num) :=
  match o with None => [] | Some ws => ws end.

Definition next (o : option (list (string * list num))) (i : indicator) :=
  if guarded i df then o else Some (ws_of o ++ writes sqrtQ i s).

Lemma s_shape : wf s /\ length (rows s) = length (rows df) /\ columns s = columns df.
Proof. exact (sort_frame_shape argsort df Hspec Hwf). Qed.

Lemma s_settled : settled argsort s.
Proof. exact (sort_frame_settled argsort df Hspec Hwf Hkeys). Qed.

Lemma avoid_neq ws c : avoids ws -> In c base_cols -> forall w, In w ws -> fst w <> c.
Proof. intros Ha Hc w Hw Heq. apply (Ha w Hw). rewrite Heq. exact Hc. Qed.

Lemma step_orbit o i :
  avoids (ws_of o) ->
  run (run_indicator sqrtQ argsort i) (orbit o) = orbit (next o i) /\ avoids (ws_of (next o i)).
Proof.
  intros Ha. destruct s_shape as [Hws [Hrs Hcs]].
  assert (Hav : avoids (ws_of o ++ writes sqrtQ i s)).
  { intros w Hw. apply in_app_iff in Hw as [Hw|Hw]; [exact (Ha w Hw)|exact (writes_names _ _ _ w Hw)]. }
  destruct o as [ws|]; simpl in Ha |- *.
  - assert (Hset : settled argsort (exec ws s)).
    { apply settled_exec; [exact Hws|exact s_settled|]. apply avoid_neq; [exact Ha|simpl; tauto]. }
    pose proof (sort_settled _ _ Hset) as Hsort.
    assert (Hbase : forall c, In c base_cols -> get_col c (exec ws s) = get_col c s)
      by (intros c Hc; apply get_col_exec_other; [exact Hws|apply avoid_neq; assumption]).
    assert (Hhas : forall c, In c base_cols -> has_col c (exec ws s) = has_col c df).
    { intros c Hc. rewrite has_col_exec_other by (apply avoid_neq; assumption).
      unfold s. apply has_col_sort_frame. }
    rewrite run_indicator_exec by (rewrite Hsort; apply wf_exec, Hws).
    assert (Hg : guarded i (exec ws s) = guarded i df).
    { apply guarded_same; [rewrite rows_exec; exact Hrs|exact Hhas]. }
    unfold next. rewrite Hg. simpl. destruct (guarded i df); [split; [reflexivity|exact Ha]|].
    split; [|exact Hav]. rewrite Hsort.
    rewrite (writes_base sqrtQ i (exec ws s) s Hbase) by (rewrite has_col_exec_other; [reflexivity|]; apply avoid_neq; [exact Ha|simpl; tauto]).
    simpl. rewrite exec_app. reflexivity.
  - rewrite run_indicator_exec by exact Hws.
    unfold next. destruct (guarded i df); [split; [reflexivity|intros w []]|].
    split; [reflexivity|exact Hav].
Qed.

Lemma pipeline_orbit fs o :
  avoids (ws_of o) -> run_pipeline sqrtQ argsort fs (orbit o) = orbit (fold_left next fs o).
Proof.
  revert o; induction fs as [|i fs IH]; intros o Ha; [reflexivity|].
  simpl. destruct (step_orbit o i Ha) as [E Ha']. rewrite E. apply IH, Ha'.
Qed.

Definition active (fs : list indicator) : list indicator := List.filter (fun i => negb (guarded i df)) fs.

Definition all_writes (fs : list indicator) : list (string * list num) :=
  flat_map (fun i => writes sqrtQ i s) (active fs).

Lemma fold_next fs o :
  fold_left next fs o = match active fs with [] => o | _ => Some (ws_of o ++ all_writes fs) end.
Proof.
  revert o; induction fs as [|i fs IH]; intros o; [reflexivity|].
  simpl. rewrite IH. unfold all_writes, active, next. simpl.
  destruct (guarded i df); simpl; [reflexivity|].
  fold (active fs). destruct (active fs) eqn:E; simpl.
  - rewrite app_nil_r. reflexivity.
  - rewrite <- !app_assoc. reflexivity.
Qed.

Lemma pipeline_idem fs :
  run_pipeline sqrtQ argsort fs (run_pipeline sqrtQ argsort fs df) = run_pipeline sqrtQ argsort fs df.
Proof.
  assert (H0 : avoids (ws_of None)) by (intros w []).
  assert (Hy : run_pipeline sqrtQ argsort fs df = orbit (fold_left next fs None))
    by exact (pipeline_orbit fs None H0).
  rewrite Hy, fold_next. destruct (active fs) eqn:E.
  - simpl. rewrite Hy, fold_next, E. reflexivity.
  - simpl. change (exec (all_writes fs) s) with (orbit (Some (all_writes fs))).
    rewrite (pipeline_orbit fs (Some (all_writes fs))), fold_next, E.
    + simpl. rewrite exec_app. apply exec_idem, (proj1 s_shape).
    + intros w Hw. unfold all_writes in Hw. apply in_flat_map in Hw as [j [_ Hj]].
      exact (writes_names _ _ _ w Hj).
Qed.

End Orbit.

End Pipeline.

(** *** Reading the derived columns back *)
Module ColumnFacts.
Import Indicators Frames IndicatorAlgebra.

Lemma last_write_some_in c ws v :
  last_write c ws = Some v -> exists w, In w ws /\ fst w = c /\ snd w = v.
Proof.
  induction ws as [|w ws IH]; simpl; [discriminate|].
  destruct (last_write c ws) eqn:E.
  - intros H. injection H as <-. destruct (IH eq_refl) as [w' [H1 H2]]. exists w'. auto.
  - destruct (String.eqb_spec c (fst w)) as [->|]; [|discriminate].
    intros H. injection H as <-. exists w. auto.
Qed.

Lemma last_write_some c ws v :
  (exists w, In w ws /\ fst w = c) -> (forall w, In w ws -> fst w = c -> snd w = v) ->
  last_write c ws = Some v.
Proof.
  intros Hex Hall. destruct (last_write c ws) eqn:E.
  - apply last_write_some_in in E as [w [Hin [Hf Hs]]]. rewrite <- Hs. f_equal. apply Hall; assumption.
  - exfalso. destruct Hex as [w [Hin Hf]].
    induction ws as [|w' ws IH]; [destruct Hin|]. simpl in E.
    destruct (last_write c ws) eqn:E'; [discriminate|].
    destruct Hin as [<-|Hin].
    + rewrite Hf, String.eqb_refl in E. discriminate.
    + apply IH; [exact Hin| |reflexivity]. intros w0 H0 H1. apply Hall; [right|]; assumption.
Qed.

Lemma out_num_col c ws d v :
  wf d -> last_write c ws = Some v -> length v = length (rows d) -> num_col c (exec ws d) = v.
Proof.
  intros Hw Hl Hn. unfold num_col. rewrite get_col_exec, Hl by exact Hw.
  rewrite <- Hn. apply map_cell_num_pad.
Qed.

Lemma out_base sqrtQ i d c :
  wf d -> In c base_cols -> get_col c (exec (writes sqrtQ i d) d) = get_col c d.
Proof.
  intros Hw Hc. apply get_col_exec_other; [exact Hw|].
  intros w Hin Heq. apply (writes_names sqrtQ i d w Hin). rewrite Heq. exact Hc.
Qed.

Lemma col_name_inj pre p p' : col_name pre p = col_name pre p' -> p = p'.
Proof.
  unfold col_name. intros H.
  assert (Hp : pretty p = pretty p').
  { induction pre as [|a pre IH]; [exact H|]. simpl in H. injection H as H. apply IH, H. }
  apply (inj pretty) in Hp. exact Hp.
Qed.

Lemma nth_rolling {A B} (agg : list A -> B) p xs i d :
  (i < length xs)%nat -> nth i (rolling agg p xs) d = agg (window p i xs).
Proof.
  intros H. unfold rolling. rewrite (nth_map_in _ _ i d 0%nat) by (rewrite length_seq; exact H).
  rewrite seq_nth by exact H. reflexivity.
Qed.

Lemma nth_combine_lt {A B} (xs : list A) (ys : list B) i dx dy :
  (i < length xs)%nat -> (i < length ys)%nat -> nth i (combine xs ys) (dx, dy) = (nth i xs dx, nth i ys dy).
Proof.
  revert ys i; induction xs as [|x xs IH]; intros [|y ys] [|i] Hx Hy; simpl in *; try lia; try reflexivity.
  apply IH; lia.
Qed.

Lemma length_zip_with {A B C} (f : A -> B -> C) xs ys :
  length (zip_with f xs ys) = Nat.min (length xs) (length ys).
Proof. unfold zip_with. rewrite length_map. apply length_combine. Qed.

Lemma nth_zip_with {A B C} (f : A -> B -> C) xs ys i dx dy d :
  (i < length xs)%nat -> (i < length ys)%nat -> nth i (zip_with f xs ys) d = f (nth i xs dx) (nth i ys dy).
Proof.
  intros Hx Hy. unfold zip_with.
  rewrite (nth_map_in _ _ i d (dx, dy)) by (rewrite length_combine; lia).
  rewrite nth_combine_lt by assumption. reflexivity.
Qed.

Lemma length_diff xs : length (diff xs) = length xs.
Proof. destruct xs as [|x xs]; [reflexivity|]. simpl. rewrite length_zip_with. simpl. lia. Qed.

Lemma num_sum_fin l a : fold_left num_add (map Fin l) (Fin a) = Fin (fold_left Qplus l a).
Proof. revert a; induction l as [|q l IH]; intros a; [reflexivity|]. apply IH. Qed.

Lemma observations_fin l : observations (map Fin l) = map Fin l.
Proof. induction l as [|q l IH]; [reflexivity|]. simpl. f_equal. exact IH. Qed.

Lemma inject_Z_succ_nonzero n : Qeq_bool (inject_Z (Z.of_nat (S n))) 0 = false.
Proof.
  apply Bool.not_true_iff_false. intros H. apply Qeq_bool_iff in H.
  unfold Qeq in H. simpl in H. lia.
Qed.

(** The mean of a non-empty window of finite values. *)
Lemma mean_agg_fin l :
  l <> [] ->
  mean_agg (map Fin l) = Fin (fold_left Qplus l 0 / inject_Z (Z.of_nat (length l))).
Proof.
  intros Hl. unfold mean_agg. rewrite observations_fin.
  destruct l as [|q l]; [congruence|].
  change (num_div (num_sum (map Fin (q :: l))) (num_of_nat (length (map Fin (q :: l)))) =
          Fin (fold_left Qplus (q :: l) 0 / inject_Z (Z.of_nat (length (q :: l))))).
  unfold num_sum, num_of_nat. rewrite num_sum_fin, length_map. simpl length.
  unfold num_div. rewrite inject_Z_succ_nonzero. reflexivity.
Qed.

End ColumnFacts.

(** ** The indicator claims *)
Module IndicatorClaims.
Import Indicators Frames IndicatorAlgebra Pipeline ColumnFacts.

(** A daily series with every base column, its rows out of date order. *)
Definition ohlc_sample : frame :=
  mk_frame ["trade_date"; "close"; "high"; "low"; "vol"]
    [[CStr "20240103"; CNum (Fin 12); CNum (Fin 13); CNum (Fin 11); CNum (Fin 300)];
     [CStr "20240101"; CNum (Fin 10); CNum (Fin 11); CNum (Fin 9); CNum (Fin 100)];
     [CStr "20240102"; CNum (Fin 11); CNum (Fin 12); CNum (Fin 10); CNum (Fin 200)]].

(** A minute series as [get_minute_data] keys it, by [trade_time], its rows
    out of time order. *)
Definition minute_bars : frame :=
  mk_frame ["trade_time"; "close"]
    [[CStr "2024-01-02 09:35:00"; CNum (Fin 11)];
     [CStr "2024-01-02 09:31:00"; CNum (Fin 10)]].

(** A constant close series. *)
Definition flat_sample : frame :=
  mk_frame ["trade_date"; "close"]
    [[CStr "20240102"; CNum (Fin 10)];
     [CStr "20240101"; CNum (Fin 10)];
     [CStr "20240103"; CNum (Fin 10)]].

(** The trailing averages of gains and losses [calculate_rsi] divides. *)
Definition rsi_avg_gain (period : nat) (close : list num) : list num :=
  rolling mean_agg period (where0 (fun x => num_ltb (Fin 0) x) (diff close)).

Definition rsi_avg_loss (period : nat) (close : list num) : list num :=
  rolling mean_agg period (map num_neg (where0 (fun x => num_ltb x (Fin 0)) (diff close))).

Lemma wf_ohlc_sample : wf ohlc_sample.
Proof.
  split; [|repeat constructor].
  repeat constructor; simpl; intuition discriminate.
Qed.

Lemma wf_sample : wf sample.
Proof.
  split; [|repeat constructor].
  repeat constructor; simpl; intuition discriminate.
Qed.

Lemma wf_flat_sample : wf flat_sample.
Proof.
  split; [|repeat constructor].
  repeat constructor; simpl; intuition discriminate.
Qed.

Lemma wf_minute_bars : wf minute_bars.
Proof.
  split; [|repeat constructor].
  repeat constructor; simpl; intuition discriminate.
Qed.

Lemma distinct_keys_ohlc_sample : distinct_keys ohlc_sample.
Proof.
  intros _. exists ["20240103"; "20240101"; "20240102"]%string. split; [reflexivity|].
  repeat constructor; simpl; intuition discriminate.
Qed.

(** The frame an indicator call works on, and where its result comes from. *)
Lemma indicator_out sqrtQ argsort i df :
  argsort_spec argsort -> wf df -> guarded i df = false ->
  let s := sort_frame argsort df in
  wf s /\ length (rows s) = length (rows df) /\ has_col "close" s = true /\
  run (run_indicator sqrtQ argsort i) df = exec (writes sqrtQ i s) s.
Proof.
  intros Hs Hw Hg s. destruct (sort_frame_shape argsort df Hs Hw) as [Hws [Hrs _]].
  fold s in Hws, Hrs. split; [exact Hws|]. split; [exact Hrs|]. split.
  - unfold s. rewrite has_col_sort_frame. apply (not_guarded_close i df Hg).
  - rewrite run_indicator_exec, Hg by exact Hws. reflexivity.
Qed.

(** ** C9: running the same indicator calls again on their own output gives
    the same frame, derived columns included, for every sequence of the five
    functions, on a series whose [trade_date] keys are distinct. *)
Theorem indicators_idempotent (sqrtQ : Q -> Q) (argsort : list cell -> list nat)
    (fs : list indicator) (df : frame) :
  argsort_spec argsort -> wf df -> distinct_keys df ->
  run_pipeline sqrtQ argsort fs (run_pipeline sqrtQ argsort fs df) = run_pipeline sqrtQ argsort fs df.
Proof. intros Hs Hw Hk. exact (pipeline_idem sqrtQ argsort df Hs Hw Hk fs). Qed.

Lemma indicators_idempotent_witness :
  let fs := [IMa None; IRsi None; IKdj None None None; IBoll None None; IMacd None None None] in
  argsort_spec argsort_ins /\ wf ohlc_sample /\ distinct_keys ohlc_sample /\
  run_pipeline sqrt_zero argsort_ins fs (run_pipeline sqrt_zero argsort_ins fs ohlc_sample) =
  run_pipeline sqrt_zero argsort_ins fs ohlc_sample.
Proof.
  intros fs. split; [exact argsort_ins_spec|]. split; [exact wf_ohlc_sample|].
  split; [exact distinct_keys_ohlc_sample|].
  exact (indicators_idempotent sqrt_zero argsort_ins fs ohlc_sample
           argsort_ins_spec wf_ohlc_sample distinct_keys_ohlc_sample).
Defined.

(** ** C5, as stated: the rows are put in ascending timestamp order.  A
    minute series carries its timestamp in [trade_time] and no [trade_date]
    column; [calculate_ma] keeps its rows in the input order (the
    [argsort] is never called on it). *)
Lemma indicator_keeps_order_without_trade_date :
  get_col "trade_time" (run (calculate_ma argsort_ins None) minute_bars) =
    [CStr "2024-01-02 09:35:00"; CStr "2024-01-02 09:31:00"] /\
  ~ Sorted (fun a b => cell_leb a b = true)
      (get_col "trade_time" (run (calculate_ma argsort_ins None) minute_bars)).
Proof.
  assert (E : get_col "trade_time" (run (calculate_ma argsort_ins None) minute_bars) =
              [CStr "2024-01-02 09:35:00"; CStr "2024-01-02 09:31:00"])
    by (vm_compute; reflexivity).
  split; [exact E|]. rewrite E. intros H. inversion H as [|? ? _ Hd]. inversion Hd as [|? ? Hle].
  vm_compute in Hle. discriminate.
Qed.

(** ** C5, as the code has it: when the early-return test does not fire,
    the result is the input with its rows reordered by [argsort] of
    [trade_date] (a permutation, with no stability promise, which lists
    [trade_date] in ascending order with NaN last) and the derived columns
    then computed on it; without a [trade_date] column the input order is
    kept.  The keys are taken [sortable]: on a mix of strings and numbers
    [sort_values] raises [TypeError]. *)
Theorem indicator_sorts_by_trade_date (sqrtQ : Q -> Q) (argsort : list cell -> list nat)
    (i : indicator) (df : frame) :
  argsort_spec argsort -> wf df -> guarded i df = false ->
  (has_col "trade_date" df = true -> sortable (get_col "trade_date" df)) ->
  run (run_indicator sqrtQ argsort i) df =
    exec (writes sqrtQ i (sort_frame argsort df)) (sort_frame argsort df) /\
  (has_col "trade_date" df = true ->
     (exists p, Permutation p (seq 0 (length (rows df))) /\ sort_frame argsort df = take_rows p df) /\
     Sorted (fun a b => cell_leb a b = true) (get_col "trade_date" (run (run_indicator sqrtQ argsort i) df))) /\
  (has_col "trade_date" df = false -> sort_frame argsort df = df).
Proof.
  intros Hs Hw Hg Hso.
  destruct (indicator_out sqrtQ argsort i df Hs Hw Hg) as [Hws [_ [_ Hout]]].
  split; [exact Hout|]. split.
  - intros Htd. destruct (Hs (get_col "trade_date" df)) as [P S].
    specialize (S (Hso Htd)).
    rewrite (length_get_col _ _ Htd) in P.
    split; [exists (argsort (get_col "trade_date" df)); split; [exact P|unfold sort_frame; rewrite Htd; reflexivity]|].
    rewrite Hout, out_base by (exact Hws || (simpl; tauto)).
    unfold sort_frame. rewrite Htd, get_col_take_rows by exact Htd. exact S.
  - intros Htd. unfold sort_frame. rewrite Htd. reflexivity.
Qed.

Lemma indicator_sorts_by_trade_date_witness :
  argsort_spec argsort_ins /\ wf sample /\ guarded (IMa None) sample = false /\
  (has_col "trade_date" sample = true -> sortable (get_col "trade_date" sample)) /\
  (run (run_indicator sqrt_zero argsort_ins (IMa None)) sample =
     exec (writes sqrt_zero (IMa None) (sort_frame argsort_ins sample)) (sort_frame argsort_ins sample) /\
   (has_col "trade_date" sample = true ->
      (exists p, Permutation p (seq 0 (length (rows sample))) /\ sort_frame argsort_ins sample = take_rows p sample) /\
      Sorted (fun a b => cell_leb a b = true)
        (get_col "trade_date" (run (run_indicator sqrt_zero argsort_ins (IMa None)) sample))) /\
   (has_col "trade_date" sample = false -> sort_frame argsort_ins sample = sample)).
Proof.
  assert (Hg : guarded (IMa None) sample = false) by reflexivity.
  assert (Hso : has_col "trade_date" sample = true -> sortable (get_col "trade_date" sample)).
  { intros _. left. vm_compute. repeat constructor. }
  split; [exact argsort_ins_spec|]. split; [exact wf_sample|]. split; [exact Hg|]. split; [exact Hso|].
  exact (indicator_sorts_by_trade_date sqrt_zero argsort_ins (IMa None) sample argsort_ins_spec wf_sample Hg Hso).
Defined.

(** The [ma{p}] column [calculate_ma] writes. *)
Lemma ma_column argsort ps df p :
  argsort_spec argsort -> wf df -> guarded (IMa ps) df = false -> In p (default ma_periods ps) ->
  num_col (col_name "ma" p) (run (calculate_ma argsort ps) df) =
    rolling mean_agg p (num_col "close" (run (calculate_ma argsort ps) df)).
Proof.
  intros Hs Hw Hg Hp.
  destruct (indicator_out sqrt_zero argsort (IMa ps) df Hs Hw Hg) as [Hws [_ [Hc Hout]]].
  simpl run_indicator in Hout. rewrite Hout. set (s := sort_frame argsort df) in *.
  assert (Hcl : num_col "close" (exec (writes sqrt_zero (IMa ps) s) s) = num_col "close" s).
  { unfold num_col. rewrite out_base by (exact Hws || (simpl; tauto)). reflexivity. }
  rewrite Hcl. apply out_num_col; [exact Hws| |].
  - apply last_write_some.
    + exists (col_name "ma" p, rolling mean_agg p (num_col "close" s)). split; [|reflexivity].
      simpl. apply in_app_iff. left. apply in_map_iff. exists p. split; [reflexivity|exact Hp].
    + intros w Hin Hf. simpl in Hin. apply in_app_iff in Hin as [Hin|Hin].
      * apply in_map_iff in Hin as [p' [<- _]]. simpl in Hf |- *.
        apply col_name_inj in Hf. subst p'. reflexivity.
      * apply in_app_iff in Hin as [Hin|Hin].
        -- destruct (has_col "vol" s); [|destruct Hin].
           simpl in Hin. destruct Hin as [<-|[<-|[]]]; simpl in Hf; unfold col_name in Hf; discriminate Hf.
        -- destruct Hin as [<-|[]]. simpl in Hf. unfold col_name in Hf. discriminate Hf.
  - rewrite length_rolling. apply length_num_col, Hc.
Qed.

(** ** C7: on a close series of [L] rows and a period [p] larger than [L],
    the [ma{p}] column has a value at every row, and the value at row [i]
    is the mean of the first [i + 1] closes; the last row's is the mean of
    all [L]. *)
Theorem ma_short_series_prefix_mean (argsort : list cell -> list nat) (ps : option (list nat))
    (df : frame) (p : nat) (qs : list Q) :
  argsort_spec argsort -> wf df -> guarded (IMa ps) df = false -> In p (default ma_periods ps) ->
  num_col "close" (run (calculate_ma argsort ps) df) = map Fin qs -> (length qs < p)%nat ->
  length (num_col (col_name "ma" p) (run (calculate_ma argsort ps) df)) = length qs /\
  forall i, (i < length qs)%nat ->
    nth i (num_col (col_name "ma" p) (run (calculate_ma argsort ps) df)) NaN =
    Fin (fold_left Qplus (firstn (S i) qs) 0 / inject_Z (Z.of_nat (S i))).
Proof.
  intros Hs Hw Hg Hp Hcl Hlen.
  rewrite (ma_column argsort ps df p Hs Hw Hg Hp), Hcl.
  split; [rewrite length_rolling, length_map; reflexivity|].
  intros i Hi. rewrite nth_rolling by (rewrite length_map; exact Hi).
  unfold window. replace (S i - p)%nat with 0%nat by lia. rewrite skipn_O.
  rewrite firstn_map, mean_agg_fin.
  - rewrite length_firstn, Nat.min_l by lia. reflexivity.
  - intros E. apply (f_equal (@length Q)) in E. rewrite length_firstn in E. simpl length in E. lia.
Qed.

Lemma ma_short_series_prefix_mean_witness :
  argsort_spec argsort_ins /\ wf sample /\ guarded (IMa None) sample = false /\
  In 5%nat (default ma_periods None) /\
  num_col "close" (run (calculate_ma argsort_ins None) sample) = map Fin [10; 11; 12] /\
  (length [10; 11; 12] < 5)%nat /\
  (length (num_col (col_name "ma" 5) (run (calculate_ma argsort_ins None) sample)) = length [10; 11; 12] /\
   forall i, (i < length [10; 11; 12])%nat ->
     nth i (num_col (col_name "ma" 5) (run (calculate_ma argsort_ins None) sample)) NaN =
     Fin (fold_left Qplus (firstn (S i) [10; 11; 12]) 0 / inject_Z (Z.of_nat (S i)))).
Proof.
  assert (Hg : guarded (IMa None) sample = false) by reflexivity.
  assert (Hp : In 5%nat (default ma_periods None)) by (simpl; tauto).
  assert (Hc : num_col "close" (run (calculate_ma argsort_ins None) sample) = map Fin [10; 11; 12])
    by (vm_compute; reflexivity).
  assert (Hl : (length [10; 11; 12] < 5)%nat) by (simpl; lia).
  split; [exact argsort_ins_spec|]. split; [exact wf_sample|]. split; [exact Hg|].
  split; [exact Hp|]. split; [exact Hc|]. split; [exact Hl|].
  exact (ma_short_series_prefix_mean argsort_ins None sample 5 [10; 11; 12]
           argsort_ins_spec wf_sample Hg Hp Hc Hl).
Defined.

(** *** Windows of a constant series *)
Lemma window_map {A B} (f : A -> B) p i l : window p i (map f l) = map f (window p i l).
Proof. unfold window. rewrite firstn_map, skipn_map. reflexivity. Qed.

Lemma in_window {A} p i (l : list A) x : In x (window p i l) -> In x l.
Proof.
  unfold window. intros H.
  assert (Hs : In x (firstn (S i) l)).
  { rewrite <- (firstn_skipn (S i - p) (firstn (S i) l)). apply in_or_app. right. exact H. }
  rewrite <- (firstn_skipn (S i) l). apply in_or_app. left. exact Hs.
Qed.

Lemma length_window {A} p i (l : list A) :
  (i < length l)%nat -> length (window p i l) = (S i - (S i - p))%nat.
Proof. intros Hi. unfold window. rewrite length_skipn, length_firstn, Nat.min_l by lia. reflexivity. Qed.

Lemma window_first {A} p (x : A) l : (1 <= p)%nat -> window p 0 (x :: l) = [x].
Proof. intros Hp. unfold window. replace (1 - p)%nat with 0%nat by lia. reflexivity. Qed.

(** pandas' variance of a window of two or more equal values is exactly 0. *)
Lemma var_agg_const l c :
  (2 <= length l)%nat -> Forall (fun q => q == c) l -> var_agg (map Fin l) = Fin 0.
Proof.
  intros Hl Hc. rewrite List.Forall_forall in Hc. unfold var_agg. rewrite observations_fin, length_map.
  destruct l as [|a [|b l]]; simpl length in Hl; try lia.
  assert (Hall : all_same (map Fin (a :: b :: l)) = true).
  { change (forallb (num_eqb (Fin a)) (map Fin (b :: l)) = true).
    apply List.forallb_forall. intros x Hx. apply in_map_iff in Hx as [q [<- Hq]].
    simpl. apply Qeq_bool_iff. transitivity c; [apply Hc; simpl; tauto|symmetry; apply Hc; simpl; tauto]. }
  cbv zeta. rewrite Hall. reflexivity.
Qed.

Lemma num_add_nan x : num_add x NaN = NaN.
Proof. destruct x; reflexivity. Qed.

(** The three band columns [calculate_bollinger_bands] writes. *)
Lemma boll_columns sqrtQ argsort p sd df :
  argsort_spec argsort -> wf df -> guarded (IBoll p sd) df = false ->
  let out := run (calculate_bollinger_bands sqrtQ argsort p sd) df in
  let mid := rolling mean_agg (default boll_period p) (num_col "close" out) in
  let std := map (fun x => num_mul x (Fin (default boll_std_dev sd)))
               (rolling (std_agg sqrtQ) (default boll_period p) (num_col "close" out)) in
  num_col "close" out <> [] /\
  num_col "boll_mid" out = mid /\
  num_col "boll_upper" out = zip_with num_add mid std /\
  num_col "boll_lower" out = zip_with num_sub mid std.
Proof.
  intros Hs Hw Hg.
  destruct (indicator_out sqrtQ argsort (IBoll p sd) df Hs Hw Hg) as [Hws [Hrs' [Hc Hout]]].
  simpl run_indicator in Hout. cbv zeta. rewrite Hout. set (s := sort_frame argsort df) in *.
  assert (Hcl : num_col "close" (exec (writes sqrtQ (IBoll p sd) s) s) = num_col "close" s).
  { unfold num_col. rewrite out_base by (exact Hws || (simpl; tauto)). reflexivity. }
  rewrite Hcl. pose proof (length_num_col _ _ Hc) as Hn.
  split.
  { intros E. rewrite E, Hrs' in Hn. destruct (not_guarded_close _ _ Hg) as [_ Hr].
    apply Hr. destruct (rows df); [reflexivity|discriminate]. }
  split; [|split]; apply out_num_col; try exact Hws; try reflexivity;
    rewrite ?length_zip_with, ?length_map, !length_rolling, Hn; lia.
Qed.

(** ** C3, as stated: a constant close series gives [boll_upper ==
    boll_lower == boll_mid] at every row.  Not at the first row: pandas' sample standard deviation of one value is NaN,
    and so are both bands there. *)
Lemma boll_constant_first_row_nan :
  let out := run (calculate_bollinger_bands sqrt_zero argsort_ins None None) flat_sample in
  num_col "close" out = map Fin [10; 10; 10] /\
  is_nan (nth 0 (num_col "boll_upper" out) NaN) = true /\
  num_eqb (nth 0 (num_col "boll_upper" out) NaN) (nth 0 (num_col "boll_mid" out) NaN) = false.
Proof. vm_compute. split; [reflexivity|split; reflexivity]. Qed.

(** ** C3, as the code has it: on a constant close series, with a period of
    at least 2, the upper and lower bands are NaN at the first row and equal
    the middle band at every later row (given [sqrt 0 = 0]). *)
Theorem boll_constant_series (sqrtQ : Q -> Q) (argsort : list cell -> list nat)
    (p : option nat) (sd : option Q) (df : frame) (c : Q) (qs : list Q) :
  argsort_spec argsort -> wf df -> guarded (IBoll p sd) df = false -> sqrtQ 0 == 0 ->
  (2 <= default boll_period p)%nat ->
  num_col "close" (run (calculate_bollinger_bands sqrtQ argsort p sd) df) = map Fin qs ->
  Forall (fun q => q == c) qs ->
  is_nan (nth 0 (num_col "boll_upper" (run (calculate_bollinger_bands sqrtQ argsort p sd) df)) NaN) = true /\
  is_nan (nth 0 (num_col "boll_lower" (run (calculate_bollinger_bands sqrtQ argsort p sd) df)) NaN) = true /\
  forall i, (1 <= i < length qs)%nat ->
    num_eqb (nth i (num_col "boll_upper" (run (calculate_bollinger_bands sqrtQ argsort p sd) df)) NaN)
            (nth i (num_col "boll_mid" (run (calculate_bollinger_bands sqrtQ argsort p sd) df)) NaN) = true /\
    num_eqb (nth i (num_col "boll_lower" (run (calculate_bollinger_bands sqrtQ argsort p sd) df)) NaN)
            (nth i (num_col "boll_mid" (run (calculate_bollinger_bands sqrtQ argsort p sd) df)) NaN) = true.
Proof.
  intros Hs Hw Hg Hsq HP Hcl Hc.
  destruct (boll_columns sqrtQ argsort p sd df Hs Hw Hg) as [Hne [Hm [Hu Hl]]]. cbv zeta in Hne, Hm, Hu, Hl.
  rewrite Hcl in Hne. rewrite Hm, Hu, Hl, Hcl. clear Hm Hu Hl Hcl.
  set (P := default boll_period p) in *. set (SD := default boll_std_dev sd).
  assert (Hrow : forall i, (i < length qs)%nat ->
    nth i (rolling mean_agg P (map Fin qs)) NaN = mean_agg (map Fin (window P i qs)) /\
    nth i (zip_with num_add (rolling mean_agg P (map Fin qs))
             (map (fun x => num_mul x (Fin SD)) (rolling (std_agg sqrtQ) P (map Fin qs)))) NaN =
      num_add (mean_agg (map Fin (window P i qs)))
              (num_mul (std_agg sqrtQ (map Fin (window P i qs))) (Fin SD)) /\
    nth i (zip_with num_sub (rolling mean_agg P (map Fin qs))
             (map (fun x => num_mul x (Fin SD)) (rolling (std_agg sqrtQ) P (map Fin qs)))) NaN =
      num_sub (mean_agg (map Fin (window P i qs)))
              (num_mul (std_agg sqrtQ (map Fin (window P i qs))) (Fin SD))).
  { intros i Hi.
    assert (Hi' : (i < length (map Fin qs))%nat) by (rewrite length_map; exact Hi).
    assert (E1 : nth i (rolling mean_agg P (map Fin qs)) NaN = mean_agg (map Fin (window P i qs)))
      by (rewrite nth_rolling, window_map by exact Hi'; reflexivity).
    assert (E2 : nth i (map (fun x => num_mul x (Fin SD)) (rolling (std_agg sqrtQ) P (map Fin qs))) NaN =
                 num_mul (std_agg sqrtQ (map Fin (window P i qs))) (Fin SD)).
    { rewrite (nth_map_in _ _ i NaN NaN) by (rewrite length_rolling; exact Hi').
      rewrite nth_rolling, window_map by exact Hi'. reflexivity. }
    split; [exact E1|].
    split; rewrite (nth_zip_with _ _ _ i NaN NaN) by (rewrite ?length_map, length_rolling; exact Hi');
      rewrite E1, E2; reflexivity. }
  destruct qs as [|q qs'] eqn:Eqs; [contradiction Hne; reflexivity|]. rewrite <- Eqs in *.
  assert (H0 : (0 < length qs)%nat) by (rewrite Eqs; simpl; lia).
  assert (Hw0 : window P 0 qs = [q]) by (rewrite Eqs; apply window_first; lia).
  assert (Hs0 : num_mul (std_agg sqrtQ (map Fin (window P 0 qs))) (Fin SD) = NaN)
    by (rewrite Hw0; reflexivity).
  destruct (Hrow 0%nat H0) as [_ [Hu0 Hl0]].
  split; [rewrite Hu0, Hs0, num_add_nan; reflexivity|].
  split; [rewrite Hl0, Hs0; unfold num_sub; simpl num_neg; rewrite num_add_nan; reflexivity|].
  intros i [H1 Hi]. destruct (Hrow i Hi) as [Em [Eu El]]. rewrite Eu, El, Em.
  assert (Hw2 : (2 <= length (window P i qs))%nat) by (rewrite length_window by exact Hi; lia).
  assert (Hwc : Forall (fun q => q == c) (window P i qs)).
  { apply List.Forall_forall. intros x Hx. rewrite List.Forall_forall in Hc. apply Hc, (in_window P i qs x Hx). }
  unfold std_agg. rewrite (var_agg_const _ c Hw2 Hwc).
  rewrite mean_agg_fin by (intros E; rewrite E in Hw2; simpl in Hw2; lia).
  replace (zsqrt sqrtQ (Fin 0)) with (Fin (sqrtQ 0)) by reflexivity.
  cbn [num_add num_mul num_sub num_neg num_eqb].
  split; apply Qeq_bool_iff; rewrite Hsq; ring.
Qed.

Lemma boll_constant_series_witness :
  let out := run (calculate_bollinger_bands sqrt_zero argsort_ins None None) flat_sample in
  argsort_spec argsort_ins /\ wf flat_sample /\ guarded (IBoll None None) flat_sample = false /\
  sqrt_zero 0 == 0 /\ (2 <= default boll_period None)%nat /\
  num_col "close" out = map Fin [10; 10; 10] /\ Forall (fun q => q == 10) [10; 10; 10] /\
  (is_nan (nth 0 (num_col "boll_upper" out) NaN) = true /\
   is_nan (nth 0 (num_col "boll_lower" out) NaN) = true /\
   forall i, (1 <= i < length [10; 10; 10])%nat ->
     num_eqb (nth i (num_col "boll_upper" out) NaN) (nth i (num_col "boll_mid" out) NaN) = true /\
     num_eqb (nth i (num_col "boll_lower" out) NaN) (nth i (num_col "boll_mid" out) NaN) = true).
Proof.
  intros out.
  assert (Hg : guarded (IBoll None None) flat_sample = false) by reflexivity.
  assert (Hsq : sqrt_zero 0 == 0) by reflexivity.
  assert (HP : (2 <= default boll_period None)%nat) by (apply Nat.leb_le; reflexivity).
  assert (Hc : num_col "close" out = map Fin [10; 10; 10]) by (vm_compute; reflexivity).
  assert (Hf : Forall (fun q => q == 10) [10; 10; 10]) by (repeat constructor).
  split; [exact argsort_ins_spec|]. split; [exact wf_flat_sample|]. split; [exact Hg|].
  split; [exact Hsq|]. split; [exact HP|]. split; [exact Hc|]. split; [exact Hf|].
  exact (boll_constant_series sqrt_zero argsort_ins None None flat_sample 10 [10; 10; 10]
           argsort_ins_spec wf_flat_sample Hg Hsq HP Hc Hf).
Defined.

(** *** The RSI at a row whose average loss is zero *)
Definition rsi_of (r : num) : num := num_sub (Fin 100) (num_div (Fin 100) (num_add (Fin 1) r)).

(** The [rsi{p}] column [calculate_rsi] writes. *)
Lemma rsi_column argsort ps df p :
  argsort_spec argsort -> wf df -> guarded (IRsi ps) df = false -> In p (default rsi_periods ps) ->
  let cl := num_col "close" (run (calculate_rsi argsort ps) df) in
  cl <> [] /\
  num_col (col_name "rsi" p) (run (calculate_rsi argsort ps) df) =
    map rsi_of (zip_with num_div (rsi_avg_gain p cl) (rsi_avg_loss p cl)).
Proof.
  intros Hs Hw Hg Hp.
  destruct (indicator_out sqrt_zero argsort (IRsi ps) df Hs Hw Hg) as [Hws [Hrs [Hc Hout]]].
  simpl run_indicator in Hout. cbv zeta. rewrite Hout. set (s := sort_frame argsort df) in *.
  assert (Hcl : num_col "close" (exec (writes sqrt_zero (IRsi ps) s) s) = num_col "close" s).
  { unfold num_col. rewrite out_base by (exact Hws || (simpl; tauto)). reflexivity. }
  rewrite Hcl. pose proof (length_num_col _ _ Hc) as Hn.
  split.
  { intros E. rewrite E, Hrs in Hn. destruct (not_guarded_close _ _ Hg) as [_ Hr].
    apply Hr. destruct (rows df); [reflexivity|discriminate]. }
  apply out_num_col; [exact Hws| |].
  - apply last_write_some.
    + exists (col_name "rsi" p, map rsi_of (zip_with num_div (rsi_avg_gain p (num_col "close" s))
                                                       (rsi_avg_loss p (num_col "close" s)))).
      split; [|reflexivity]. simpl. apply in_map_iff. exists p. split; [reflexivity|exact Hp].
    + intros w Hin Hf. simpl in Hin. apply in_map_iff in Hin as [p' [<- _]].
      simpl in Hf |- *. apply col_name_inj in Hf. subst p'. reflexivity.
  - rewrite length_map, length_zip_with. unfold rsi_avg_gain, rsi_avg_loss.
    rewrite !length_rolling, length_map. unfold where0. rewrite !length_map, length_diff, Hn. lia.
Qed.

Lemma rsi_of_zero_loss g z :
  num_eqb z (Fin 0) = true ->
  (num_ltb (Fin 0) g = true -> num_eqb (rsi_of (num_div g z)) (Fin 100) = true) /\
  (num_eqb g (Fin 0) = true -> is_nan (rsi_of (num_div g z)) = true).
Proof.
  intros Hz. destruct z as [q| | |]; try discriminate. simpl in Hz. split.
  - intros Hg. destruct g as [a| | |]; try discriminate.
    + assert (Hgt : (a ?= 0) = Gt).
      { apply Qgt_alt. simpl in Hg. apply Bool.negb_true_iff in Hg.
        apply Qnot_le_lt. intros Hle. apply Qle_bool_iff in Hle. congruence. }
      unfold rsi_of. simpl. rewrite Hz, Hgt. reflexivity.
    + unfold rsi_of. simpl. rewrite Hz. reflexivity.
  - intros Hg. destruct g as [a| | |]; try discriminate.
    assert (Heq : (a ?= 0) = Eq) by (apply Qeq_alt, Qeq_bool_iff, Hg).
    unfold rsi_of. simpl. rewrite Hz, Heq. reflexivity.
Qed.

(** ** C6, as stated: where the average loss is 0 the RSI is a number, never
    NaN.  At the first row of any series both averages are 0 (the first
    difference is NaN and [where] turns it into 0), and the RSI there is
    NaN. *)
Lemma rsi_first_row_nan :
  let cl := num_col "close" (run (calculate_rsi argsort_ins None) sample) in
  num_eqb (nth 0 (rsi_avg_loss 6 cl) NaN) (Fin 0) = true /\
  is_nan (nth 0 (num_col "rsi6" (run (calculate_rsi argsort_ins None) sample)) NaN) = true.
Proof. vm_compute. split; reflexivity. Qed.

(** ** C6, as the code has it: at a row whose average loss is 0, the RSI is
    100 when the average gain is positive and NaN when it is 0 too; the
    first row is always of the second kind. *)
Theorem rsi_zero_loss (argsort : list cell -> list nat) (ps : option (list nat)) (df : frame) (p : nat) :
  argsort_spec argsort -> wf df -> guarded (IRsi ps) df = false -> In p (default rsi_periods ps) ->
  let cl := num_col "close" (run (calculate_rsi argsort ps) df) in
  let rsi := num_col (col_name "rsi" p) (run (calculate_rsi argsort ps) df) in
  length rsi = length cl /\
  (forall i, (i < length cl)%nat ->
     num_eqb (nth i (rsi_avg_loss p cl) NaN) (Fin 0) = true ->
     (num_ltb (Fin 0) (nth i (rsi_avg_gain p cl) NaN) = true -> num_eqb (nth i rsi NaN) (Fin 100) = true) /\
     (num_eqb (nth i (rsi_avg_gain p cl) NaN) (Fin 0) = true -> is_nan (nth i rsi NaN) = true)) /\
  ((1 <= p)%nat ->
     num_eqb (nth 0 (rsi_avg_loss p cl) NaN) (Fin 0) = true /\
     num_eqb (nth 0 (rsi_avg_gain p cl) NaN) (Fin 0) = true /\
     is_nan (nth 0 rsi NaN) = true).
Proof.
  intros Hs Hw Hg Hp cl rsi.
  destruct (rsi_column argsort ps df p Hs Hw Hg Hp) as [Hne Hr]. fold cl in Hne, Hr. fold rsi in Hr.
  assert (Hlg : length (rsi_avg_gain p cl) = length cl)
    by (unfold rsi_avg_gain, where0; rewrite length_rolling, length_map, length_diff; reflexivity).
  assert (Hll : length (rsi_avg_loss p cl) = length cl)
    by (unfold rsi_avg_loss, where0; rewrite length_rolling, !length_map, length_diff; reflexivity).
  assert (Hnth : forall i, (i < length cl)%nat ->
            nth i rsi NaN = rsi_of (num_div (nth i (rsi_avg_gain p cl) NaN) (nth i (rsi_avg_loss p cl) NaN))).
  { intros i Hi. rewrite Hr, (nth_map_in _ _ i NaN NaN) by (rewrite length_zip_with; lia).
    rewrite (nth_zip_with _ _ _ i NaN NaN) by lia. reflexivity. }
  assert (Hpt : forall i, (i < length cl)%nat ->
     num_eqb (nth i (rsi_avg_loss p cl) NaN) (Fin 0) = true ->
     (num_ltb (Fin 0) (nth i (rsi_avg_gain p cl) NaN) = true -> num_eqb (nth i rsi NaN) (Fin 100) = true) /\
     (num_eqb (nth i (rsi_avg_gain p cl) NaN) (Fin 0) = true -> is_nan (nth i rsi NaN) = true)).
  { intros i Hi Hz. rewrite (Hnth i Hi). apply rsi_of_zero_loss, Hz. }
  split; [rewrite Hr, length_map, length_zip_with, Hlg, Hll; lia|].
  split; [exact Hpt|].
  intros H1. destruct cl as [|x rest] eqn:Ecl; [contradiction Hne; reflexivity|].
  assert (H0 : (0 < length (x :: rest))%nat) by (simpl; lia).
  assert (Hz : num_eqb (nth 0 (rsi_avg_loss p (x :: rest)) NaN) (Fin 0) = true).
  { unfold rsi_avg_loss. rewrite nth_rolling by (rewrite length_map; unfold where0; rewrite length_map, length_diff; simpl; lia).
    change (map num_neg (where0 (fun y => num_ltb y (Fin 0)) (diff (x :: rest))))
      with (Fin (- 0) :: map num_neg (where0 (fun y => num_ltb y (Fin 0)) (zip_with num_sub rest (x :: rest)))).
    rewrite window_first by exact H1. reflexivity. }
  assert (Hz' : num_eqb (nth 0 (rsi_avg_gain p (x :: rest)) NaN) (Fin 0) = true).
  { unfold rsi_avg_gain. rewrite nth_rolling by (unfold where0; rewrite length_map, length_diff; simpl; lia).
    change (where0 (fun y => num_ltb (Fin 0) y) (diff (x :: rest)))
      with (Fin 0 :: where0 (fun y => num_ltb (Fin 0) y) (zip_with num_sub rest (x :: rest))).
    rewrite window_first by exact H1. reflexivity. }
  split; [exact Hz|]. split; [exact Hz'|]. exact (proj2 (Hpt 0%nat H0 Hz) Hz').
Qed.

Lemma rsi_zero_loss_witness :
  let cl := num_col "close" (run (calculate_rsi argsort_ins None) sample) in
  let rsi := num_col (col_name "rsi" 6) (run (calculate_rsi argsort_ins None) sample) in
  argsort_spec argsort_ins /\ wf sample /\ guarded (IRsi None) sample = false /\
  In 6%nat (default rsi_periods None) /\
  (length rsi = length cl /\
   (forall i, (i < length cl)%nat ->
      num_eqb (nth i (rsi_avg_loss 6 cl) NaN) (Fin 0) = true ->
      (num_ltb (Fin 0) (nth i (rsi_avg_gain 6 cl) NaN) = true -> num_eqb (nth i rsi NaN) (Fin 100) = true) /\
      (num_eqb (nth i (rsi_avg_gain 6 cl) NaN) (Fin 0) = true -> is_nan (nth i rsi NaN) = true)) /\
   ((1 <= 6)%nat ->
      num_eqb (nth 0 (rsi_avg_loss 6 cl) NaN) (Fin 0) = true /\
      num_eqb (nth 0 (rsi_avg_gain 6 cl) NaN) (Fin 0) = true /\
      is_nan (nth 0 rsi NaN) = true)).
Proof.
  intros cl rsi.
  assert (Hg : guarded (IRsi None) sample = false) by reflexivity.
  assert (Hp : In 6%nat (default rsi_periods None)) by (simpl; tauto).
  split; [exact argsort_ins_spec|]. split; [exact wf_sample|]. split; [exact Hg|]. split; [exact Hp|].
  exact (rsi_zero_loss argsort_ins None sample 6 argsort_ins_spec wf_sample Hg Hp).
Defined.

End IndicatorClaims.

(* ================================================================== *)
(** ** Helpers of [utils.py]: [format_date] and [validate_stock_code]
    The strings [format_date] works on are modelled as Rocq strings of
    ASCII characters (the dates it receives are ASCII text); the strings
    of [validate_stock_code] as lists of Unicode code points. *)
(* ================================================================== *)

Module Utils.

Import Stdlib.Strings.Ascii.

Inductive pyresult (A : Type) :=
| Ok (a : A)
| Raised (exn : string).
Arguments Ok {A} a.
Arguments Raised {A} exn.

Definition chars (s : string) : list Ascii.ascii := String.list_ascii_of_string s.

(** [s.replace(c, '')] for a one-character [c]. *)
Fixpoint remove_char (c : Ascii.ascii) (s : string) : string :=
  match s with
  | EmptyString => EmptyString
  | String a s' => if Ascii.eqb a c then remove_char c s' else String a (remove_char c s')
  end.

(** A [date] or [datetime] object; [strftime] is the library's. *)
Record pydate := mk_pydate { year : Z; month : Z; day : Z }.

(** The argument of [format_date]: a [str], a [date]/[datetime], or any
    other object. *)
Inductive date_input :=
| DStr (s : string)
| DDate (d : pydate)
| DOther.

Section FormatDate.

(** [date.strftime(fmt)] *)
Variable strftime : pydate -> string -> string.

(** [format_date] ([utils.py], lines 22-47) *)
Definition format_date (date_input : date_input) (format_type : string) : pyresult string :=
  match date_input with
  | DStr s =>
      let clean_date := remove_char "/"%char (remove_char "-"%char s) in
      if String.eqb format_type "tushare" then Ok clean_date
      else if String.eqb format_type "yahoo" then
        if Nat.eqb (String.length clean_date) 8 then
          Ok (String.append (String.substring 0 4 clean_date)
               (String.append "-" (String.append (String.substring 4 2 clean_date)
                 (String.append "-" (String.substring 6 2 clean_date)))))
        else Raised "ValueError"
      else Raised "ValueError"
  | DDate d =>
      if String.eqb format_type "tushare" then Ok (strftime d "%Y%m%d")
      else if String.eqb format_type "yahoo" then Ok (strftime d "%Y-%m-%d")
      else Raised "ValueError"
  | DOther => Raised "ValueError"
  end.

End FormatDate.

(** *** Removing a character *)
Lemma remove_char_app c s1 s2 :
  remove_char c (String.append s1 s2) = String.append (remove_char c s1) (remove_char c s2).
Proof.
  induction s1 as [|a s1 IH]; [reflexivity|]. simpl. rewrite IH.
  destruct (Ascii.eqb a c); reflexivity.
Qed.

Lemma remove_char_in c a s : In a (chars (remove_char c s)) -> In a (chars s) /\ a <> c.
Proof.
  induction s as [|b s IH]; simpl; [tauto|].
  destruct (Ascii.eqb_spec b c) as [->|Hne]; intros H.
  - destruct (IH H). split; [right|]; assumption.
  - destruct H as [<-|H]; [split; [left; reflexivity|exact Hne]|].
    destruct (IH H). split; [right|]; assumption.
Qed.

Lemma remove_char_id c s : ~ In c (chars s) -> remove_char c s = s.
Proof.
  induction s as [|a s IH]; intros H; [reflexivity|]. simpl in H |- *.
  destruct (Ascii.eqb_spec a c) as [->|Hne]; [exfalso; apply H; left; reflexivity|].
  rewrite IH; [reflexivity|]. intros Hc. apply H. right. exact Hc.
Qed.

Lemma chars_append s1 s2 : chars (String.append s1 s2) = chars s1 ++ chars s2.
Proof. unfold chars. induction s1 as [|a s1 IH]; [reflexivity|]. simpl. rewrite IH. reflexivity. Qed.

Lemma length_chars s : List.length (chars s) = String.length s.
Proof. unfold chars. induction s as [|a s IH]; [reflexivity|]. simpl. rewrite IH. reflexivity. Qed.

Lemma substring_in n m s a : In a (chars (String.substring n m s)) -> In a (chars s).
Proof.
  unfold chars. revert n m; induction s as [|b s IH]; intros n m H.
  - destruct n, m; simpl in H; tauto.
  - destruct n as [|n]; [destruct m as [|m]|]; simpl in H |- *; [tauto| |].
    + destruct H as [<-|H]; [left; reflexivity|right; exact (IH 0%nat m H)].
    + right. exact (IH n m H).
Qed.

(** An eight-character string is the concatenation of its three slices. *)
Lemma substring_8 t :
  String.length t = 8%nat ->
  String.append (String.substring 0 4 t) (String.append (String.substring 4 2 t) (String.substring 6 2 t)) = t.
Proof.
  intros H.
  do 8 (destruct t as [|? t]; [simpl in H; lia|]).
  destruct t; [reflexivity|simpl in H; lia].
Qed.

(** *** Properties of [format_date] *)

(** The 'tushare' format of a string is the string without its '-' and '/'
    characters: it keeps only characters of the input, never contains a
    separator, and formatting it again gives it back unchanged. *)
Theorem format_date_tushare_clean (strftime : pydate -> string -> string) (s : string) :
  exists t, format_date strftime (DStr s) "tushare" = Ok t /\
    ~ In "-"%char (chars t) /\ ~ In "/"%char (chars t) /\
    (forall a, In a (chars t) -> In a (chars s)) /\
    format_date strftime (DStr t) "tushare" = Ok t.
Proof.
  exists (remove_char "/"%char (remove_char "-"%char s)). split; [reflexivity|].
  assert (Hin : forall a, In a (chars (remove_char "/"%char (remove_char "-"%char s))) ->
            In a (chars s) /\ a <> "-"%char /\ a <> "/"%char).
  { intros a H. apply remove_char_in in H as [H H1]. apply remove_char_in in H as [H H2]. tauto. }
  split; [intros H; apply Hin in H; tauto|].
  split; [intros H; apply Hin in H; tauto|].
  split; [intros a H; apply Hin in H; tauto|].
  simpl. rewrite (remove_char_id "-"%char), (remove_char_id "/"%char); [reflexivity| |];
    intros H; apply Hin in H; tauto.
Qed.

(** 'yahoo' formatting of a string succeeds exactly when the cleaned
    ('tushare') string has 8 characters, and otherwise raises [ValueError].
    On success the result has 10 characters with '-' at positions 4 and 7;
    cleaning it gives back the 'tushare' string, and formatting it again as
    'yahoo' gives it back unchanged. *)
Theorem format_date_yahoo (strftime : pydate -> string -> string) (s t : string) :
  format_date strftime (DStr s) "tushare" = Ok t ->
  (String.length t = 8%nat ->
   exists y, format_date strftime (DStr s) "yahoo" = Ok y /\
     String.length y = 10%nat /\ String.get 4 y = Some "-"%char /\ String.get 7 y = Some "-"%char /\
     format_date strftime (DStr y) "tushare" = Ok t /\
     format_date strftime (DStr y) "yahoo" = Ok y) /\
  (String.length t <> 8%nat -> format_date strftime (DStr s) "yahoo" = Raised "ValueError").
Proof.
  intros H. simpl in H. injection H as Ht.
  assert (Hno : forall a, In a (chars t) -> a <> "-"%char /\ a <> "/"%char).
  { intros a Ha. rewrite <- Ht in Ha.
    apply remove_char_in in Ha as [Ha H1]. apply remove_char_in in Ha as [Ha H2]. tauto. }
  split.
  - intros Hl.
    set (y := String.append (String.substring 0 4 t) (String.append "-" (String.append
               (String.substring 4 2 t) (String.append "-" (String.substring 6 2 t))))).
    assert (Hclean : remove_char "/"%char (remove_char "-"%char y) = t).
    { assert (Hsub : forall n m, remove_char "-"%char (String.substring n m t) = String.substring n m t).
      { intros n m. apply remove_char_id. intros Hs. apply substring_in in Hs. apply Hno in Hs. tauto. }
      unfold y. rewrite !(remove_char_app "-"%char), !Hsub.
      change (remove_char "-"%char "-") with "".
      rewrite !(fun z => eq_refl : String.append "" z = z).
      rewrite (substring_8 t Hl).
      apply remove_char_id. intros Hs. apply Hno in Hs. tauto. }
    assert (Hy : String.length y = 10%nat /\ String.get 4 y = Some "-"%char /\
                 String.get 7 y = Some "-"%char).
    { unfold y. clear Hclean Hno Ht.
      do 8 (destruct t as [|? t]; [simpl in Hl; lia|]).
      destruct t; [|simpl in Hl; lia]. repeat split; reflexivity. }
    exists y. simpl. rewrite Ht, Hl. simpl.
    split; [reflexivity|]. split; [tauto|]. split; [tauto|]. split; [tauto|].
    rewrite Hclean. split; [reflexivity|]. rewrite Hl. reflexivity.
  - intros Hl. simpl. rewrite Ht. apply Nat.eqb_neq in Hl. rewrite Hl. reflexivity.
Qed.

Lemma format_date_yahoo_witness :
  format_date (fun _ _ => "") (DStr "2024/01-15") "tushare" = Ok "20240115" /\
  ((String.length "20240115" = 8%nat ->
   exists y, format_date (fun _ _ => "") (DStr "2024/01-15") "yahoo" = Ok y /\
     String.length y = 10%nat /\ String.get 4 y = Some "-"%char /\ String.get 7 y = Some "-"%char /\
     format_date (fun _ _ => "") (DStr y) "tushare" = Ok "20240115" /\
     format_date (fun _ _ => "") (DStr y) "yahoo" = Ok y) /\
  (String.length "20240115" <> 8%nat ->
   format_date (fun _ _ => "") (DStr "2024/01-15") "yahoo" = Raised "ValueError")).
Proof.
  split; [reflexivity|]. apply format_date_yahoo. reflexivity.
Defined.

(** *** [validate_stock_code]
    A Python [str] is a sequence of Unicode code points, and [str.isdigit]
    and [str.isalpha] test each code point against the Unicode database:
    the fullwidth digits U+FF10..U+FF19 and the superscripts U+00B2, U+00B3
    and U+00B9 are digits, for instance.  The test of one code point is a
    parameter of the section below. *)

(** A Python [str]: the list of its code points. *)
Definition pystr := list N.

(** The [str] literal of an ASCII text. *)
Definition lit (s : string) : pystr := map Ascii.N_of_ascii (chars s).

(** The code point of '.'. *)
Definition dot : N := 46%N.

(** [s == t] *)
Definition str_eqb (s t : pystr) : bool := bool_decide (s = t).

(** [s.split(c)] for a one-character separator [c]. *)
Fixpoint split_on (c : N) (s : pystr) : list pystr :=
  match s with
  | [] => [[]]
  | a :: s' =>
      if N.eqb a c then [] :: split_on c s'
      else match split_on c s' with
           | [] => [[a]]
           | p :: ps => (a :: p) :: ps
           end
  end.

(** [c in s] for a one-character [c]. *)
Definition contains (c : N) (s : pystr) : bool := existsb (N.eqb c) s.

Fixpoint count_char (c : N) (s : pystr) : nat :=
  match s with
  | [] => 0
  | a :: s' => (if N.eqb a c then 1 else 0) + count_char c s'
  end.

Section ValidateStockCode.

(** [ch.isdigit()] and [ch.isalpha()] for the one-code-point string [ch]. *)
Variables isdigit_cp isalpha_cp : N -> bool.

(** [str.isdigit()] and [str.isalpha()]: false on ''. *)
Definition isdigit (s : pystr) : bool := negb (str_eqb s []) && forallb isdigit_cp s.

Definition isalpha (s : pystr) : bool := negb (str_eqb s []) && forallb isalpha_cp s.

(** [validate_stock_code] ([utils.py], lines 50-80).  The unpacking
    [symbol, suffix = stock_code.split('.')] raises [ValueError] unless the
    split gives exactly two pieces. *)
Definition validate_stock_code (stock_code market : pystr) : pyresult bool :=
  if str_eqb stock_code [] then Ok false
  else if str_eqb market (lit "cn") then
    if negb (contains dot stock_code) then Ok false
    else match split_on dot stock_code with
         | [symbol; suffix] =>
             Ok (Nat.eqb (List.length symbol) 6 && isdigit symbol &&
                 existsb (str_eqb suffix) [lit "SH"; lit "SZ"; lit "BJ"])
         | _ => Raised "ValueError"
         end
  else if str_eqb market (lit "hk") then
    if negb (contains dot stock_code) then Ok false
    else match split_on dot stock_code with
         | [symbol; suffix] =>
             Ok (Nat.eqb (List.length symbol) 5 && isdigit symbol && str_eqb suffix (lit "HK"))
         | _ => Raised "ValueError"
         end
  else if str_eqb market (lit "us") then
    Ok (isalpha stock_code && Nat.leb (List.length stock_code) 5)
  else Ok false.

(** **** Splitting on a character *)
Lemma split_on_nonempty c s : split_on c s <> [].
Proof.
  destruct s as [|a s]; simpl; [discriminate|].
  destruct (N.eqb a c); [discriminate|]. destruct (split_on c s); discriminate.
Qed.

Lemma length_split_on c s : List.length (split_on c s) = S (count_char c s).
Proof.
  induction s as [|a s IH]; [reflexivity|]. simpl.
  destruct (N.eqb a c); simpl; [rewrite IH; reflexivity|].
  destruct (split_on c s) eqn:E; [exfalso; exact (split_on_nonempty c s E)|]. simpl in *. exact IH.
Qed.

Lemma contains_count c s : contains c s = (0 <? count_char c s)%nat.
Proof.
  unfold contains. induction s as [|a s IH]; [reflexivity|]. simpl. rewrite IH.
  rewrite N.eqb_sym. destruct (N.eqb a c); reflexivity.
Qed.

Lemma count_char_zero c s : count_char c s = 0%nat <-> ~ In c s.
Proof.
  induction s as [|a s IH]; simpl; [tauto|].
  destruct (N.eqb_spec a c) as [->|Hne]; simpl.
  - split; [discriminate|]. intros H. exfalso. apply H. left. reflexivity.
  - rewrite IH. split; intros H; [intros [E|E]; [exact (Hne E)|exact (H E)]|intros E; apply H; right; exact E].
Qed.

Lemma split_on_none c y : ~ In c y -> split_on c y = [y].
Proof.
  induction y as [|a y IH]; intros H; [reflexivity|]. simpl in H |- *.
  destruct (N.eqb_spec a c) as [->|Hne]; [exfalso; apply H; left; reflexivity|].
  rewrite IH; [reflexivity|]. intros E. apply H. right. exact E.
Qed.

Lemma split_on_two c s x y : split_on c s = [x; y] -> s = x ++ c :: y /\ ~ In c x /\ ~ In c y.
Proof.
  revert x; induction s as [|a s IH]; intros x H; simpl in H; [discriminate|].
  destruct (N.eqb_spec a c) as [->|Hne].
  - injection H as <- Hs.
    assert (Hc : count_char c s = 0%nat).
    { pose proof (length_split_on c s) as L. rewrite Hs in L. simpl in L. lia. }
    apply count_char_zero in Hc.
    rewrite (split_on_none c s Hc) in Hs. injection Hs as ->.
    split; [reflexivity|split; [simpl; tauto|exact Hc]].
  - destruct (split_on c s) as [|p ps] eqn:E; [discriminate|].
    injection H as <- Hps. subst ps. destruct (IH p eq_refl) as [Hs [Hx Hy]].
    split; [simpl; rewrite Hs; reflexivity|]. split; [|exact Hy].
    simpl. intros [E'|E']; [exact (Hne E')|exact (Hx E')].
Qed.

Lemma split_on_join c x y : ~ In c x -> ~ In c y -> split_on c (x ++ c :: y) = [x; y].
Proof.
  intros Hx Hy. induction x as [|a x IH]; simpl.
  - rewrite N.eqb_refl, (split_on_none c y Hy). reflexivity.
  - simpl in Hx. destruct (N.eqb_spec a c) as [->|Hne]; [exfalso; apply Hx; left; reflexivity|].
    rewrite IH; [reflexivity|]. intros E. apply Hx. right. exact E.
Qed.

Lemma contains_join c x y : contains c (x ++ c :: y) = true.
Proof.
  unfold contains. rewrite existsb_app. simpl. rewrite N.eqb_refl, orb_true_r. reflexivity.
Qed.

Lemma str_eqb_refl s : str_eqb s s = true.
Proof. unfold str_eqb. apply bool_decide_eq_true_2. reflexivity. Qed.

Lemma str_eqb_join x y : str_eqb (x ++ dot :: y) [] = false.
Proof. unfold str_eqb. apply bool_decide_eq_false_2. destruct x; discriminate. Qed.

(** **** The branches of the A-share and Hong Kong codes *)
Lemma dot_branch_raises (g : pystr -> pystr -> bool) s e :
  (if negb (contains dot s) then Ok false
   else match split_on dot s with
        | [symbol; suffix] => Ok (g symbol suffix)
        | _ => Raised "ValueError"
        end) = Raised e <-> e = "ValueError" /\ (2 <= count_char dot s)%nat.
Proof.
  rewrite contains_count.
  pose proof (length_split_on dot s) as L.
  destruct (split_on dot s) as [|x [|y [|z r]]];
    simpl in L; [discriminate| | |]; injection L as L; rewrite <- L; simpl.
  - split; [discriminate|lia].
  - split; [discriminate|lia].
  - split; [intros H; injection H as <-; split; [reflexivity|lia]|intros [-> _]; reflexivity].
Qed.

Lemma dot_branch_accepts (g : pystr -> pystr -> bool) s :
  (if negb (contains dot s) then Ok false
   else match split_on dot s with
        | [symbol; suffix] => Ok (g symbol suffix)
        | _ => Raised "ValueError"
        end) = Ok true ->
  exists symbol suffix, s = symbol ++ dot :: suffix /\ ~ In dot symbol /\ g symbol suffix = true.
Proof.
  intros H. destruct (negb (contains dot s)); [discriminate|].
  destruct (split_on dot s) as [|x [|y [|z r]]] eqn:E; try discriminate.
  injection H as H. destruct (split_on_two _ _ _ _ E) as [Hs [Hx _]].
  exists x, y. split; [exact Hs|]. split; assumption.
Qed.

Lemma dot_branch_join (g : pystr -> pystr -> bool) x y :
  ~ In dot x -> ~ In dot y ->
  (if negb (contains dot (x ++ dot :: y)) then Ok false
   else match split_on dot (x ++ dot :: y) with
        | [symbol; suffix] => Ok (g symbol suffix)
        | _ => Raised "ValueError"
        end) = Ok (g x y).
Proof. intros Hx Hy. rewrite contains_join, split_on_join by assumption. reflexivity. Qed.

Lemma isdigit_length (x : pystr) n :
  List.length x = S n -> isdigit x = forallb isdigit_cp x.
Proof. intros H. destruct x; [discriminate|]. reflexivity. Qed.

(** **** Properties of [validate_stock_code] *)

(** [validate_stock_code] raises exactly for an A-share or Hong Kong code
    with two or more '.' characters (the two-name unpacking of
    [split('.')] fails), and the exception is [ValueError]; every other
    input gives a boolean. *)
Theorem validate_stock_code_raises (stock_code market : pystr) (e : string) :
  validate_stock_code stock_code market = Raised e <->
  e = "ValueError" /\ (market = lit "cn" \/ market = lit "hk") /\ (2 <= count_char dot stock_code)%nat.
Proof.
  unfold validate_stock_code, str_eqb at 1 2 3 4.
  destruct (bool_decide (stock_code = [])) eqn:E0.
  { apply bool_decide_eq_true in E0. subst stock_code. simpl. split; [discriminate|lia]. }
  destruct (bool_decide (market = lit "cn")) eqn:Ecn.
  - apply bool_decide_eq_true in Ecn.
    refine (iff_trans (dot_branch_raises (fun symbol suffix =>
                 Nat.eqb (List.length symbol) 6 && isdigit symbol &&
                 existsb (str_eqb suffix) [lit "SH"; lit "SZ"; lit "BJ"]) stock_code e) _).
    split; [intros [? ?]; repeat split; auto|tauto].
  - apply bool_decide_eq_false in Ecn.
    destruct (bool_decide (market = lit "hk")) eqn:Ehk.
    + apply bool_decide_eq_true in Ehk.
      refine (iff_trans (dot_branch_raises (fun symbol suffix =>
                 Nat.eqb (List.length symbol) 5 && isdigit symbol && str_eqb suffix (lit "HK"))
                 stock_code e) _).
      split; [intros [? ?]; repeat split; auto|tauto].
    + apply bool_decide_eq_false in Ehk.
      assert (Hr : forall b : bool, Ok b = Raised e <-> e = "ValueError" /\ (market = lit "cn" \/ market = lit "hk") /\
                    (2 <= count_char dot stock_code)%nat) by (intros b; split; [discriminate|tauto]).
      destruct (str_eqb market (lit "us")); apply Hr.
Qed.

(** An A-share code is accepted exactly when it is a symbol of six digits
    (code points that [isdigit] accepts, '.' not among them), one '.', and
    one of the suffixes SH, SZ or BJ. *)
Theorem validate_stock_code_cn_accepts (stock_code : pystr) :
  validate_stock_code stock_code (lit "cn") = Ok true <->
  exists symbol suffix, stock_code = symbol ++ dot :: suffix /\ ~ In dot symbol /\
    List.length symbol = 6%nat /\ forallb isdigit_cp symbol = true /\
    In suffix [lit "SH"; lit "SZ"; lit "BJ"].
Proof.
  split.
  - unfold validate_stock_code. rewrite str_eqb_refl.
    destruct (str_eqb stock_code []); [discriminate|].
    intros H. apply dot_branch_accepts in H as (x & y & Hs & Hx & Hg).
    exists x, y. split; [exact Hs|]. split; [exact Hx|].
    apply andb_prop in Hg as [Hg Hsuf]. apply andb_prop in Hg as [Hl Hd].
    apply Nat.eqb_eq in Hl. rewrite (isdigit_length x 5 Hl) in Hd.
    split; [exact Hl|]. split; [exact Hd|].
    apply existsb_exists in Hsuf as (z & Hz & E). unfold str_eqb in E.
    apply bool_decide_eq_true in E. subst z. exact Hz.
  - intros (x & y & -> & Hx & Hl & Hd & Hy).
    assert (Hny : ~ In dot y) by (destruct Hy as [<-|[<-|[<-|[]]]]; vm_compute; intros [E|[E|[]]]; discriminate E).
    unfold validate_stock_code. rewrite str_eqb_join, str_eqb_refl.
    rewrite dot_branch_join by assumption.
    rewrite Hl, (isdigit_length x 5 Hl), Hd.
    destruct Hy as [<-|[<-|[<-|[]]]]; reflexivity.
Qed.

(** A Hong Kong code is accepted exactly when it is a symbol of five digits
    (code points that [isdigit] accepts, '.' not among them) followed by
    '.HK'. *)
Theorem validate_stock_code_hk_accepts (stock_code : pystr) :
  validate_stock_code stock_code (lit "hk") = Ok true <->
  exists symbol, stock_code = symbol ++ lit ".HK" /\ ~ In dot symbol /\
    List.length symbol = 5%nat /\ forallb isdigit_cp symbol = true.
Proof.
  assert (Hne : str_eqb (lit "hk") (lit "cn") = false) by reflexivity.
  assert (HK : lit ".HK" = dot :: lit "HK") by reflexivity.
  split.
  - unfold validate_stock_code. rewrite Hne, str_eqb_refl.
    destruct (str_eqb stock_code []); [discriminate|].
    intros H. apply dot_branch_accepts in H as (x & y & Hs & Hx & Hg).
    exists x.
    apply andb_prop in Hg as [Hg Hsuf]. apply andb_prop in Hg as [Hl Hd].
    apply Nat.eqb_eq in Hl. rewrite (isdigit_length x 4 Hl) in Hd.
    unfold str_eqb in Hsuf. apply bool_decide_eq_true in Hsuf. subst y.
    rewrite HK. split; [exact Hs|]. split; [exact Hx|]. split; assumption.
  - intros (x & -> & Hx & Hl & Hd). rewrite HK.
    unfold validate_stock_code. rewrite str_eqb_join, Hne, str_eqb_refl.
    rewrite dot_branch_join by (exact Hx || (vm_compute; intros [E|[E|[]]]; discriminate E)).
    rewrite Hl, (isdigit_length x 4 Hl), Hd. reflexivity.
Qed.

End ValidateStockCode.

(** Decimal digits of the ASCII and fullwidth forms, a part of the Unicode
    table of [isdigit]. *)
Definition isdigit_ascii_fullwidth (n : N) : bool :=
  ((48 <=? n) && (n <=? 57))%N || ((65296 <=? n) && (n <=? 65305))%N.

(** '０００００１.SZ', in fullwidth digits, is an accepted A-share code. *)
Lemma validate_stock_code_fullwidth :
  validate_stock_code isdigit_ascii_fullwidth (fun _ => false)
    ([65296; 65296; 65296; 65296; 65296; 65297]%N ++ lit ".SZ") (lit "cn") = Ok true.
Proof. vm_compute. reflexivity. Qed.

End Utils.

(* ================================================================== *)
(** ** [async_request] ([utils.py], lines 84-137): retries with
    exponential back-off.  The network is a function giving, for each
    attempt, what [session.request] does: a response with its status and
    the result of [response.json()] (a body or an exception), or an
    exception raised by the request itself.  The run is recorded as a trace
    of requests and [asyncio.sleep] calls. *)
(* ================================================================== *)

Module AsyncRequest.

Local Open Scope Z_scope.

(** Exceptions, and the messages of [DataFlowException]: [f"...状态码: {status}"],
    ["请求超时"] and [f"请求异常: {e}"]. *)
Inductive exc :=
| DataFlowException (m : message)
| TimeoutError
| OtherException (name : string)
with message :=
| MStatus (status : Z)
| MTimeout
| MException (e : exc).

Inductive event :=
| Request (attempt : nat)
| Sleep (seconds : Z).

Section Request.

(** The JSON value type and the behaviour of the server at each attempt. *)
Variable J : Type.

Inductive outcome :=
| Response (status : Z) (body : J + exc)
| Raises (e : exc).

Inductive aresult :=
| AOk (j : J)
| ANone
| ARaise (e : exc).

Variable resp : nat -> outcome.

(** What one iteration of the loop does: finish with a result, or sleep
    and go on with the next attempt. *)
Inductive step :=
| Done (r : aresult)
| Retry.

(** The two [except] clauses. *)
Definition handle (max_retries : Z) (attempt : nat) (e : exc) : step :=
  match e with
  | TimeoutError =>
      if (Z.of_nat attempt <? max_retries)%Z then Retry
      else Done (ARaise (DataFlowException MTimeout))
  | _ =>
      if (Z.of_nat attempt <? max_retries)%Z then Retry
      else Done (ARaise (DataFlowException (MException e)))
  end.

(** The body of the [try]. *)
Definition attempt_step (max_retries : Z) (attempt : nat) (o : outcome) : step :=
  match o with
  | Response status body =>
      if (status =? 200)%Z then
        match body with
        | inl j => Done (AOk j)
        | inr e => handle max_retries attempt e
        end
      else if (Z.of_nat attempt <? max_retries)%Z then Retry
      else handle max_retries attempt (DataFlowException (MStatus status))
  | Raises e => handle max_retries attempt e
  end.

(** [for attempt in range(...)], from [attempt] on, with [fuel] iterations
    left. Falling off the end of the loop returns [None]. *)
Fixpoint attempts (max_retries : Z) (attempt : nat) (fuel : nat) : list event * aresult :=
  match fuel with
  | O => ([], ANone)
  | S fuel' =>
      match attempt_step max_retries attempt (resp attempt) with
      | Done r => ([Request attempt], r)
      | Retry =>
          let '(tr, r) := attempts max_retries (S attempt) fuel' in
          (Request attempt :: Sleep (2 ^ Z.of_nat attempt) :: tr, r)
      end
  end.

Definition async_request (max_retries : Z) : list event * aresult :=
  attempts max_retries 0 (Z.to_nat (max_retries + 1)).

End Request.

Arguments Response {J} status body.
Arguments Raises {J} e.
Arguments AOk {J} j.
Arguments ANone {J}.
Arguments ARaise {J} e.
Arguments Done {J} r.
Arguments Retry {J}.

(** A response that [async_request] returns: status 200 with a body. *)
Definition succeeds {J} (o : outcome J) : bool :=
  match o with
  | Response status (inl _) => (status =? 200)%Z
  | _ => false
  end.

(** The trace of [n] failed attempts, each followed by its back-off. *)
Definition backoff (n : nat) : list event :=
  flat_map (fun i => [Request i; Sleep (2 ^ Z.of_nat i)]) (seq 0 n).

Definition requests (tr : list event) : nat :=
  length (List.filter (fun ev => match ev with Request _ => true | _ => false end) tr).

Fixpoint total_sleep (tr : list event) : Z :=
  match tr with
  | [] => 0
  | Sleep s :: tr' => s + total_sleep tr'
  | _ :: tr' => total_sleep tr'
  end.

Lemma attempt_step_fail {J} max_retries attempt (o : outcome J) :
  (Z.of_nat attempt < max_retries)%Z -> succeeds o = false -> attempt_step J max_retries attempt o = Retry.
Proof.
  intros Hlt Hs. assert (E : (Z.of_nat attempt <? max_retries)%Z = true) by (apply Z.ltb_lt; exact Hlt).
  destruct o as [status [j|e]|e]; simpl in *.
  - rewrite Hs, E. reflexivity.
  - destruct (status =? 200)%Z; [|rewrite E; reflexivity].
    destruct e; simpl; rewrite E; reflexivity.
  - destruct e; simpl; rewrite E; reflexivity.
Qed.

Lemma attempt_step_retry {J} max_retries attempt (o : outcome J) :
  attempt_step J max_retries attempt o = Retry -> (Z.of_nat attempt < max_retries)%Z.
Proof.
  intros H. destruct (Z.of_nat attempt <? max_retries)%Z eqn:E; [apply Z.ltb_lt; exact E|].
  exfalso. unfold attempt_step, handle in H.
  destruct o as [status [j|e]|e]; [destruct (status =? 200)%Z|destruct (status =? 200)%Z|];
    rewrite ?E in H; try destruct e; discriminate H.
Qed.

Lemma backoff_S n : backoff (S n) = backoff n ++ [Request n; Sleep (2 ^ Z.of_nat n)].
Proof. unfold backoff. rewrite seq_S, flat_map_app. simpl. rewrite ?app_nil_r. reflexivity. Qed.

Lemma total_sleep_app tr1 tr2 : total_sleep (tr1 ++ tr2) = total_sleep tr1 + total_sleep tr2.
Proof. induction tr1 as [|[] tr1 IH]; simpl; [reflexivity|exact IH|rewrite IH; ring]. Qed.

Lemma requests_app tr1 tr2 : requests (tr1 ++ tr2) = (requests tr1 + requests tr2)%nat.
Proof. unfold requests. rewrite List.filter_app, length_app. reflexivity. Qed.

Lemma total_sleep_backoff n : total_sleep (backoff n) = 2 ^ Z.of_nat n - 1.
Proof.
  induction n as [|n IH]; [reflexivity|].
  rewrite backoff_S, total_sleep_app, IH. simpl total_sleep.
  rewrite Nat2Z.inj_succ, Z.pow_succ_r by lia. lia.
Qed.

Lemma requests_backoff n : requests (backoff n) = n.
Proof.
  induction n as [|n IH]; [reflexivity|].
  rewrite backoff_S, requests_app, IH. unfold requests. simpl. lia.
Qed.

(** The loop from attempt [a] on, when every attempt before [k] fails and
    there are enough iterations left to reach [k]. *)
Lemma attempts_until {J} (resp : nat -> outcome J) max_retries k :
  (Z.of_nat k <= max_retries)%Z ->
  (forall i, (i < k)%nat -> succeeds (resp i) = false) ->
  forall fuel a, (a <= k)%nat -> (k < a + fuel)%nat ->
  attempts J resp max_retries a fuel =
    let '(tr, r) := attempts J resp max_retries k (S (a + fuel - S k)) in
    (flat_map (fun i => [Request i; Sleep (2 ^ Z.of_nat i)]) (seq a (k - a)) ++ tr, r).
Proof.
  intros Hk Hf. induction fuel as [|fuel IH]; intros a Ha Hlt; [lia|].
  destruct (Nat.eq_dec a k) as [->|Hne].
  - replace (S (k + S fuel - S k)) with (S fuel) by lia. rewrite Nat.sub_diag. cbn [seq flat_map app].
    destruct (attempts J resp max_retries k (S fuel)). reflexivity.
  - simpl attempts at 1. rewrite attempt_step_fail by first [apply Hf; lia|lia].
    rewrite (IH (S a)) by lia.
    replace (k - a)%nat with (S (k - S a)) by lia. simpl seq. simpl flat_map.
    replace (S a + fuel - S k)%nat with (a + S fuel - S k)%nat by lia.
    destruct (attempts J resp max_retries k (S (a + S fuel - S k))). reflexivity.
Qed.

(** *** Properties of [async_request] *)

(** Whatever the server does, [async_request] makes at most
    [max_retries + 1] requests; it returns a body only if some attempt
    within the budget got that body with status 200; it only ever raises
    [DataFlowException]; and it returns [None] only when [max_retries] is
    negative. *)
Theorem async_request_outcomes {J} (resp : nat -> outcome J) (max_retries : Z) :
  let '(tr, r) := async_request J resp max_retries in
  (requests tr <= Z.to_nat (max_retries + 1))%nat /\
  (forall j, r = AOk j -> exists i, (Z.of_nat i <= max_retries)%Z /\ resp i = Response 200 (inl j)) /\
  (forall e, r = ARaise e -> exists m, e = DataFlowException m) /\
  (r = ANone -> (max_retries < 0)%Z).
Proof.
  unfold async_request.
  assert (G : forall fuel a, (Z.of_nat a + Z.of_nat fuel <= Z.of_nat (Z.to_nat (max_retries + 1)))%Z ->
    let '(tr, r) := attempts J resp max_retries a fuel in
    (requests tr <= fuel)%nat /\
    (forall j, r = AOk j -> exists i, (Z.of_nat i <= max_retries)%Z /\ resp i = Response 200 (inl j)) /\
    (forall e, r = ARaise e -> exists m, e = DataFlowException m) /\
    (r = ANone -> fuel = 0%nat \/ (Z.of_nat a + Z.of_nat fuel <= max_retries)%Z)).
  { induction fuel as [|fuel IH]; intros a Hb.
    - simpl. split; [unfold requests; simpl; lia|]. split; [intros; discriminate|]. split; [intros; discriminate|]. intros _. left. reflexivity.
    - simpl attempts.
      assert (Hh : forall e, handle J max_retries a e = Retry \/
                   exists m, handle J max_retries a e = Done (ARaise (DataFlowException m))).
      { intros e. unfold handle. destruct (Z.of_nat a <? max_retries)%Z; [left; destruct e; reflexivity|].
        right. destruct e; eexists; reflexivity. }
      assert (Hretry : (Z.of_nat a < max_retries)%Z -> let '(tr, r) := attempts J resp max_retries (S a) fuel in
        (requests (Request a :: Sleep (2 ^ Z.of_nat a) :: tr) <= S fuel)%nat /\
        (forall j, r = AOk j -> exists i, (Z.of_nat i <= max_retries)%Z /\ resp i = Response 200 (inl j)) /\
        (forall e, r = ARaise e -> exists m, e = DataFlowException m) /\
        (r = ANone -> S fuel = 0%nat \/ (Z.of_nat a + Z.of_nat (S fuel) <= max_retries)%Z)).
      { intros Ha. specialize (IH (S a) ltac:(lia)). destruct (attempts J resp max_retries (S a) fuel) as [tr r].
        destruct IH as (H1 & H2 & H3 & H4).
        split; [unfold requests in *; simpl; lia|]. split; [exact H2|]. split; [exact H3|].
        intros Hn. destruct (H4 Hn) as [->|Hlt]; right; lia. }
      assert (Hdone : forall r, attempt_step J max_retries a (resp a) = Done r ->
        (requests [Request a] <= S fuel)%nat /\
        (forall j, r = AOk j -> exists i, (Z.of_nat i <= max_retries)%Z /\ resp i = Response 200 (inl j)) /\
        (forall e, r = ARaise e -> exists m, e = DataFlowException m) /\
        (r = ANone -> S fuel = 0%nat \/ (Z.of_nat a + Z.of_nat (S fuel) <= max_retries)%Z)).
      { intros r Hr. split; [unfold requests; simpl; lia|].
        destruct (resp a) as [status [j|e]|e] eqn:Ea; simpl in Hr.
        - destruct (status =? 200)%Z eqn:Es.
          + injection Hr as <-. split; [|split; intros; discriminate].
            intros j' Hj. injection Hj as <-. exists a. apply Z.eqb_eq in Es. subst status.
            split; [lia|exact Ea].
          + destruct (Z.of_nat a <? max_retries)%Z; [discriminate|].
            simpl in Hr. injection Hr as <-. split; [intros; discriminate|].
            split; [intros e He; injection He as <-; eexists; reflexivity|intros; discriminate].
        - destruct (status =? 200)%Z.
          + destruct (Hh e) as [Hr'|[m Hm]]; rewrite Hr in *; [discriminate|].
            injection Hm as ->. split; [intros; discriminate|].
            split; [intros e' He; injection He as <-; eexists; reflexivity|intros; discriminate].
          + destruct (Z.of_nat a <? max_retries)%Z; [discriminate|].
            simpl in Hr. injection Hr as <-. split; [intros; discriminate|].
            split; [intros e' He; injection He as <-; eexists; reflexivity|intros; discriminate].
        - destruct (Hh e) as [Hr'|[m Hm]]; rewrite Hr in *; [discriminate|].
          injection Hm as ->. split; [intros; discriminate|].
          split; [intros e' He; injection He as <-; eexists; reflexivity|intros; discriminate]. }
      destruct (attempt_step J max_retries a (resp a)) as [r|] eqn:Es.
      + exact (Hdone r eq_refl).
      + apply attempt_step_retry in Es.
        destruct (attempts J resp max_retries (S a) fuel). exact (Hretry Es). }
  specialize (G (Z.to_nat (max_retries + 1)) 0%nat ltac:(lia)).
  destruct (attempts J resp max_retries 0 (Z.to_nat (max_retries + 1))) as [tr r].
  destruct G as (H1 & H2 & H3 & H4).
  split; [exact H1|]. split; [exact H2|]. split; [exact H3|].
  intros Hn. destruct (H4 Hn) as [E|Hlt]; lia.
Qed.

(** The first attempt [k] within the budget that gets status 200 with a
    body returns that body; before it, every failed attempt [i] was
    followed by a sleep of [2 ^ i] seconds. *)
Theorem async_request_first_success {J} (resp : nat -> outcome J) (max_retries : Z) (k : nat) (j : J) :
  (Z.of_nat k <= max_retries)%Z ->
  resp k = Response 200 (inl j) ->
  (forall i, (i < k)%nat -> succeeds (resp i) = false) ->
  async_request J resp max_retries = (backoff k ++ [Request k], AOk j).
Proof.
  intros Hk Hj Hf. unfold async_request.
  rewrite (attempts_until resp max_retries k Hk Hf) by lia.
  rewrite Nat.sub_0_r. simpl attempts. rewrite Hj. reflexivity.
Qed.

Lemma async_request_first_success_witness :
  (Z.of_nat 2 <= 3)%Z /\
  (fun i => if (i =? 2)%nat then Response 200 (inl 7%nat) else Raises TimeoutError) 2%nat =
    Response 200 (inl 7%nat) /\
  (forall i, (i < 2)%nat -> succeeds ((fun i => if (i =? 2)%nat then Response 200 (inl 7%nat)
                                                else Raises TimeoutError) i) = false) /\
  async_request nat (fun i => if (i =? 2)%nat then Response 200 (inl 7%nat) else Raises TimeoutError) 3 =
    (backoff 2 ++ [Request 2], AOk 7%nat).
Proof.
  assert (H1 : (Z.of_nat 2 <= 3)%Z) by lia.
  assert (H2 : (fun i => if (i =? 2)%nat then Response 200 (inl 7%nat) else Raises TimeoutError) 2%nat =
    Response (J := nat) 200 (inl 7%nat)) by reflexivity.
  assert (H3 : forall i, (i < 2)%nat -> succeeds ((fun i => if (i =? 2)%nat then Response 200 (inl 7%nat)
                                                else Raises (J := nat) TimeoutError) i) = false).
  { intros [|[|i]] Hi; [reflexivity|reflexivity|lia]. }
  split; [exact H1|]. split; [exact H2|]. split; [exact H3|].
  exact (async_request_first_success (J := nat) _ 3 2 7%nat H1 H2 H3).
Defined.

(** When all [max_retries + 1] attempts fail, [async_request] makes every
    one of them, sleeps [1, 2, ..., 2 ^ (max_retries - 1)] seconds in
    between ([2 ^ max_retries - 1] in all), and raises [DataFlowException].
    Its message wraps the last failure: a bad status [c] gives the wrapped
    [DataFlowException] for [c], a timeout gives the timeout message, and
    any other exception [e] gives the wrapped [e]. *)
Theorem async_request_exhausted {J} (resp : nat -> outcome J) (max_retries : Z) :
  (0 <= max_retries)%Z ->
  (forall i, (i <= Z.to_nat max_retries)%nat -> succeeds (resp i) = false) ->
  exists m,
    async_request J resp max_retries =
      (backoff (Z.to_nat max_retries) ++ [Request (Z.to_nat max_retries)], ARaise (DataFlowException m)) /\
    requests (backoff (Z.to_nat max_retries) ++ [Request (Z.to_nat max_retries)]) = Z.to_nat (max_retries + 1) /\
    total_sleep (backoff (Z.to_nat max_retries)) = 2 ^ max_retries - 1 /\
    (forall c b, resp (Z.to_nat max_retries) = Response c b -> c <> 200%Z ->
       m = MException (DataFlowException (MStatus c))) /\
    (forall e, resp (Z.to_nat max_retries) = Raises e \/ resp (Z.to_nat max_retries) = Response 200 (inr e) ->
       m = match e with TimeoutError => MTimeout | _ => MException e end).
Proof.
  intros H0 Hf. set (N := Z.to_nat max_retries).
  assert (HN : Z.of_nat N = max_retries) by (unfold N; lia).
  assert (Hlast : exists m, attempt_step J max_retries N (resp N) = Done (ARaise (DataFlowException m)) /\
    (forall c b, resp N = Response c b -> c <> 200%Z -> m = MException (DataFlowException (MStatus c))) /\
    (forall e, resp N = Raises e \/ resp N = Response 200 (inr e) ->
       m = match e with TimeoutError => MTimeout | _ => MException e end)).
  { assert (Hge : (Z.of_nat N <? max_retries)%Z = false) by (apply Z.ltb_ge; lia).
    specialize (Hf N (le_n N)).
    destruct (resp N) as [status [j|e]|e] eqn:E; simpl in Hf |- *.
    - rewrite Hf, Hge. simpl. rewrite ?Hge. eexists. split; [reflexivity|].
      split; [intros c b Hc _; injection Hc as -> _; reflexivity|].
      intros e [He|He]; [discriminate|injection He as -> He; discriminate].
    - destruct (status =? 200)%Z eqn:Es.
      + apply Z.eqb_eq in Es. subst status.
        exists (match e with TimeoutError => MTimeout | _ => MException e end).
        split; [destruct e; simpl; rewrite Hge; reflexivity|].
        split; [intros c b Hc Hne; injection Hc as <- _; lia|].
        intros e' [He|He]; [discriminate|injection He as He; subst e'; reflexivity].
      + rewrite Hge. simpl. rewrite ?Hge. eexists. split; [reflexivity|].
        split; [intros c b Hc _; injection Hc as -> _; reflexivity|].
        intros e' [He|He]; [discriminate|injection He as -> _]. discriminate Es.
    - exists (match e with TimeoutError => MTimeout | _ => MException e end).
      split; [destruct e; simpl; rewrite Hge; reflexivity|].
      split; [intros c b Hc; discriminate|].
      intros e' [He|He]; [injection He as ->; reflexivity|discriminate]. }
  destruct Hlast as (m & Hstep & Hm1 & Hm2). exists m.
  split.
  - unfold async_request.
    rewrite (attempts_until resp max_retries N ltac:(lia) ltac:(intros i Hi; apply Hf; lia)) by lia.
    rewrite Nat.sub_0_r. simpl attempts. rewrite Hstep. reflexivity.
  - split; [rewrite requests_app, requests_backoff; unfold requests; simpl; lia|].
    split; [rewrite total_sleep_backoff, HN; reflexivity|].
    split; assumption.
Qed.

Lemma async_request_exhausted_witness :
  (0 <= 2)%Z /\
  (forall i, (i <= Z.to_nat 2)%nat -> succeeds (Response (J := nat) 503 (inl 0%nat)) = false) /\
  exists m,
    async_request nat (fun _ => Response 503 (inl 0%nat)) 2 =
      (backoff (Z.to_nat 2) ++ [Request (Z.to_nat 2)], ARaise (DataFlowException m)) /\
    requests (backoff (Z.to_nat 2) ++ [Request (Z.to_nat 2)]) = Z.to_nat (2 + 1) /\
    total_sleep (backoff (Z.to_nat 2)) = 2 ^ 2 - 1 /\
    (forall c b, (fun _ => Response (J := nat) 503 (inl 0%nat)) (Z.to_nat 2) = Response c b -> c <> 200%Z ->
       m = MException (DataFlowException (MStatus c))) /\
    (forall e, (fun _ => Response (J := nat) 503 (inl 0%nat)) (Z.to_nat 2) = Raises e \/
               (fun _ => Response (J := nat) 503 (inl 0%nat)) (Z.to_nat 2) = Response 200 (inr e) ->
       m = match e with TimeoutError => MTimeout | _ => MException e end).
Proof.
  assert (H1 : (0 <= 2)%Z) by lia.
  assert (H2 : forall i, (i <= Z.to_nat 2)%nat -> succeeds (Response (J := nat) 503 (inl 0%nat)) = false)
    by reflexivity.
  split; [exact H1|]. split; [exact H2|].
  exact (async_request_exhausted (fun _ => Response 503 (inl 0%nat)) 2 H1 H2).
Defined.

(** With a negative [max_retries] the loop [range(max_retries + 1)] is
    empty: [async_request] sends no request and returns [None]. *)
Theorem async_request_negative_retries {J} (resp : nat -> outcome J) (max_retries : Z) :
  (max_retries < 0)%Z -> async_request J resp max_retries = ([], ANone).
Proof.
  intros H. unfold async_request. replace (Z.to_nat (max_retries + 1)) with 0%nat by lia. reflexivity.
Qed.

Lemma async_request_negative_retries_witness :
  (-1 < 0)%Z /\ async_request nat (fun _ => Response 200 (inl 1%nat)) (-1) = ([], ANone).
Proof.
  assert (H : (-1 < 0)%Z) by lia.
  split; [exact H|exact (async_request_negative_retries (J := nat) _ (-1) H)].
Defined.

End AsyncRequest.

(* ================================================================== *)
(** ** More of [DataManager] ([data_manager.py]): the market overview,
    the holders and dragon-tiger dispatchers, and the [get_stock_data]
    convenience function.  Sub-requests are given by [fetch], as for the
    composite request. *)
(* ================================================================== *)

Module Overview.

Import Composite.

(** Log records of [get_market_overview]; a failed sub-request is logged
    with the same record as in the composite request. *)
Inductive overview_log :=
| LogOverview (date : string)         (** "获取市场概览: ..." *)
| LogTask (e : log_entry)
| LogOverviewDone (date : string).    (** "成功获取市场概览: ..." *)

(** [task_names] of [get_market_overview]. *)
Definition overview_task_names (include_news : bool) : list string :=
  ["dragon_tiger"; "margin"] ++ (if include_news then ["news"] else []).

(** [get_market_overview] (lines 421-470).  As in the composite request,
    nothing in the [try] raises once the sub-requests are gathered with
    [return_exceptions=True]. *)
Definition get_market_overview (fetch : string -> task_outcome)
    (date update_time : string) (include_news : bool)
    : pyresult (gmap string pyval) * list overview_log :=
  let result := <["update_time" := PyStr update_time]> {[ "date" := PyStr date ]} in
  let task_names := overview_task_names include_news in
  let results := gather fetch task_names in
  let '(result, logs) := fold_left record_result (combine results task_names) (result, []) in
  (Ok result, [LogOverview date] ++ map LogTask logs ++ [LogOverviewDone date]).

(** [get_stock_data] (lines 475-505): [data_types] defaults to the four
    types, and each flag is a list membership test. *)
Definition get_stock_data (fetch : string -> task_outcome)
    (ts_code start_date end_date update_time : string) (data_types : option (list string))
    : pyresult (gmap string pyval) * list log_entry :=
  let data_types := match data_types with
                    | None => ["kline"; "financial"; "market"; "news"]
                    | Some dt => dt
                    end in
  get_stock_comprehensive_data fetch ts_code start_date end_date update_time
    (mk_flags (existsb (String.eqb "kline") data_types)
              (existsb (String.eqb "financial") data_types)
              (existsb (String.eqb "market") data_types)
              (existsb (String.eqb "news") data_types)).

(** Log record of the [except] branches of the two dispatchers below. *)
Inductive fetch_log :=
| LogDragonTigerFailed (msg : string)   (** "获取龙虎榜数据失败: ..." *)
| LogHoldersFailed (msg : string).      (** "获取股东数据失败: ..." *)

(** [get_dragon_tiger_data] (lines 208-241); [fetch "list"] and
    [fetch "institutions"] are the two fetcher calls. *)
Definition get_dragon_tiger_data (fetch : string -> task_outcome)
    (trade_date ts_code : string) (include_institutions : bool)
    : pyresult (gmap string pyval) * list fetch_log :=
  let result : gmap string pyval := ∅ in
  match fetch "list" with
  | RaisedExc e => (Raised e, [LogDragonTigerFailed e])
  | Returned d =>
      let result := <["list" := PyData d]> result in
      if include_institutions then
        match fetch "institutions" with
        | RaisedExc e => (Raised e, [LogDragonTigerFailed e])
        | Returned d' => (Ok (<["institutions" := PyData d']> result), [])
        end
      else (Ok result, [])
  end.

(** [get_holders_data] (lines 243-279); [fetch "top10_holders"] and
    [fetch "top10_floatholders"] are the two fetcher calls. *)
Definition get_holders_data (fetch : string -> task_outcome)
    (ts_code period ann_date holder_type : string)
    : pyresult (gmap string pyval) * list fetch_log :=
  let result : gmap string pyval := ∅ in
  let step1 :=
    if existsb (String.eqb holder_type) ["top10"; "all"] then
      match fetch "top10_holders" with
      | RaisedExc e => Raised e
      | Returned d => Ok (<["top10_holders" := PyData d]> result)
      end
    else Ok result in
  match step1 with
  | Raised e => (Raised e, [LogHoldersFailed e])
  | Ok result =>
      if existsb (String.eqb holder_type) ["float"; "all"] then
        match fetch "top10_floatholders" with
        | RaisedExc e => (Raised e, [LogHoldersFailed e])
        | Returned d => (Ok (<["top10_floatholders" := PyData d]> result), [])
        end
      else (Ok result, [])
  end.

Lemma loop_logs_only (fetch : string -> task_outcome) (names : list string) :
  forall acc l e,
    In (LogTaskError l e) (snd (fold_left record_result (combine (gather fetch names) names) acc)) ->
    In (LogTaskError l e) (snd acc) \/ (In l names /\ fetch l = RaisedExc e).
Proof.
  induction names as [|n names IH]; intros acc l e H; simpl in *; [left; exact H|].
  destruct (IH _ _ _ H) as [H1|[H1 H2]]; [|right; split; [right|]; assumption].
  destruct acc as [result logs]. unfold record_result in H1.
  destruct (fetch n) as [d|e'] eqn:En; simpl in H1; [left; exact H1|].
  apply in_app_or in H1 as [H1|[H1|[]]]; [left; exact H1|].
  injection H1 as <- <-. right. split; [left; reflexivity|exact En].
Qed.

Lemma existsb_eqb_In (x : string) (l : list string) : existsb (String.eqb x) l = true <-> In x l.
Proof.
  rewrite existsb_exists. split.
  - intros (y & Hy & E). apply String.eqb_eq in E. subst y. exact Hy.
  - intros Hx. exists x. split; [exact Hx|apply String.eqb_refl].
Qed.

Lemma task_names_in (f : flags) (l : string) :
  In l (task_names f) <->
  (l = "kline" /\ include_kline f = true) \/ (l = "financial" /\ include_financial f = true) \/
  (l = "money_flow" /\ include_market f = true) \/ (l = "news" /\ include_news f = true).
Proof.
  destruct f as [[] [] [] []]; unfold task_names; simpl;
    split; intros H; intuition (subst; (discriminate || tauto)).
Qed.

Lemma comprehensive_lookup (fetch : string -> task_outcome) ts sd ed ut (f : flags) :
  exists m, fst (get_stock_comprehensive_data fetch ts sd ed ut f) = Ok m /\
  forall l, m !! l = if in_dec String.string_dec l (task_names f) then Some (stored (fetch l))
                     else initial_result ts sd ed ut !! l.
Proof.
  unfold get_stock_comprehensive_data.
  destruct (task_names f) as [|n ns] eqn:E.
  - eexists. split; [reflexivity|]. intros l. reflexivity.
  - rewrite <- E.
    pose proof (loop_lookup fetch (task_names f) (task_names_NoDup f)
                  (initial_result ts sd ed ut, [])) as HL.
    destruct (fold_left record_result (combine (gather fetch (task_names f)) (task_names f))
                (initial_result ts sd ed ut, [])) as [m logs].
    exists m. split; [reflexivity|]. exact HL.
Qed.

(** *** Properties of the overview, the dispatchers and [get_stock_data] *)

(** [get_market_overview] always returns a dictionary: [date] and
    [update_time] hold the given values; [dragon_tiger], [margin], and
    [news] when [include_news] is set, hold what their sub-request returned
    or [None] when it raised; there is no other key.  A sub-request failure
    is logged exactly when a submitted sub-request raised. *)
Theorem get_market_overview_result (fetch : string -> task_outcome)
    (date update_time : string) (include_news : bool) :
  let '(r, logs) := get_market_overview fetch date update_time include_news in
  exists m, r = Ok m /\
    m !! "date" = Some (PyStr date) /\
    m !! "update_time" = Some (PyStr update_time) /\
    (forall l, In l (overview_task_names include_news) -> m !! l = Some (stored (fetch l))) /\
    (forall l, l <> "date" -> l <> "update_time" -> ~ In l (overview_task_names include_news) ->
       m !! l = None) /\
    (forall l e, In (LogTask (LogTaskError l e)) logs <->
       In l (overview_task_names include_news) /\ fetch l = RaisedExc e).
Proof.
  unfold get_market_overview.
  set (names := overview_task_names include_news).
  set (init := <["update_time" := PyStr update_time]> {[ "date" := PyStr date ]} : gmap string pyval).
  assert (Hnd : NoDup names).
  { unfold names, overview_task_names. destruct include_news;
      apply (bool_decide_unpack _); vm_compute; reflexivity. }
  assert (Hmeta : forall l, In l names -> l <> "date" /\ l <> "update_time").
  { unfold names, overview_task_names. intros l Hl.
    destruct include_news; simpl in Hl; intuition (subst; discriminate). }
  pose proof (loop_lookup fetch names Hnd (init, [])) as HL.
  pose proof (loop_logs_error fetch names (init, [])) as HE.
  pose proof (loop_logs_only fetch names (init, [])) as HO.
  destruct (fold_left record_result (combine (gather fetch names) names) (init, [])) as [m logs].
  cbn [fst snd] in HL, HE, HO. exists m. split; [reflexivity|].
  assert (Hdate : ~ In "date" names) by (intros H; apply Hmeta in H; tauto).
  assert (Hupd : ~ In "update_time" names) by (intros H; apply Hmeta in H; tauto).
  split; [rewrite HL; destruct (in_dec String.string_dec "date" names); [tauto|reflexivity]|].
  split; [rewrite HL; destruct (in_dec String.string_dec "update_time" names); [tauto|reflexivity]|].
  split; [intros l Hl; rewrite HL; destruct (in_dec String.string_dec l names); [reflexivity|tauto]|].
  split.
  - intros l H1 H2 H3. rewrite HL. destruct (in_dec String.string_dec l names); [tauto|].
    unfold init. rewrite lookup_insert_ne by congruence. rewrite lookup_singleton_ne by congruence.
    reflexivity.
  - intros l e. split.
    + intros H. apply in_app_or in H as [H|H]; [destruct H as [H|[]]; discriminate|].
      apply in_app_or in H as [H|H]; [|destruct H as [H|[]]; discriminate].
      apply in_map_iff in H as (x & Hx & Hin). injection Hx as ->.
      destruct (HO _ _ Hin) as [[]|H]. exact H.
    + intros [Hl He]. apply in_or_app. right. apply in_or_app. left.
      apply in_map_iff. exists (LogTaskError l e). split; [reflexivity|]. exact (HE l e Hl He).
Qed.

(** [get_stock_data] returns a dictionary whose keys are the four
    metadata keys and one key per requested data type among 'kline',
    'financial', 'market' and 'news' (the type 'market' is stored under
    'money_flow'); other entries of [data_types] are ignored.  Without
    [data_types], all four types are requested. *)
Theorem get_stock_data_keys (fetch : string -> task_outcome)
    (ts_code start_date end_date update_time : string) (data_types : list string) :
  get_stock_data fetch ts_code start_date end_date update_time None =
    get_stock_data fetch ts_code start_date end_date update_time
      (Some ["kline"; "financial"; "market"; "news"]) /\
  exists m, fst (get_stock_data fetch ts_code start_date end_date update_time (Some data_types)) = Ok m /\
  forall l, is_Some (m !! l) <->
    In l metadata_keys \/
    (l = "kline" /\ In "kline" data_types) \/ (l = "financial" /\ In "financial" data_types) \/
    (l = "money_flow" /\ In "market" data_types) \/ (l = "news" /\ In "news" data_types).
Proof.
  split; [reflexivity|].
  unfold get_stock_data.
  set (f := mk_flags (existsb (String.eqb "kline") data_types)
              (existsb (String.eqb "financial") data_types)
              (existsb (String.eqb "market") data_types)
              (existsb (String.eqb "news") data_types)).
  destruct (comprehensive_lookup fetch ts_code start_date end_date update_time f) as (m & Hm & HL).
  exists m. split; [exact Hm|]. intros l. rewrite HL.
  assert (Hin : In l (task_names f) <->
    (l = "kline" /\ In "kline" data_types) \/ (l = "financial" /\ In "financial" data_types) \/
    (l = "money_flow" /\ In "market" data_types) \/ (l = "news" /\ In "news" data_types)).
  { rewrite task_names_in. unfold f. cbn [include_kline include_financial include_market include_news].
    rewrite !existsb_eqb_In. tauto. }
  destruct (in_dec String.string_dec l (task_names f)) as [H|H].
  - split; [intros _; right; apply Hin; exact H|intros _; eexists; reflexivity].
  - rewrite initial_result_lookup. rewrite Hin in H. tauto.
Qed.

(** [get_dragon_tiger_data] returns 'list', and 'institutions' exactly
    when [include_institutions] is set.  A failing fetch is logged and its
    exception re-raised; when the 'list' fetch fails, the institutions are
    not fetched. *)
Theorem get_dragon_tiger_data_result (fetch : string -> task_outcome)
    (trade_date ts_code : string) (include_institutions : bool) :
  (forall m, fst (get_dragon_tiger_data fetch trade_date ts_code include_institutions) = Ok m ->
     (exists d, fetch "list" = Returned d /\ m !! "list" = Some (PyData d)) /\
     (forall l, is_Some (m !! l) <-> l = "list" \/ (l = "institutions" /\ include_institutions = true))) /\
  (forall e, fst (get_dragon_tiger_data fetch trade_date ts_code include_institutions) = Raised e ->
     snd (get_dragon_tiger_data fetch trade_date ts_code include_institutions) = [LogDragonTigerFailed e] /\
     (fetch "list" = RaisedExc e \/ (include_institutions = true /\ fetch "institutions" = RaisedExc e))) /\
  (forall e fetch', fetch "list" = RaisedExc e -> fetch' "list" = RaisedExc e ->
     get_dragon_tiger_data fetch' trade_date ts_code include_institutions =
     get_dragon_tiger_data fetch trade_date ts_code include_institutions).
Proof.
  unfold get_dragon_tiger_data. split; [|split].
  - intros m Hm. destruct (fetch "list") as [d|e] eqn:El; [|discriminate].
    split; [exists d; split; [reflexivity|]|].
    + destruct include_institutions; [destruct (fetch "institutions")|]; simpl in Hm;
        try discriminate; injection Hm as <-.
      * rewrite lookup_insert_ne by discriminate. apply lookup_insert_eq.
      * apply lookup_insert_eq.
    + intros l. destruct include_institutions; [destruct (fetch "institutions") as [d'|e']|];
        simpl in Hm; try discriminate; injection Hm as <-.
      * rewrite !lookup_insert_is_Some'. rewrite lookup_empty.
        split; [intros [<-|[<-|[? Hx]]]; [right; split; reflexivity|left; reflexivity|discriminate Hx]|].
        intros [->|[-> _]]; [right; left; reflexivity|left; reflexivity].
      * rewrite lookup_insert_is_Some', lookup_empty.
        split; [intros [<-|[? Hx]]; [left; reflexivity|discriminate Hx]|].
        intros [->|[_ H]]; [left; reflexivity|discriminate].
  - intros e He. destruct (fetch "list") as [d|e'] eqn:El.
    + destruct include_institutions; [|discriminate].
      destruct (fetch "institutions") as [d'|e''] eqn:Ei; [discriminate|].
      simpl in He. injection He as ->. split; [reflexivity|right; split; [reflexivity|first [reflexivity|assumption]]].
    + simpl in He. injection He as ->. split; [reflexivity|left; reflexivity].
  - intros e fetch' H H'. rewrite H, H'. reflexivity.
Qed.

(** [get_holders_data] returns 'top10_holders' for the holder types
    'top10' and 'all', and 'top10_floatholders' for 'float' and 'all'.  For
    any other holder type it returns an empty dictionary without fetching
    anything.  A failing fetch is logged and its exception re-raised. *)
Theorem get_holders_data_result (fetch : string -> task_outcome)
    (ts_code period ann_date holder_type : string) :
  (~ In holder_type ["top10"; "float"; "all"] ->
     get_holders_data fetch ts_code period ann_date holder_type = (Ok ∅, [])) /\
  (forall m, fst (get_holders_data fetch ts_code period ann_date holder_type) = Ok m ->
     forall l, is_Some (m !! l) <->
       (l = "top10_holders" /\ In holder_type ["top10"; "all"]) \/
       (l = "top10_floatholders" /\ In holder_type ["float"; "all"])) /\
  (forall e, fst (get_holders_data fetch ts_code period ann_date holder_type) = Raised e ->
     snd (get_holders_data fetch ts_code period ann_date holder_type) = [LogHoldersFailed e] /\
     ((In holder_type ["top10"; "all"] /\ fetch "top10_holders" = RaisedExc e) \/
      (In holder_type ["float"; "all"] /\ fetch "top10_floatholders" = RaisedExc e))).
Proof.
  unfold get_holders_data.
  assert (Hsplit : holder_type = "top10" \/ holder_type = "float" \/ holder_type = "all" \/
                   ~ In holder_type ["top10"; "float"; "all"]).
  { destruct (in_dec String.string_dec holder_type ["top10"; "float"; "all"]) as [H|H];
      [simpl in H; intuition|tauto]. }
  destruct Hsplit as [->|[->|[->|Hn]]]; simpl.
  - split; [intros H; exfalso; apply H; left; reflexivity|].
    destruct (fetch "top10_holders") as [d|e] eqn:E; simpl.
    + split; [intros m Hm; injection Hm as <-; intros l|intros e He; discriminate].
      rewrite lookup_insert_is_Some', lookup_empty.
      split; [intros [<-|[? Hx]]; [left; split; [reflexivity|left; reflexivity]|discriminate Hx]|].
      intros [[-> _]|[_ [H|[H|[]]]]]; [left; reflexivity|discriminate|discriminate].
    + split; [intros m Hm; discriminate|].
      intros e' He. injection He as ->. split; [reflexivity|left; split; [left; reflexivity|first [reflexivity|assumption]]].
  - split; [intros H; exfalso; apply H; right; left; reflexivity|].
    destruct (fetch "top10_floatholders") as [d|e] eqn:E; simpl.
    + split; [intros m Hm; injection Hm as <-; intros l|intros e He; discriminate].
      rewrite lookup_insert_is_Some', lookup_empty.
      split; [intros [<-|[? Hx]]; [right; split; [reflexivity|left; reflexivity]|discriminate Hx]|].
      intros [[_ [H|[H|[]]]]|[-> _]]; [discriminate|discriminate|left; reflexivity].
    + split; [intros m Hm; discriminate|].
      intros e' He. injection He as ->. split; [reflexivity|right; split; [left; reflexivity|first [reflexivity|assumption]]].
  - split; [intros H; exfalso; apply H; right; right; left; reflexivity|].
    destruct (fetch "top10_holders") as [d|e] eqn:E; simpl;
      [destruct (fetch "top10_floatholders") as [d'|e'] eqn:E'; simpl|].
    + split; [intros m Hm; injection Hm as <-; intros l|intros e He; discriminate].
      rewrite !lookup_insert_is_Some', lookup_empty.
      split.
      * intros [<-|[<-|[? Hx]]]; [right|left|discriminate Hx]; (split; [reflexivity|right; left; reflexivity]).
      * intros [[-> _]|[-> _]]; [right; left; reflexivity|left; reflexivity].
    + split; [intros m Hm; discriminate|].
      intros e'' He. injection He as ->. split; [reflexivity|right; split; [right; left; reflexivity|first [reflexivity|assumption]]].
    + split; [intros m Hm; discriminate|].
      intros e' He. injection He as ->. split; [reflexivity|left; split; [right; left; reflexivity|first [reflexivity|assumption]]].
  - assert (H1 : existsb (String.eqb holder_type) ["top10"; "all"] = false).
    { destruct (existsb (String.eqb holder_type) ["top10"; "all"]) eqn:E; [|reflexivity].
      apply existsb_eqb_In in E. exfalso. apply Hn. simpl in E |- *. tauto. }
    assert (H2 : existsb (String.eqb holder_type) ["float"; "all"] = false).
    { destruct (existsb (String.eqb holder_type) ["float"; "all"]) eqn:E; [|reflexivity].
      apply existsb_eqb_In in E. exfalso. apply Hn. simpl in E |- *. tauto. }
    simpl in H1, H2. rewrite H1, H2.
    split; [intros _; reflexivity|]. split; [|intros e He; discriminate].
    intros m Hm. injection Hm as <-. intros l. rewrite lookup_empty.
    split; [intros [? Hx]; discriminate Hx|]. intros [[_ H]|[_ H]]; exfalso; apply Hn; simpl in H |- *; tauto.
Qed.

End Overview.

(* ================================================================== *)
(** ** More properties of the five indicator functions *)
(* ================================================================== *)

Module IndicatorExtras.
Import Indicators Frames IndicatorAlgebra ColumnFacts IndicatorClaims.

(** The names of the columns each indicator function assigns, as its
    f-strings and literals spell them. *)
Definition added_columns (i : indicator) (df : frame) : list string :=
  match i with
  | IMa ps =>
      map (col_name "ma") (default ma_periods ps) ++
      (if has_col "vol" df then map (col_name "vol_ma") ma_volume_periods else []) ++
      ["pct_change"]
  | IRsi ps => map (col_name "rsi") (default rsi_periods ps)
  | IKdj _ _ _ => ["k"; "d"; "j"]
  | IBoll _ _ => ["boll_mid"; "boll_upper"; "boll_lower"]
  | IMacd _ _ _ => ["macd_dif"; "macd_dea"; "macd_macd"]
  end.

Lemma writes_added sqrtQ argsort i df :
  map fst (writes sqrtQ i (sort_frame argsort df)) = added_columns i df.
Proof.
  destruct i; unfold writes, added_columns; cbv zeta; try reflexivity.
  - rewrite has_col_sort_frame. rewrite !map_app, !map_map.
    destruct (has_col "vol" df); [rewrite map_map|]; reflexivity.
  - rewrite map_map. reflexivity.
Qed.

Lemma columns_exec_prefix ws d : exists extra, columns (exec ws d) = columns d ++ extra.
Proof.
  revert d; induction ws as [|w ws IH]; intros d; [exists []; rewrite app_nil_r; reflexivity|].
  rewrite exec_cons. destruct (IH (set_col (fst w) (snd w) d)) as [extra E].
  rewrite E, columns_set_col. destruct (has_col (fst w) d).
  - exists extra. reflexivity.
  - exists ([fst w] ++ extra). rewrite app_assoc. reflexivity.
Qed.

(** *** Non-negative values *)
Definition nonneg (x : num) : Prop :=
  match x with
  | Fin q => 0 <= q
  | PInf => True
  | NInf => False
  | NaN => True
  end.

Lemma nonneg_add x y : nonneg x -> nonneg y -> nonneg (num_add x y).
Proof. destruct x, y; simpl; try tauto. lra. Qed.

Lemma nonneg_div x y : nonneg x -> nonneg y -> nonneg (num_div x y).
Proof.
  destruct x as [a| | |], y as [b| | |]; simpl; try tauto.
  - intros Ha Hb. destruct (Qeq_bool b 0) eqn:E.
    + destruct (Qcompare a 0) eqn:C; simpl; try tauto.
      apply Qlt_alt in C. lra.
    + apply Qle_shift_div_l; [|lra].
      assert (~ b == 0) by (intros H; apply Qeq_bool_iff in H; congruence). lra.
  - intros _. lra.
  - intros _ Hb. destruct (Qeq_bool b 0) eqn:E; simpl; [tauto|].
    destruct (Qcompare b 0) eqn:C; simpl; try tauto.
    apply Qlt_alt in C. lra.
Qed.

Lemma nonneg_fold_add l a : nonneg a -> Forall nonneg l -> nonneg (fold_left num_add l a).
Proof.
  revert a; induction l as [|x l IH]; intros a Ha Hl; [exact Ha|].
  inversion Hl; subst. apply IH; [apply nonneg_add|]; assumption.
Qed.

Lemma nonneg_mean ws : Forall nonneg ws -> nonneg (mean_agg ws).
Proof.
  intros Hw. unfold mean_agg.
  assert (Ho : Forall nonneg (observations ws)).
  { unfold observations. apply List.Forall_forall. intros x Hx.
    apply filter_In in Hx as [Hx _]. rewrite List.Forall_forall in Hw. apply Hw, Hx. }
  destruct (observations ws) as [|o os] eqn:E; [exact I|].
  apply nonneg_div.
  - apply nonneg_fold_add; [simpl; lra|exact Ho].
  - unfold num_of_nat. simpl. apply (Qle_trans _ 0); [lra|]. unfold Qle. simpl. lia.
Qed.

Lemma Forall_window {A} (P : A -> Prop) p i l : Forall P l -> Forall P (window p i l).
Proof.
  rewrite !List.Forall_forall. intros H x Hx. apply H. exact (in_window p i l x Hx).
Qed.

Lemma nonneg_rolling_mean p xs : Forall nonneg xs -> Forall nonneg (rolling mean_agg p xs).
Proof.
  intros H. unfold rolling. apply List.Forall_forall. intros y Hy.
  apply in_map_iff in Hy as [i [<- _]]. apply nonneg_mean, Forall_window, H.
Qed.

Lemma nonneg_gain x : nonneg (if num_ltb (Fin 0) x then x else Fin 0).
Proof.
  destruct x as [q| | |]; simpl; try tauto; try lra.
  destruct (Qle_bool q 0) eqn:E; simpl; [lra|].
  assert (~ q <= 0) by (intros H; apply Qle_bool_iff in H; congruence). lra.
Qed.

Lemma nonneg_loss x : nonneg (num_neg (if num_ltb x (Fin 0) then x else Fin 0)).
Proof.
  destruct x as [q| | |]; simpl; try tauto; try lra.
  destruct (Qle_bool 0 q) eqn:E; simpl; [lra|].
  assert (~ 0 <= q) by (intros H; apply Qle_bool_iff in H; congruence). lra.
Qed.

Lemma rsi_of_range r :
  nonneg r -> is_nan (rsi_of r) = true \/ exists q, rsi_of r = Fin q /\ 0 <= q <= 100.
Proof.
  destruct r as [x| | |]; simpl; try tauto; intros Hx.
  - right. unfold rsi_of. simpl.
    assert (Hne : Qeq_bool (1 + x) 0 = false).
    { apply Bool.not_true_iff_false. intros H. apply Qeq_bool_iff in H. lra. }
    rewrite Hne. eexists. split; [reflexivity|].
    assert (H1 : 0 <= 100 / (1 + x)) by (apply Qle_shift_div_l; lra).
    assert (H2 : 100 / (1 + x) <= 100) by (apply Qle_shift_div_r; [lra|]; nra).
    lra.
  - right. unfold rsi_of. simpl. eexists. split; [reflexivity|]. lra.
Qed.

(** *** Finite inputs *)
Lemma num_div_succ a n : num_div (Fin a) (num_of_nat (S n)) = Fin (a / inject_Z (Z.of_nat (S n))).
Proof. unfold num_div, num_of_nat. rewrite inject_Z_succ_nonzero. reflexivity. Qed.

Lemma var_agg_fin w : (2 <= length w)%nat -> exists v, var_agg (map Fin w) = Fin v.
Proof.
  intros Hw. destruct w as [|a [|b w]]; simpl length in Hw; try lia.
  unfold var_agg. rewrite observations_fin, length_map. cbv zeta.
  change (length (a :: b :: w)) with (S (S (length w))).
  replace ((1 <=? S (S (length w))) && (1 <? S (S (length w))))%nat with true by reflexivity.
  destruct (all_same (map Fin (a :: b :: w))); [eexists; reflexivity|].
  unfold num_sum. rewrite num_sum_fin, num_div_succ.
  set (m := fold_left Qplus (a :: b :: w) 0 / inject_Z (Z.of_nat (S (S (length w))))).
  rewrite map_map.
  rewrite (map_ext _ (fun q => Fin ((q + - m) * (q + - m)))) by (intros q; reflexivity).
  rewrite <- (map_map (fun q => (q + - m) * (q + - m)) Fin), num_sum_fin.
  replace (S (S (length w)) - 1)%nat with (S (length w)) by lia.
  rewrite num_div_succ. eexists; reflexivity.
Qed.

Lemma var_agg_short w : (length w < 2)%nat -> var_agg (map Fin w) = NaN.
Proof. intros Hw. destruct w as [|a [|b w]]; simpl length in Hw; try lia; reflexivity. Qed.

(** Every indicator function keeps the [close] column of the sorted input. *)
Lemma close_out sqrtQ argsort i df :
  argsort_spec argsort -> wf df -> guarded i df = false ->
  num_col "close" (run (run_indicator sqrtQ argsort i) df) = num_col "close" (sort_frame argsort df).
Proof.
  intros Hs Hw Hg. destruct (indicator_out sqrtQ argsort i df Hs Hw Hg) as [Hws [_ [_ Hout]]].
  rewrite Hout. unfold num_col. rewrite out_base by (exact Hws || (simpl; tauto)). reflexivity.
Qed.

Lemma length_ewm_go a w ow xs : length (ewm_go a w ow xs) = length xs.
Proof.
  revert w ow; induction xs as [|x xs IH]; intros w ow; [reflexivity|].
  simpl. destruct (if negb (is_nan w) then _ else _) as [w' ow']. simpl. f_equal. apply IH.
Qed.

Lemma length_ewm_mean a xs : length (ewm_mean a xs) = length xs.
Proof. destruct xs as [|x xs]; [reflexivity|]. simpl. f_equal. apply length_ewm_go. Qed.

(** An exponential moving average of a series of equal values repeats the
    first value. *)
Lemma ewm_go_flat a c ow qs :
  Forall (fun q => q == c) qs -> ewm_go a (Fin c) ow (map Fin qs) = map (fun _ => Fin c) qs.
Proof.
  revert ow; induction qs as [|q qs IH]; intros ow Hq; [reflexivity|].
  inversion Hq as [|? ? Hq1 Hqs]; subst.
  assert (E : Qeq_bool c q = true) by (apply Qeq_bool_iff; symmetry; exact Hq1).
  cbn [map ewm_go is_nan negb num_eqb]. rewrite E. cbn. f_equal. apply IH, Hqs.
Qed.

Lemma ewm_mean_flat a c qs :
  Forall (fun q => q == c) qs ->
  exists rs, ewm_mean a (map Fin qs) = map Fin rs /\ length rs = length qs /\ Forall (fun r => r == c) rs.
Proof.
  intros Hq. destruct qs as [|q qs]; [exists []; repeat split; constructor|].
  inversion Hq as [|? ? Hq1 Hqs]; subst.
  assert (Hqs' : Forall (fun x => x == q) qs).
  { apply List.Forall_forall. intros x Hx. rewrite List.Forall_forall in Hqs.
    rewrite (Hqs x Hx), Hq1. reflexivity. }
  exists (q :: map (fun _ => q) qs). simpl. rewrite ewm_go_flat by exact Hqs'.
  rewrite map_map, length_map. split; [reflexivity|]. split; [reflexivity|].
  constructor; [exact Hq1|]. apply List.Forall_forall. intros x Hx.
  apply in_map_iff in Hx as [y [<- _]]. exact Hq1.
Qed.

Lemma zip_with_fin (f : num -> num -> num) (g : Q -> Q -> Q) xs ys :
  (forall a b, f (Fin a) (Fin b) = Fin (g a b)) ->
  zip_with f (map Fin xs) (map Fin ys) = map Fin (zip_with g xs ys).
Proof.
  intros Hf. revert ys; induction xs as [|x xs IH]; intros [|y ys]; try reflexivity.
  unfold zip_with in *. simpl. rewrite Hf. f_equal. apply IH.
Qed.

Lemma Forall_zip_with_Q (P Q' R : Q -> Prop) (g : Q -> Q -> Q) xs ys :
  (forall a b, P a -> Q' b -> R (g a b)) -> Forall P xs -> Forall Q' ys -> Forall R (zip_with g xs ys).
Proof.
  intros Hg Hx Hy. unfold zip_with. apply List.Forall_forall. intros z Hz.
  apply in_map_iff in Hz as [[a b] [<- Hab]].
  apply Hg; [rewrite List.Forall_forall in Hx; exact (Hx a (in_combine_l _ _ _ _ Hab))
            |rewrite List.Forall_forall in Hy; exact (Hy b (in_combine_r _ _ _ _ Hab))].
Qed.

Lemma length_zip_with_Q (g : Q -> Q -> Q) xs ys :
  length xs = length ys -> length (zip_with g xs ys) = length xs.
Proof. intros H. rewrite length_zip_with, H. lia. Qed.

(** The three MACD columns [calculate_macd] writes. *)
Lemma macd_columns argsort f s g df :
  argsort_spec argsort -> wf df -> guarded (IMacd f s g) df = false ->
  let out := run (calculate_macd argsort f s g) df in
  let cl := num_col "close" out in
  let dif := zip_with num_sub (ewm_mean (span_alpha (default macd_fast_period f)) cl)
                              (ewm_mean (span_alpha (default macd_slow_period s)) cl) in
  let dea := ewm_mean (span_alpha (default macd_signal_period g)) dif in
  num_col "macd_dif" out = dif /\ num_col "macd_dea" out = dea /\
  num_col "macd_macd" out = zip_with (fun a b => num_mul (num_sub a b) (Fin 2)) dif dea.
Proof.
  intros Hs Hw Hg.
  pose proof (close_out sqrt_zero argsort (IMacd f s g) df Hs Hw Hg) as Hcl.
  destruct (indicator_out sqrt_zero argsort (IMacd f s g) df Hs Hw Hg) as [Hws [_ [Hc Hout]]].
  simpl run_indicator in Hout, Hcl. cbv zeta. rewrite Hcl, Hout. set (d := sort_frame argsort df) in *.
  pose proof (length_num_col _ _ Hc) as Hn.
  split; [|split]; apply out_num_col; try exact Hws; try reflexivity;
    rewrite ?length_zip_with, !length_ewm_mean, ?length_zip_with, ?length_ewm_mean, Hn; lia.
Qed.

Lemma length_ffill_from last xs : length (ffill_from last xs) = length xs.
Proof. revert last; induction xs as [|x xs IH]; intros last; [reflexivity|]. simpl. f_equal. apply IH. Qed.

Lemma length_pct_change xs : length (pct_change xs) = length xs.
Proof.
  destruct xs as [|x xs]; [reflexivity|]. unfold pct_change. simpl ffill_from. cbv zeta.
  simpl length. rewrite length_zip_with. simpl length. rewrite length_ffill_from. lia.
Qed.

Lemma ffill_from_fin last qs : ffill_from last (map Fin qs) = map Fin qs.
Proof. revert last; induction qs as [|q qs IH]; intros last; [reflexivity|]. simpl. f_equal. apply IH. Qed.

(** The [pct_change] column [calculate_ma] writes. *)
Lemma pct_change_column argsort ps df :
  argsort_spec argsort -> wf df -> guarded (IMa ps) df = false ->
  num_col "pct_change" (run (calculate_ma argsort ps) df) =
    map (fun x => num_mul x (Fin 100)) (pct_change (num_col "close" (run (calculate_ma argsort ps) df))).
Proof.
  intros Hs Hw Hg.
  pose proof (close_out sqrt_zero argsort (IMa ps) df Hs Hw Hg) as Hcl.
  destruct (indicator_out sqrt_zero argsort (IMa ps) df Hs Hw Hg) as [Hws [_ [Hc Hout]]].
  simpl run_indicator in Hout, Hcl. rewrite Hcl, Hout. set (d := sort_frame argsort df) in *.
  apply out_num_col; [exact Hws| |].
  - apply last_write_some.
    + eexists (_, _). split; [|reflexivity]. simpl. apply in_app_iff. right. apply in_app_iff. right. left. reflexivity.
    + intros w Hin Hf. simpl in Hin. apply in_app_iff in Hin as [Hin|Hin].
      * apply in_map_iff in Hin as [p' [<- _]]. simpl in Hf. unfold col_name in Hf. discriminate Hf.
      * apply in_app_iff in Hin as [Hin|Hin].
        -- destruct (has_col "vol" d); [|destruct Hin].
           destruct Hin as [<-|[<-|[]]]; simpl in Hf; unfold col_name in Hf; discriminate Hf.
        -- destruct Hin as [<-|[]]. reflexivity.
  - rewrite length_map. pose proof (length_num_col _ _ Hc) as Hn. rewrite <- Hn.
    apply length_pct_change.
Qed.

(** *** KDJ on bars with [low <= close <= high] *)
Lemma window_has_row {A} p i (l : list A) d :
  (1 <= p)%nat -> (i < length l)%nat -> In (nth i l d) (window p i l).
Proof.
  intros Hp Hi. unfold window.
  assert (E : nth (i - (S i - p)) (skipn (S i - p) (firstn (S i) l)) d = nth i l d).
  { rewrite nth_skipn, nth_firstn. replace (S i - p + (i - (S i - p)))%nat with i by lia.
    replace (i <? S i)%nat with true by (symmetry; apply Nat.ltb_lt; lia). reflexivity. }
  rewrite <- E. apply nth_In. rewrite length_skipn, length_firstn. lia.
Qed.

Lemma window_zero {A} i (l : list A) : window 0 i l = [].
Proof. unfold window. rewrite Nat.sub_0_r. apply skipn_all2. rewrite length_firstn. lia. Qed.

Lemma fold_max_fin a ws :
  exists h, fold_left num_max (map Fin ws) (Fin a) = Fin h /\ a <= h /\ Forall (fun q => q <= h) ws.
Proof.
  revert a; induction ws as [|w ws IH]; intros a.
  { exists a. split; [reflexivity|]. split; [lra|constructor]. }
  cbn [map fold_left].
  assert (Hm : exists b, num_max (Fin a) (Fin w) = Fin b /\ a <= b /\ w <= b).
  { unfold num_max, num_ltb. destruct (Qle_bool w a) eqn:E; cbn [negb].
    - exists a. apply Qle_bool_iff in E. split; [reflexivity|lra].
    - exists w. assert (~ w <= a) by (intros H; apply Qle_bool_iff in H; congruence).
      split; [reflexivity|lra]. }
  destruct Hm as [b [Hb [H1 H2]]]. rewrite Hb. destruct (IH b) as [h [Eh [Hbh Hall]]].
  exists h. split; [exact Eh|]. split; [lra|]. constructor; [lra|exact Hall].
Qed.

Lemma fold_min_fin a ws :
  exists h, fold_left num_min (map Fin ws) (Fin a) = Fin h /\ h <= a /\ Forall (fun q => h <= q) ws.
Proof.
  revert a; induction ws as [|w ws IH]; intros a.
  { exists a. split; [reflexivity|]. split; [lra|constructor]. }
  cbn [map fold_left].
  assert (Hm : exists b, num_min (Fin a) (Fin w) = Fin b /\ b <= a /\ b <= w).
  { unfold num_min, num_ltb. destruct (Qle_bool a w) eqn:E; cbn [negb].
    - exists a. apply Qle_bool_iff in E. split; [reflexivity|lra].
    - exists w. assert (~ a <= w) by (intros H; apply Qle_bool_iff in H; congruence).
      split; [reflexivity|lra]. }
  destruct Hm as [b [Hb [H1 H2]]]. rewrite Hb. destruct (IH b) as [h [Eh [Hbh Hall]]].
  exists h. split; [exact Eh|]. split; [lra|]. constructor; [lra|exact Hall].
Qed.

Lemma max_agg_fin ws : ws <> [] -> exists h, max_agg (map Fin ws) = Fin h /\ Forall (fun q => q <= h) ws.
Proof.
  intros Hne. unfold max_agg. rewrite observations_fin. destruct ws as [|w ws]; [contradiction|].
  cbn [map]. destruct (fold_max_fin w ws) as [h [E [H1 H2]]].
  exists h. split; [exact E|]. constructor; assumption.
Qed.

Lemma min_agg_fin ws : ws <> [] -> exists h, min_agg (map Fin ws) = Fin h /\ Forall (fun q => h <= q) ws.
Proof.
  intros Hne. unfold min_agg. rewrite observations_fin. destruct ws as [|w ws]; [contradiction|].
  cbn [map]. destruct (fold_min_fin w ws) as [h [E [H1 H2]]].
  exists h. split; [exact E|]. constructor; assumption.
Qed.

(** The raw stochastic value of a row, after [fillna(50)], lies in [0, 100]. *)
Lemma rsv_row P (hs ls cs : list Q) i :
  length hs = length cs -> length ls = length cs -> (i < length cs)%nat ->
  nth i ls 0 <= nth i cs 0 <= nth i hs 0 ->
  exists r, nth i (fillna (Fin 50) (map (fun x => num_mul x (Fin 100))
              (zip_with num_div (zip_with num_sub (map Fin cs) (rolling min_agg P (map Fin ls)))
                                (zip_with num_sub (rolling max_agg P (map Fin hs)) (rolling min_agg P (map Fin ls))))))
              NaN = Fin r /\ 0 <= r <= 100.
Proof.
  intros Lh Ll Hi Hrow.
  unfold fillna.
  rewrite (nth_map_in _ _ i NaN NaN)
    by (rewrite ?length_map, ?length_zip_with, ?length_map, ?length_rolling, ?length_map; lia).
  rewrite (nth_map_in _ _ i NaN NaN)
    by (rewrite ?length_zip_with, ?length_map, ?length_rolling, ?length_map; lia).
  rewrite (nth_zip_with _ _ _ i NaN NaN)
    by (rewrite ?length_zip_with, ?length_map, ?length_rolling, ?length_map; lia).
  rewrite !(nth_zip_with _ _ _ i NaN NaN)
    by (rewrite ?length_zip_with, ?length_map, ?length_rolling, ?length_map; lia).
  rewrite (nth_map_in Fin _ i NaN 0) by lia.
  rewrite !nth_rolling by (rewrite length_map; lia). rewrite !window_map.
  destruct P as [|P'].
  { rewrite !window_zero. exists 50. split; [reflexivity|lra]. }
  assert (HP : (1 <= S P')%nat) by lia.
  pose proof (window_has_row (S P') i hs 0 HP ltac:(lia)) as Inh.
  pose proof (window_has_row (S P') i ls 0 HP ltac:(lia)) as Inl.
  destruct (max_agg_fin (window (S P') i hs)) as [H [EH FH]]; [intros E; rewrite E in Inh; destruct Inh|].
  destruct (min_agg_fin (window (S P') i ls)) as [L [EL FL]]; [intros E; rewrite E in Inl; destruct Inl|].
  rewrite List.Forall_forall in FH, FL. specialize (FH _ Inh). specialize (FL _ Inl).
  rewrite EH, EL. set (c := nth i cs 0) in *.
  cbn [num_sub num_add num_neg num_div].
  destruct (Qeq_bool (H + - L) 0) eqn:Z.
  - apply Qeq_bool_iff in Z.
    assert (C : (c + - L ?= 0) = Eq) by (apply Qeq_alt; lra).
    rewrite C. exists 50. split; [reflexivity|lra].
  - assert (~ H + - L == 0) by (intros E; apply Qeq_bool_iff in E; congruence).
    assert (Hpos : 0 < H + - L) by lra.
    eexists. split; [reflexivity|].
    assert (Q1 : 0 <= (c + - L) / (H + - L)) by (apply Qle_shift_div_l; lra).
    assert (Q2 : (c + - L) / (H + - L) <= 1) by (apply Qle_shift_div_r; lra).
    lra.
Qed.

Lemma ewm_go_range a w rs :
  0 < a <= 1 -> 0 <= w <= 100 -> Forall (fun r => 0 <= r <= 100) rs ->
  exists ks, ewm_go a (Fin w) 1 (map Fin rs) = map Fin ks /\ length ks = length rs /\
             Forall (fun r => 0 <= r <= 100) ks.
Proof.
  intros Ha. revert w; induction rs as [|r rs IH]; intros w Hw Hrs.
  { exists []. split; [reflexivity|]. split; [reflexivity|constructor]. }
  inversion Hrs as [|? ? Hr Hrs']; subst.
  assert (Hstep : exists w', ewm_go a (Fin w) 1 (map Fin (r :: rs)) = Fin w' :: ewm_go a (Fin w') 1 (map Fin rs)
                             /\ 0 <= w' <= 100).
  { cbn [map ewm_go is_nan negb num_eqb]. destruct (Qeq_bool w r) eqn:E; cbn [negb].
    - exists w. split; [reflexivity|exact Hw].
    - cbn [num_mul num_add num_div].
      destruct (Qeq_bool (1 * (1 - a) + a) 0) eqn:Z.
      + apply Qeq_bool_iff in Z. exfalso. lra.
      + eexists. split; [reflexivity|].
        assert (P1 : 0 <= 1 * (1 - a) * w) by (apply Qmult_le_0_compat; lra).
        assert (P2 : 0 <= a * r) by (apply Qmult_le_0_compat; lra).
        assert (P3 : w * (1 * (1 - a)) <= 100 * (1 * (1 - a))) by (apply Qmult_le_compat_r; lra).
        assert (P4 : r * a <= 100 * a) by (apply Qmult_le_compat_r; lra).
        split; [apply Qle_shift_div_l; lra|apply Qle_shift_div_r; lra]. }
  destruct Hstep as [w' [E Hw']]. rewrite E. destruct (IH w' Hw' Hrs') as [ks [E' [L F]]].
  exists (w' :: ks). rewrite E'. split; [reflexivity|]. split; [simpl; f_equal; exact L|constructor; assumption].
Qed.

(** *** Properties of the indicator functions *)

(** On a frame the guard lets through, every indicator function keeps the
    number of rows; its columns are the input's, in order, followed by
    those of the names it assigns that the input lacks; and every column it
    does not assign keeps the values of the input sorted by [trade_date]. *)
Theorem indicator_columns (sqrtQ : Q -> Q) (argsort : list cell -> list nat) (i : indicator) (df : frame) :
  argsort_spec argsort -> wf df -> guarded i df = false ->
  let out := run (run_indicator sqrtQ argsort i) df in
  length (rows out) = length (rows df) /\ wf out /\
  (exists extra, columns out = columns df ++ extra /\
     forall c, In c extra <-> In c (added_columns i df) /\ ~ In c (columns df)) /\
  (forall c, ~ In c (added_columns i df) -> get_col c out = get_col c (sort_frame argsort df)).
Proof.
  intros Hs Hw Hg out.
  destruct (indicator_out sqrtQ argsort i df Hs Hw Hg) as [Hws [Hrs [_ Hout]]].
  fold out in Hout. set (s := sort_frame argsort df) in *.
  set (ws := writes sqrtQ i s) in *.
  assert (Hnames : map fst ws = added_columns i df) by apply writes_added.
  assert (Hwo : wf out) by (rewrite Hout; apply wf_exec, Hws).
  split; [rewrite Hout, rows_exec; exact Hrs|]. split; [exact Hwo|]. split.
  - destruct (columns_exec_prefix ws s) as [extra E].
    assert (Hcs : columns s = columns df) by apply columns_sort_frame.
    rewrite Hcs in E. rewrite <- Hout in E. exists extra. split; [exact E|].
    intros c.
    assert (Hin : In c (columns out) <-> In c (columns df) \/ In c (added_columns i df)).
    { rewrite <- has_col_In, Hout, has_col_exec, orb_true_iff, has_col_In, Hcs, <- Hnames.
      rewrite existsb_exists, in_map_iff.
      split; intros [H|[w [H1 H2]]]; try (left; exact H); right; exists w;
        [split; [apply String.eqb_eq in H2; symmetry; exact H2|exact H1]
        |split; [exact H2|apply String.eqb_eq; symmetry; exact H1]]. }
    destruct Hwo as [Hnd _]. rewrite E in Hnd, Hin. apply NoDup_ListNoDup in Hnd.
    split.
    + intros Hc. split.
      * assert (Hc' : In c (columns df ++ extra)) by (apply in_or_app; right; exact Hc).
        apply Hin in Hc' as [Hc'|Hc']; [|exact Hc'].
        exfalso. apply NoDup_app in Hnd as (_ & Hd & _). exact (Hd c (proj2 (list_elem_of_In _ _) Hc') (proj2 (list_elem_of_In _ _) Hc)).
      * intros Hc'. apply NoDup_app in Hnd as (_ & Hd & _). exact (Hd c (proj2 (list_elem_of_In _ _) Hc') (proj2 (list_elem_of_In _ _) Hc)).
    + intros [Ha Hn]. assert (Hc' : In c (columns df ++ extra)) by (apply Hin; right; exact Ha).
      apply in_app_or in Hc' as [Hc'|Hc']; [contradiction|exact Hc'].
  - intros c Hc. rewrite Hout. apply get_col_exec_other; [exact Hws|].
    intros w Hwin Heq. apply Hc. rewrite <- Hnames, <- Heq. apply in_map, Hwin.
Qed.

Lemma indicator_columns_witness :
  argsort_spec argsort_ins /\ wf ohlc_sample /\ guarded (IMa None) ohlc_sample = false /\
  (let out := run (run_indicator sqrt_zero argsort_ins (IMa None)) ohlc_sample in
   length (rows out) = length (rows ohlc_sample) /\ wf out /\
   (exists extra, columns out = columns ohlc_sample ++ extra /\
      forall c, In c extra <-> In c (added_columns (IMa None) ohlc_sample) /\ ~ In c (columns ohlc_sample)) /\
   (forall c, ~ In c (added_columns (IMa None) ohlc_sample) ->
      get_col c out = get_col c (sort_frame argsort_ins ohlc_sample))).
Proof.
  assert (Hg : guarded (IMa None) ohlc_sample = false) by reflexivity.
  split; [exact argsort_ins_spec|]. split; [exact wf_ohlc_sample|]. split; [exact Hg|].
  exact (indicator_columns sqrt_zero argsort_ins (IMa None) ohlc_sample argsort_ins_spec wf_ohlc_sample Hg).
Defined.

(** Every value of an [rsi{p}] column is NaN or a number between 0 and
    100, whatever the close prices are. *)
Theorem rsi_range (argsort : list cell -> list nat) (ps : option (list nat)) (df : frame) (p : nat) :
  argsort_spec argsort -> wf df -> guarded (IRsi ps) df = false -> In p (default rsi_periods ps) ->
  forall x, In x (num_col (col_name "rsi" p) (run (calculate_rsi argsort ps) df)) ->
  is_nan x = true \/ exists q, x = Fin q /\ 0 <= q <= 100.
Proof.
  intros Hs Hw Hg Hp x Hx.
  destruct (rsi_column argsort ps df p Hs Hw Hg Hp) as [_ Hr]. cbv zeta in Hr. rewrite Hr in Hx.
  set (cl := num_col "close" (run (calculate_rsi argsort ps) df)) in Hx.
  apply in_map_iff in Hx as [r [<- Hr']]. apply rsi_of_range.
  unfold zip_with in Hr'. apply in_map_iff in Hr' as [[g l] [<- Hgl]].
  pose proof (in_combine_l _ _ _ _ Hgl) as Hg'. pose proof (in_combine_r _ _ _ _ Hgl) as Hl'.
  apply nonneg_div.
  - unfold rsi_avg_gain in Hg'.
    refine (proj1 (List.Forall_forall _ _) (nonneg_rolling_mean _ _ _) g Hg').
    unfold where0. apply List.Forall_forall. intros y Hy. apply in_map_iff in Hy as [z [<- _]].
    apply nonneg_gain.
  - unfold rsi_avg_loss in Hl'.
    refine (proj1 (List.Forall_forall _ _) (nonneg_rolling_mean _ _ _) l Hl').
    unfold where0. apply List.Forall_forall. intros y Hy. rewrite map_map in Hy.
    apply in_map_iff in Hy as [z [<- _]]. apply nonneg_loss.
Qed.

Lemma rsi_range_witness :
  argsort_spec argsort_ins /\ wf sample /\ guarded (IRsi None) sample = false /\
  In 6%nat (default rsi_periods None) /\
  (forall x, In x (num_col (col_name "rsi" 6) (run (calculate_rsi argsort_ins None) sample)) ->
     is_nan x = true \/ exists q, x = Fin q /\ 0 <= q <= 100).
Proof.
  assert (Hg : guarded (IRsi None) sample = false) by reflexivity.
  assert (Hp : In 6%nat (default rsi_periods None)) by (simpl; tauto).
  split; [exact argsort_ins_spec|]. split; [exact wf_sample|]. split; [exact Hg|]. split; [exact Hp|].
  exact (rsi_range argsort_ins None sample 6 argsort_ins_spec wf_sample Hg Hp).
Defined.

(** On finite close prices, at each row the two Bollinger bands are either
    both NaN, when the window holds fewer than two rows, or lie at the same
    distance [w >= 0] above and below the middle band (for a non-negative
    [std_dev] and a square root that is non-negative). *)
Theorem boll_bands_symmetric (sqrtQ : Q -> Q) (argsort : list cell -> list nat)
    (p : option nat) (sd : option Q) (df : frame) (qs : list Q) :
  argsort_spec argsort -> wf df -> guarded (IBoll p sd) df = false ->
  (forall q, 0 <= q -> 0 <= sqrtQ q) -> 0 <= default boll_std_dev sd ->
  num_col "close" (run (calculate_bollinger_bands sqrtQ argsort p sd) df) = map Fin qs ->
  forall i, (i < length qs)%nat ->
  let out := run (calculate_bollinger_bands sqrtQ argsort p sd) df in
  let mid := nth i (num_col "boll_mid" out) NaN in
  let upper := nth i (num_col "boll_upper" out) NaN in
  let lower := nth i (num_col "boll_lower" out) NaN in
  ((Nat.min (default boll_period p) (S i) < 2)%nat /\ is_nan upper = true /\ is_nan lower = true) \/
  ((2 <= Nat.min (default boll_period p) (S i))%nat /\
   exists m w, 0 <= w /\ mid = Fin m /\ upper = Fin (m + w) /\ lower = Fin (m + - w)).
Proof.
  intros Hs Hw Hg Hsq Hsd Hcl i Hi out mid upper lower.
  destruct (boll_columns sqrtQ argsort p sd df Hs Hw Hg) as [_ [Hm [Hu Hl]]]. cbv zeta in Hm, Hu, Hl.
  fold out in Hm, Hu, Hl, Hcl. rewrite Hcl in Hm, Hu, Hl.
  set (P := default boll_period p) in *. set (SD := default boll_std_dev sd) in *.
  assert (Hi' : (i < length (map Fin qs))%nat) by (rewrite length_map; exact Hi).
  assert (E1 : mid = mean_agg (map Fin (window P i qs)))
    by (unfold mid; rewrite Hm, nth_rolling, window_map by exact Hi'; reflexivity).
  assert (E2 : nth i (map (fun x => num_mul x (Fin SD)) (rolling (std_agg sqrtQ) P (map Fin qs))) NaN =
               num_mul (std_agg sqrtQ (map Fin (window P i qs))) (Fin SD)).
  { rewrite (nth_map_in _ _ i NaN NaN) by (rewrite length_rolling; exact Hi').
    rewrite nth_rolling, window_map by exact Hi'. reflexivity. }
  assert (Eu : upper = num_add mid (num_mul (std_agg sqrtQ (map Fin (window P i qs))) (Fin SD))).
  { unfold upper. rewrite Hu, (nth_zip_with _ _ _ i NaN NaN) by (rewrite ?length_map, length_rolling; exact Hi').
    rewrite E2. fold mid. unfold mid. rewrite Hm. reflexivity. }
  assert (El : lower = num_sub mid (num_mul (std_agg sqrtQ (map Fin (window P i qs))) (Fin SD))).
  { unfold lower. rewrite Hl, (nth_zip_with _ _ _ i NaN NaN) by (rewrite ?length_map, length_rolling; exact Hi').
    rewrite E2. unfold mid. rewrite Hm. reflexivity. }
  pose proof (length_window P i qs Hi) as Hlw.
  destruct (Nat.lt_ge_cases (length (window P i qs)) 2) as [Hlt|Hge].
  - left. split; [lia|].
    rewrite Eu, El. unfold std_agg. rewrite var_agg_short by exact Hlt.
    split; [apply (f_equal is_nan (num_add_nan mid))|].
    unfold num_sub. simpl num_neg. rewrite num_add_nan. reflexivity.
  - right. split; [lia|].
    destruct (var_agg_fin _ Hge) as [v Hv].
    assert (Hz : exists w, zsqrt sqrtQ (Fin v) = Fin w /\ 0 <= w).
    { unfold zsqrt. destruct (Qle_bool 0 v) eqn:E.
      - exists (sqrtQ v). split; [reflexivity|]. apply Hsq, Qle_bool_iff, E.
      - exists 0. split; [reflexivity|lra]. }
    destruct Hz as [w [Hz Hw0]].
    assert (Hne : window P i qs <> []) by (intros E; rewrite E in Hge; simpl in Hge; lia).
    exists (fold_left Qplus (window P i qs) 0 / inject_Z (Z.of_nat (length (window P i qs)))), (w * SD).
    split; [apply Qmult_le_0_compat; assumption|].
    rewrite Eu, El, E1, mean_agg_fin by exact Hne. unfold std_agg. rewrite Hv, Hz.
    split; [reflexivity|split; reflexivity].
Qed.

Lemma boll_bands_symmetric_witness :
  argsort_spec argsort_ins /\ wf sample /\ guarded (IBoll None None) sample = false /\
  (forall q, 0 <= q -> 0 <= sqrt_zero q) /\ 0 <= default boll_std_dev None /\
  num_col "close" (run (calculate_bollinger_bands sqrt_zero argsort_ins None None) sample) = map Fin [10; 11; 12] /\
  (forall i, (i < length [10; 11; 12])%nat ->
   let out := run (calculate_bollinger_bands sqrt_zero argsort_ins None None) sample in
   let mid := nth i (num_col "boll_mid" out) NaN in
   let upper := nth i (num_col "boll_upper" out) NaN in
   let lower := nth i (num_col "boll_lower" out) NaN in
   ((Nat.min (default boll_period None) (S i) < 2)%nat /\ is_nan upper = true /\ is_nan lower = true) \/
   ((2 <= Nat.min (default boll_period None) (S i))%nat /\
    exists m w, 0 <= w /\ mid = Fin m /\ upper = Fin (m + w) /\ lower = Fin (m + - w))).
Proof.
  assert (Hg : guarded (IBoll None None) sample = false) by reflexivity.
  assert (Hsq : forall q, 0 <= q -> 0 <= sqrt_zero q) by (intros q _; unfold sqrt_zero; lra).
  assert (Hsd : 0 <= default boll_std_dev None) by (unfold default, boll_std_dev; lra).
  assert (Hc : num_col "close" (run (calculate_bollinger_bands sqrt_zero argsort_ins None None) sample)
               = map Fin [10; 11; 12]) by (vm_compute; reflexivity).
  split; [exact argsort_ins_spec|]. split; [exact wf_sample|]. split; [exact Hg|].
  split; [exact Hsq|]. split; [exact Hsd|]. split; [exact Hc|].
  exact (boll_bands_symmetric sqrt_zero argsort_ins None None sample [10; 11; 12]
           argsort_ins_spec wf_sample Hg Hsq Hsd Hc).
Defined.

Lemma Forall_fin_zero l : Forall (fun q => q == 0) l -> Forall (fun x => num_eqb x (Fin 0) = true) (map Fin l).
Proof.
  intros H. apply List.Forall_forall. intros x Hx. apply in_map_iff in Hx as [q [<- Hq]].
  rewrite List.Forall_forall in H. apply Qeq_bool_iff, H, Hq.
Qed.

(** On a series of equal close prices the three MACD columns are zero at
    every row. *)
Theorem macd_flat_zero (argsort : list cell -> list nat) (f s g : option nat) (df : frame) (c : Q) (qs : list Q) :
  argsort_spec argsort -> wf df -> guarded (IMacd f s g) df = false ->
  num_col "close" (run (calculate_macd argsort f s g) df) = map Fin qs -> Forall (fun q => q == c) qs ->
  let out := run (calculate_macd argsort f s g) df in
  length (num_col "macd_dif" out) = length qs /\
  length (num_col "macd_dea" out) = length qs /\
  length (num_col "macd_macd" out) = length qs /\
  Forall (fun x => num_eqb x (Fin 0) = true) (num_col "macd_dif" out) /\
  Forall (fun x => num_eqb x (Fin 0) = true) (num_col "macd_dea" out) /\
  Forall (fun x => num_eqb x (Fin 0) = true) (num_col "macd_macd" out).
Proof.
  intros Hs Hw Hg Hcl Hc out.
  destruct (macd_columns argsort f s g df Hs Hw Hg) as [Hd [He Hm]]. cbv zeta in Hd, He, Hm.
  fold out in Hd, He, Hm, Hcl. rewrite Hcl in Hd, He, Hm.
  rewrite Hd, He, Hm. clear Hd He Hm.
  destruct (ewm_mean_flat (span_alpha (default macd_fast_period f)) c qs Hc) as [r1 [E1 [L1 F1]]].
  destruct (ewm_mean_flat (span_alpha (default macd_slow_period s)) c qs Hc) as [r2 [E2 [L2 F2]]].
  rewrite E1, E2, (zip_with_fin num_sub (fun a b => a + - b)) by reflexivity.
  set (dif := zip_with (fun a b => a + - b) r1 r2).
  assert (Fd : Forall (fun q => q == 0) dif).
  { apply (Forall_zip_with_Q (fun q => q == c) (fun q => q == c)); [|exact F1|exact F2].
    intros a b Ha Hb. rewrite Ha, Hb. ring. }
  assert (Ld : length dif = length qs) by (unfold dif; rewrite length_zip_with_Q; lia).
  destruct (ewm_mean_flat (span_alpha (default macd_signal_period g)) 0 dif Fd) as [r3 [E3 [L3 F3]]].
  rewrite E3, (zip_with_fin _ (fun a b => (a + - b) * 2)) by reflexivity.
  assert (Fm : Forall (fun q => q == 0) (zip_with (fun a b => (a + - b) * 2) dif r3)).
  { apply (Forall_zip_with_Q (fun q => q == 0) (fun q => q == 0)); [|exact Fd|exact F3].
    intros a b Ha Hb. rewrite Ha, Hb. ring. }
  rewrite !length_map, length_zip_with_Q by lia.
  repeat split; try lia; apply Forall_fin_zero; assumption.
Qed.

Lemma macd_flat_zero_witness :
  argsort_spec argsort_ins /\ wf flat_sample /\ guarded (IMacd None None None) flat_sample = false /\
  num_col "close" (run (calculate_macd argsort_ins None None None) flat_sample) = map Fin [10; 10; 10] /\
  Forall (fun q => q == 10) [10; 10; 10] /\
  (let out := run (calculate_macd argsort_ins None None None) flat_sample in
   length (num_col "macd_dif" out) = length [10; 10; 10] /\
   length (num_col "macd_dea" out) = length [10; 10; 10] /\
   length (num_col "macd_macd" out) = length [10; 10; 10] /\
   Forall (fun x => num_eqb x (Fin 0) = true) (num_col "macd_dif" out) /\
   Forall (fun x => num_eqb x (Fin 0) = true) (num_col "macd_dea" out) /\
   Forall (fun x => num_eqb x (Fin 0) = true) (num_col "macd_macd" out)).
Proof.
  assert (Hg : guarded (IMacd None None None) flat_sample = false) by reflexivity.
  assert (Hc : num_col "close" (run (calculate_macd argsort_ins None None None) flat_sample) = map Fin [10; 10; 10])
    by (vm_compute; reflexivity).
  assert (Hf : Forall (fun q => q == 10) [10; 10; 10]) by (repeat constructor).
  split; [exact argsort_ins_spec|]. split; [exact wf_flat_sample|]. split; [exact Hg|].
  split; [exact Hc|]. split; [exact Hf|].
  exact (macd_flat_zero argsort_ins None None None flat_sample 10 [10; 10; 10]
           argsort_ins_spec wf_flat_sample Hg Hc Hf).
Defined.

(** On finite close prices, [ma{p}] at row [i] (for a period [p >= 1]) is
    the mean of the closes of rows [i - p + 1] to [i], or of rows [0] to
    [i] when fewer precede. *)
Theorem ma_window_mean (argsort : list cell -> list nat) (ps : option (list nat)) (df : frame) (p : nat) (qs : list Q) :
  argsort_spec argsort -> wf df -> guarded (IMa ps) df = false -> In p (default ma_periods ps) -> (1 <= p)%nat ->
  num_col "close" (run (calculate_ma argsort ps) df) = map Fin qs ->
  forall i, (i < length qs)%nat ->
    nth i (num_col (col_name "ma" p) (run (calculate_ma argsort ps) df)) NaN =
    Fin (fold_left Qplus (skipn (S i - p) (firstn (S i) qs)) 0 / inject_Z (Z.of_nat (Nat.min p (S i)))).
Proof.
  intros Hs Hw Hg Hp H1 Hcl i Hi.
  rewrite (ma_column argsort ps df p Hs Hw Hg Hp), Hcl.
  rewrite nth_rolling by (rewrite length_map; exact Hi). rewrite window_map.
  pose proof (length_window p i qs Hi) as Hl.
  rewrite mean_agg_fin by (intros E; rewrite E in Hl; simpl in Hl; lia).
  rewrite Hl. replace (S i - (S i - p))%nat with (Nat.min p (S i)) by lia. reflexivity.
Qed.

Lemma ma_window_mean_witness :
  argsort_spec argsort_ins /\ wf sample /\ guarded (IMa (Some [2%nat])) sample = false /\
  In 2%nat (default ma_periods (Some [2%nat])) /\ (1 <= 2)%nat /\
  num_col "close" (run (calculate_ma argsort_ins (Some [2%nat])) sample) = map Fin [10; 11; 12] /\
  (forall i, (i < length [10; 11; 12])%nat ->
    nth i (num_col (col_name "ma" 2) (run (calculate_ma argsort_ins (Some [2%nat])) sample)) NaN =
    Fin (fold_left Qplus (skipn (S i - 2) (firstn (S i) [10; 11; 12])) 0 / inject_Z (Z.of_nat (Nat.min 2 (S i))))).
Proof.
  assert (Hg : guarded (IMa (Some [2%nat])) sample = false) by reflexivity.
  assert (Hp : In 2%nat (default ma_periods (Some [2%nat]))) by (simpl; tauto).
  assert (H1 : (1 <= 2)%nat) by lia.
  assert (Hc : num_col "close" (run (calculate_ma argsort_ins (Some [2%nat])) sample) = map Fin [10; 11; 12])
    by (vm_compute; reflexivity).
  split; [exact argsort_ins_spec|]. split; [exact wf_sample|]. split; [exact Hg|].
  split; [exact Hp|]. split; [exact H1|]. split; [exact Hc|].
  exact (ma_window_mean argsort_ins (Some [2%nat]) sample 2 [10; 11; 12] argsort_ins_spec wf_sample Hg Hp H1 Hc).
Defined.

(** On finite close prices, [pct_change] is NaN at the first row; at a
    later row it is [(close / previous close - 1) * 100], and when the
    previous close is zero it is an infinity (of a sign that depends on the
    sign of that zero) or NaN when the close is zero too. *)
Theorem ma_pct_change (argsort : list cell -> list nat) (ps : option (list nat)) (df : frame) (qs : list Q) :
  argsort_spec argsort -> wf df -> guarded (IMa ps) df = false ->
  num_col "close" (run (calculate_ma argsort ps) df) = map Fin qs ->
  let pct := num_col "pct_change" (run (calculate_ma argsort ps) df) in
  length pct = length qs /\ nth 0 pct (Fin 0) = NaN /\
  forall i, (S i < length qs)%nat ->
    match Qeq_bool (nth i qs 0) 0, Qeq_bool (nth (S i) qs 0) 0 with
    | false, _ => nth (S i) pct NaN = Fin ((nth (S i) qs 0 / nth i qs 0 - 1) * 100)
    | true, true => nth (S i) pct NaN = NaN
    | true, false => nth (S i) pct NaN = PInf \/ nth (S i) pct NaN = NInf
    end.
Proof.
  intros Hs Hw Hg Hcl pct. unfold pct. rewrite (pct_change_column argsort ps df Hs Hw Hg), Hcl.
  rewrite length_map, length_pct_change, length_map. split; [reflexivity|].
  destruct qs as [|q0 qs'].
  { exfalso. pose proof (close_out sqrt_zero argsort (IMa ps) df Hs Hw Hg) as Hc2. simpl run_indicator in Hc2.
    destruct (indicator_out sqrt_zero argsort (IMa ps) df Hs Hw Hg) as [_ [Hrs [Hc _]]].
    rewrite Hcl in Hc2. apply (f_equal (@length num)) in Hc2.
    rewrite length_num_col in Hc2 by exact Hc. rewrite Hrs in Hc2.
    destruct (not_guarded_close _ _ Hg) as [_ Hr]. destruct (rows df); [apply Hr; reflexivity|discriminate Hc2]. }
  unfold pct_change. rewrite ffill_from_fin. cbn [map]. split; [reflexivity|].
  intros i Hi. simpl length in Hi. change (nth (S i) _ NaN) with
    (nth i (map (fun x => num_mul x (Fin 100))
                (zip_with (fun cur prev => num_sub (num_div cur prev) (Fin 1)) (map Fin qs') (Fin q0 :: map Fin qs'))) NaN).
  rewrite (nth_map_in _ _ i NaN NaN) by (rewrite length_zip_with; simpl; rewrite length_map; lia).
  rewrite (nth_zip_with _ _ _ i NaN NaN) by (simpl; rewrite length_map; lia).
  change (nth i (Fin q0 :: map Fin qs') NaN) with (nth i (map Fin (q0 :: qs')) NaN).
  rewrite !(nth_map_in Fin _ i NaN 0) by (simpl; lia).
  change (nth (S i) (q0 :: qs') 0) with (nth i qs' 0).
  set (a := nth i qs' 0). set (b := nth i (q0 :: qs') 0).
  unfold num_div. destruct (Qeq_bool b 0); [|reflexivity].
  destruct (Qeq_bool a 0) eqn:Ea.
  - apply Qeq_bool_iff, Qeq_alt in Ea. rewrite Ea. reflexivity.
  - destruct (Qcompare a 0) eqn:Ec; [|right; reflexivity|left; reflexivity].
    apply Qeq_alt, Qeq_bool_iff in Ec. congruence.
Qed.

Lemma ma_pct_change_witness :
  argsort_spec argsort_ins /\ wf sample /\ guarded (IMa None) sample = false /\
  num_col "close" (run (calculate_ma argsort_ins None) sample) = map Fin [10; 11; 12] /\
  (let pct := num_col "pct_change" (run (calculate_ma argsort_ins None) sample) in
   length pct = length [10; 11; 12] /\ nth 0 pct (Fin 0) = NaN /\
   forall i, (S i < length [10; 11; 12])%nat ->
     match Qeq_bool (nth i [10; 11; 12] 0) 0, Qeq_bool (nth (S i) [10; 11; 12] 0) 0 with
     | false, _ => nth (S i) pct NaN = Fin ((nth (S i) [10; 11; 12] 0 / nth i [10; 11; 12] 0 - 1) * 100)
     | true, true => nth (S i) pct NaN = NaN
     | true, false => nth (S i) pct NaN = PInf \/ nth (S i) pct NaN = NInf
     end).
Proof.
  assert (Hg : guarded (IMa None) sample = false) by reflexivity.
  assert (Hc : num_col "close" (run (calculate_ma argsort_ins None) sample) = map Fin [10; 11; 12])
    by (vm_compute; reflexivity).
  split; [exact argsort_ins_spec|]. split; [exact wf_sample|]. split; [exact Hg|]. split; [exact Hc|].
  exact (ma_pct_change argsort_ins None sample [10; 11; 12] argsort_ins_spec wf_sample Hg Hc).
Defined.

Lemma ewm_mean_range a rs :
  0 < a <= 1 -> Forall (fun r => 0 <= r <= 100) rs ->
  exists ks, ewm_mean a (map Fin rs) = map Fin ks /\ length ks = length rs /\
             Forall (fun r => 0 <= r <= 100) ks.
Proof.
  intros Ha Hrs. destruct rs as [|r rs]; [exists []; split; [reflexivity|split; [reflexivity|constructor]]|].
  inversion Hrs as [|? ? Hr Hrs']; subst.
  destruct (ewm_go_range a r rs Ha Hr Hrs') as [ks [E [L F]]].
  exists (r :: ks). simpl. rewrite E. split; [reflexivity|]. split; [simpl; f_equal; exact L|constructor; assumption].
Qed.

Lemma alpha_range k : (1 <= k)%nat -> 0 < 1 / inject_Z (Z.of_nat k) <= 1.
Proof.
  intros Hk. assert (Hz : 1 <= inject_Z (Z.of_nat k)) by (unfold Qle; simpl; lia).
  split; [apply Qlt_shift_div_l; lra|apply Qle_shift_div_r; lra].
Qed.

Lemma fin_list (P : Q -> Prop) xs :
  Forall (fun x => exists q, x = Fin q /\ P q) xs -> exists qs, xs = map Fin qs /\ Forall P qs.
Proof.
  induction xs as [|x xs IH]; intros H; [exists []; split; [reflexivity|constructor]|].
  inversion H as [|? ? [q [-> Hq]] Hxs]; subst. destruct (IH Hxs) as [qs [-> Hqs]].
  exists (q :: qs). split; [reflexivity|constructor; assumption].
Qed.

Lemma Forall_fin (P : Q -> Prop) qs : Forall P qs -> Forall (fun x => exists q, x = Fin q /\ P q) (map Fin qs).
Proof.
  intros H. apply List.Forall_forall. intros x Hx. apply in_map_iff in Hx as [q [<- Hq]].
  exists q. split; [reflexivity|]. rewrite List.Forall_forall in H. apply H, Hq.
Qed.

(** The three KDJ columns [calculate_kdj] writes. *)
Lemma kdj_columns argsort pp kp dp df :
  argsort_spec argsort -> wf df -> guarded (IKdj pp kp dp) df = false ->
  let out := run (calculate_kdj argsort pp kp dp) df in
  let P := default kdj_period pp in
  let high_n := rolling max_agg P (num_col "high" out) in
  let low_n := rolling min_agg P (num_col "low" out) in
  let rsv := fillna (Fin 50) (map (fun x => num_mul x (Fin 100))
               (zip_with num_div (zip_with num_sub (num_col "close" out) low_n)
                                 (zip_with num_sub high_n low_n))) in
  let k := ewm_mean (1 / inject_Z (Z.of_nat (default kdj_k_period kp))) rsv in
  let d := ewm_mean (1 / inject_Z (Z.of_nat (default kdj_d_period dp))) k in
  length (num_col "high" out) = length (num_col "close" out) /\
  length (num_col "low" out) = length (num_col "close" out) /\
  num_col "k" out = k /\ num_col "d" out = d /\
  num_col "j" out = zip_with (fun a b => num_sub (num_mul (Fin 3) a) (num_mul (Fin 2) b)) k d.
Proof.
  intros Hs Hw Hg.
  destruct (indicator_out sqrt_zero argsort (IKdj pp kp dp) df Hs Hw Hg) as [Hws [_ [Hc Hout]]].
  assert (Hhl : has_col "high" df = true /\ has_col "low" df = true).
  { unfold guarded in Hg. apply orb_false_iff in Hg as [_ Hg]. apply negb_false_iff in Hg.
    simpl in Hg. rewrite !andb_true_iff in Hg. tauto. }
  destruct Hhl as [Hh Hl].
  simpl run_indicator in Hout. cbv zeta. rewrite Hout. set (s := sort_frame argsort df) in *.
  assert (Hh' : has_col "high" s = true) by (unfold s; rewrite has_col_sort_frame; exact Hh).
  assert (Hl' : has_col "low" s = true) by (unfold s; rewrite has_col_sort_frame; exact Hl).
  assert (B : forall c, In c base_cols -> num_col c (exec (writes sqrt_zero (IKdj pp kp dp) s) s) = num_col c s).
  { intros c Hin. unfold num_col. rewrite out_base by (exact Hws || exact Hin). reflexivity. }
  rewrite !B by (simpl; tauto).
  pose proof (length_num_col _ _ Hc) as Nc. pose proof (length_num_col _ _ Hh') as Nh.
  pose proof (length_num_col _ _ Hl') as Nl.
  split; [lia|]. split; [lia|].
  split; [|split]; apply out_num_col; try exact Hws; try reflexivity;
    unfold fillna; rewrite ?length_zip_with, ?length_ewm_mean, ?length_zip_with, ?length_map,
      ?length_ewm_mean, ?length_map, ?length_zip_with, ?length_rolling; lia.
Qed.

(** On bars with finite prices and [low <= close <= high] in each row,
    every value of the [k] and [d] columns lies in [0, 100] and every value
    of [j] in [-200, 300] (for smoothing periods of at least 1). *)
Theorem kdj_range (argsort : list cell -> list nat) (pp kp dp : option nat) (df : frame) (hs ls cs : list Q) :
  argsort_spec argsort -> wf df -> guarded (IKdj pp kp dp) df = false ->
  (1 <= default kdj_k_period kp)%nat -> (1 <= default kdj_d_period dp)%nat ->
  num_col "high" (run (calculate_kdj argsort pp kp dp) df) = map Fin hs ->
  num_col "low" (run (calculate_kdj argsort pp kp dp) df) = map Fin ls ->
  num_col "close" (run (calculate_kdj argsort pp kp dp) df) = map Fin cs ->
  (forall i, (i < length cs)%nat -> nth i ls 0 <= nth i cs 0 <= nth i hs 0) ->
  let out := run (calculate_kdj argsort pp kp dp) df in
  length (num_col "k" out) = length cs /\ length (num_col "d" out) = length cs /\
  length (num_col "j" out) = length cs /\
  Forall (fun x => exists q, x = Fin q /\ 0 <= q <= 100) (num_col "k" out) /\
  Forall (fun x => exists q, x = Fin q /\ 0 <= q <= 100) (num_col "d" out) /\
  Forall (fun x => exists q, x = Fin q /\ -200 <= q <= 300) (num_col "j" out).
Proof.
  intros Hs Hw Hg Hk Hd Eh El Ec Hrow out.
  destruct (kdj_columns argsort pp kp dp df Hs Hw Hg) as [Lh [Ll [EK [ED EJ]]]]. cbv zeta in *.
  fold out in Lh, Ll, EK, ED, EJ, Eh, El, Ec. rewrite Eh, El, Ec in *.
  rewrite !length_map in Lh, Ll.
  set (P := default kdj_period pp) in *.
  set (rsv := fillna (Fin 50) _) in EK, ED, EJ.
  assert (Hrsv : Forall (fun x => exists q, x = Fin q /\ 0 <= q <= 100) rsv).
  { apply List.Forall_forall. intros x Hx.
    destruct (In_nth rsv x NaN Hx) as [i [Hi <-]].
    assert (Hi' : (i < length cs)%nat).
    { unfold rsv, fillna in Hi. rewrite ?length_map, ?length_zip_with, ?length_map, ?length_rolling, ?length_map in Hi. lia. }
    exact (rsv_row P hs ls cs i Lh Ll Hi' (Hrow i Hi')). }
  assert (Lr : length rsv = length cs).
  { unfold rsv, fillna. rewrite ?length_map, ?length_zip_with, ?length_map, ?length_rolling, ?length_map. lia. }
  destruct (fin_list _ _ Hrsv) as [rs [Er Fr]]. rewrite Er in EK, ED, EJ.
  rewrite Er, length_map in Lr.
  destruct (ewm_mean_range _ rs (alpha_range _ Hk) Fr) as [ks [E1 [L1 F1]]].
  rewrite E1 in EK, ED, EJ.
  destruct (ewm_mean_range _ ks (alpha_range _ Hd) F1) as [ds [E2 [L2 F2]]].
  rewrite E2 in ED, EJ.
  rewrite (zip_with_fin _ (fun a b => 3 * a + - (2 * b))) in EJ by reflexivity.
  rewrite EK, ED, EJ, !length_map, length_zip_with_Q by lia.
  split; [lia|]. split; [lia|]. split; [lia|].
  split; [apply Forall_fin, F1|]. split; [apply Forall_fin, F2|].
  apply Forall_fin. apply (Forall_zip_with_Q (fun r => 0 <= r <= 100) (fun r => 0 <= r <= 100)); [|exact F1|exact F2].
  intros a b Ha Hb. lra.
Qed.

Lemma kdj_range_witness :
  argsort_spec argsort_ins /\ wf ohlc_sample /\ guarded (IKdj None None None) ohlc_sample = false /\
  (1 <= default kdj_k_period None)%nat /\ (1 <= default kdj_d_period None)%nat /\
  num_col "high" (run (calculate_kdj argsort_ins None None None) ohlc_sample) = map Fin [11; 12; 13] /\
  num_col "low" (run (calculate_kdj argsort_ins None None None) ohlc_sample) = map Fin [9; 10; 11] /\
  num_col "close" (run (calculate_kdj argsort_ins None None None) ohlc_sample) = map Fin [10; 11; 12] /\
  (forall i, (i < length [10; 11; 12])%nat ->
     nth i [9; 10; 11] 0 <= nth i [10; 11; 12] 0 <= nth i [11; 12; 13] 0) /\
  (let out := run (calculate_kdj argsort_ins None None None) ohlc_sample in
   length (num_col "k" out) = length [10; 11; 12] /\ length (num_col "d" out) = length [10; 11; 12] /\
   length (num_col "j" out) = length [10; 11; 12] /\
   Forall (fun x => exists q, x = Fin q /\ 0 <= q <= 100) (num_col "k" out) /\
   Forall (fun x => exists q, x = Fin q /\ 0 <= q <= 100) (num_col "d" out) /\
   Forall (fun x => exists q, x = Fin q /\ -200 <= q <= 300) (num_col "j" out)).
Proof.
  assert (Hg : guarded (IKdj None None None) ohlc_sample = false) by reflexivity.
  assert (Hk : (1 <= default kdj_k_period None)%nat) by (apply Nat.leb_le; reflexivity).
  assert (Hd : (1 <= default kdj_d_period None)%nat) by (apply Nat.leb_le; reflexivity).
  assert (Eh : num_col "high" (run (calculate_kdj argsort_ins None None None) ohlc_sample) = map Fin [11; 12; 13])
    by (vm_compute; reflexivity).
  assert (El : num_col "low" (run (calculate_kdj argsort_ins None None None) ohlc_sample) = map Fin [9; 10; 11])
    by (vm_compute; reflexivity).
  assert (Ec : num_col "close" (run (calculate_kdj argsort_ins None None None) ohlc_sample) = map Fin [10; 11; 12])
    by (vm_compute; reflexivity).
  assert (Hr : forall i, (i < length [10; 11; 12])%nat ->
     nth i [9; 10; 11] 0 <= nth i [10; 11; 12] 0 <= nth i [11; 12; 13] 0).
  { intros i Hi. simpl in Hi. destruct i as [|[|[|i]]]; simpl; try lia; split; lra. }
  split; [exact argsort_ins_spec|]. split; [exact wf_ohlc_sample|]. split; [exact Hg|].
  split; [exact Hk|]. split; [exact Hd|]. split; [exact Eh|]. split; [exact El|]. split; [exact Ec|].
  split; [exact Hr|].
  exact (kdj_range argsort_ins None None None ohlc_sample [11; 12; 13] [9; 10; 11] [10; 11; 12]
           argsort_ins_spec wf_ohlc_sample Hg Hk Hd Eh El Ec Hr).
Defined.

End IndicatorExtras.
